(** * Solar site suitability scoring: a model of [streamlit_dashboard.py]

    The dashboard reads a table of regions, adds a suitability score to
    every region ([create_solar_site_suitability_score]) and shows the
    regions ranked by that score ([main]).

    Modelling choices.
    - A pandas [DataFrame] is a finite map from column names to columns; a
      column is a [float64] column or an [object] column of text.
    - A [float64] cell is a finite number, a rational ([Q]); [NaN] and
      infinities are outside the model.  The scorer is given twice.  First
      with exact arithmetic, for what rounding does not touch: the columns
      that are read and written, the exceptions, the values that
      [float64] arithmetic computes exactly as well.  Then, in
      [Module IEEE], with every arithmetic operation rounded the way
      [float64] arithmetic rounds it, for what rounding decides.
    - Data frames are mutable Python objects.  They live in a store and
      are passed by reference; [df.copy()] allocates, [df[k] = v] mutates.
    - Python exceptions are a result of the computation. *)

From Stdlib Require Import QArith Qminmax Qabs Qpower Lqa Lia.
From Stdlib Require Import Sorting.Sorted Sorting.Permutation.
From stdpp Require Import base gmap strings list fin_maps sorting.

Open Scope string_scope.
Open Scope list_scope.
Open Scope Q_scope.

(** ** Columns and data frames *)

Inductive Series :=
| Float64 (xs : list Q)
| Object (xs : list string).

Definition Series_len (s : Series) : nat :=
  match s with
  | Float64 xs => length xs
  | Object xs => length xs
  end.

Abbreviation DataFrame := (gmap string Series).

(** All columns of a frame have [n] rows. *)
Definition frame_rows (f : DataFrame) (n : nat) : Prop :=
  ∀ k s, f !! k = Some s → Series_len s = n.

(** ** Exceptions, the store and the monad of Python computations *)

Inductive exn :=
| KeyError (key : string)
| TypeError
| ValueError
| IndexError.

Definition class_name (e : exn) : string :=
  match e with
  | KeyError _ => "KeyError"
  | TypeError => "TypeError"
  | ValueError => "ValueError"
  | IndexError => "IndexError"
  end.

(** [Dangling] is not a Python behaviour: it is the outcome of using a
    reference that was never allocated, which no Python program can do. *)
Inductive result (A : Type) :=
| Ok (a : A)
| Raise (e : exn)
| Dangling.
Arguments Ok {A} a.
Arguments Raise {A} e.
Arguments Dangling {A}.

Definition loc := nat.
Abbreviation store := (list DataFrame).

Definition M (A : Type) : Type := store → result A * store.

#[export] Instance M_ret : MRet M := λ A a h, (Ok a, h).

#[export] Instance M_bind : MBind M := λ A B k m h,
  match m h with
  | (Ok a, h') => k a h'
  | (Raise e, h') => (Raise e, h')
  | (Dangling, h') => (Dangling, h')
  end.

(** Computations without a store: they answer or raise. *)
#[export] Instance result_ret : MRet result := λ A a, Ok a.

#[export] Instance result_bind : MBind result := λ A B k r,
  match r with
  | Ok a => k a
  | Raise e => Raise e
  | Dangling => Dangling
  end.

(** A column operation that may raise but does not touch the store. *)
Definition lift {A} (r : result A) : M A := λ h, (r, h).

(** [df.copy()]: a new object with the same columns. *)
Definition copy (df : loc) : M loc :=
  λ h, match h !! df with
       | Some f => (Ok (length h), h ++ [f])
       | None => (Dangling, h)
       end.

(** [df[key]] *)
Definition getitem (df : loc) (key : string) : M Series :=
  λ h, match h !! df with
       | Some f =>
           match f !! key with
           | Some s => (Ok s, h)
           | None => (Raise (KeyError key), h)
           end
       | None => (Dangling, h)
       end.

(** [df[key] = v]: the object behind [df] is changed in place. *)
Definition setitem (df : loc) (key : string) (v : Series) : M unit :=
  λ h, match h !! df with
       | Some f => (Ok tt, <[df := <[key := v]> f]> h)
       | None => (Dangling, h)
       end.

(** ** Column arithmetic *)

(** [c - s] for a number [c]. Text cells cannot be subtracted from a
    number; an empty column has no cell to fail on. *)
Definition rsub (c : Q) (s : Series) : result Series :=
  match s with
  | Float64 xs => Ok (Float64 (map (Qminus c) xs))
  | Object [] => Ok (Object [])
  | Object (_ :: _) => Raise TypeError
  end.

(** The largest cell of a numeric column; an empty column has none
    (pandas answers [NaN]). *)
Definition Series_max (xs : list Q) : option Q :=
  match xs with
  | [] => None
  | x :: xs' => Some (fold_right Qmax x xs')
  end.

(** [s.max() - s].  For an empty column the maximum is [NaN] and the
    difference is the empty column again.  The maximum of a text column
    is a text, and text cannot be subtracted from text. *)
Definition max_minus (s : Series) : result Series :=
  match s with
  | Float64 xs =>
      match Series_max xs with
      | Some m => rsub m s
      | None => Ok (Float64 [])
      end
  | Object [] => Ok (Object [])
  | Object (_ :: _) => Raise TypeError
  end.

(** [s * w] for a number [w]. *)
Definition smul (s : Series) (w : Q) : result Series :=
  match s with
  | Float64 xs => Ok (Float64 (map (λ x, x * w) xs))
  | Object [] => Ok (Object [])
  | Object (_ :: _) => Raise TypeError
  end.

(** [s1 + s2] for two columns of one frame (they share their index, so
    the sum is taken row by row); on text [+] is concatenation. *)
Definition sadd (s1 s2 : Series) : result Series :=
  match s1, s2 with
  | Float64 xs, Float64 ys => Ok (Float64 (zip_with Qplus xs ys))
  | Object xs, Object ys => Ok (Object (zip_with String.append xs ys))
  | Float64 xs, Object ys | Object ys, Float64 xs =>
      (* a number and a text cannot be added; without rows nothing is *)
      match xs, ys with
      | _ :: _, _ :: _ => Raise TypeError
      | _, _ => Ok (Object [])
      end
  end.

(** ** [sklearn.preprocessing.MinMaxScaler] with its default range (0, 1) *)

Module MinMaxScaler.

(** [np.finfo(np.float64).eps] *)
Definition eps : Q := 1 # (2 ^ 52).

Definition data_min (x : Q) (xs : list Q) : Q := fold_right Qmin x xs.
Definition data_max (x : Q) (xs : list Q) : Q := fold_right Qmax x xs.

(** [_handle_zeros_in_scale]: a (nearly) constant feature is scaled by 1. *)
Definition handle_zeros_in_scale (scale : Q) : Q :=
  if Qlt_le_dec scale (10 * eps) then 1 else scale.

Record fitted := { scale_ : Q; min_ : Q }.

Definition fit (x : Q) (xs : list Q) : fitted :=
  let data_range := data_max x xs - data_min x xs in
  let scale := (1 - 0) / handle_zeros_in_scale data_range in
  {| scale_ := scale; min_ := 0 - data_min x xs * scale |}.

Definition transform (p : fitted) (xs : list Q) : list Q :=
  map (λ v, v * scale_ p + min_ p) xs.

(** [scaler.fit_transform(df[[col]])] on the one selected column.
    Input validation rejects text and a column without rows.  (Text that
    reads as numbers all through would be converted instead; such a column
    is outside the model.) *)
Definition fit_transform (s : Series) : result Series :=
  match s with
  | Float64 (x :: xs) => Ok (Float64 (transform (fit x xs) (x :: xs)))
  | Float64 [] => Raise ValueError
  | Object _ => Raise ValueError
  end.

End MinMaxScaler.

(** ** The scorer *)

(** The [weights] dictionary. *)
Definition weights : gmap string Q :=
  {[ "Solar_Irradiance_norm" := 0.3;
     "Grid_Access_inverse_norm" := 0.2;
     "Infrastructure_Index_norm" := 0.15;
     "Electricity_Cost_norm" := 0.15;
     "Rural_Pop_Density_norm" := 0.1;
     "Terrain_Ruggedness_inverse_norm" := 0.1 ]}.

(** [df_processed[dst] = scaler.fit_transform(df_processed[[src]])].  The one
    [scaler] object is fitted afresh by every [fit_transform]. *)
Definition normalize (df_processed : loc) (dst src : string) : M unit :=
  col ← getitem df_processed src;
  v ← lift (MinMaxScaler.fit_transform col);
  setitem df_processed dst v.

(** [d[key]] on a dictionary *)
Definition dict_getitem (d : gmap string Q) (key : string) : result Q :=
  match d !! key with
  | Some w => Ok w
  | None => Raise (KeyError key)
  end.

(** [df_processed[key] * weights[key]] *)
Definition weighted (df_processed : loc) (key : string) : M Series :=
  col ← getitem df_processed key;
  w ← lift (dict_getitem weights key);
  lift (smul col w).

Definition create_solar_site_suitability_score (df : loc) : M loc :=
  df_processed ← copy df;
  (* Invert features where lower is better *)
  grid ← getitem df_processed "Grid_Access_Percent";
  v ← lift (rsub 100 grid);
  setitem df_processed "Grid_Access_inverse" v;;
  terrain ← getitem df_processed "Terrain_Ruggedness_Score";
  v ← lift (max_minus terrain);
  setitem df_processed "Terrain_Ruggedness_inverse" v;;
  (* Normalize features *)
  normalize df_processed "Solar_Irradiance_norm" "Solar_Irradiance_kWh_m2_day";;
  normalize df_processed "Infrastructure_Index_norm" "Infrastructure_Index";;
  normalize df_processed "Electricity_Cost_norm" "Electricity_Cost_USD_per_kWh";;
  normalize df_processed "Grid_Access_inverse_norm" "Grid_Access_inverse";;
  normalize df_processed "Rural_Pop_Density_norm" "Rural_Pop_Density_per_km2";;
  normalize df_processed "Terrain_Ruggedness_inverse_norm" "Terrain_Ruggedness_inverse";;
  (* Weighted sum *)
  t1 ← weighted df_processed "Solar_Irradiance_norm";
  t2 ← weighted df_processed "Grid_Access_inverse_norm";
  s ← lift (sadd t1 t2);
  t3 ← weighted df_processed "Infrastructure_Index_norm";
  s ← lift (sadd s t3);
  t4 ← weighted df_processed "Electricity_Cost_norm";
  s ← lift (sadd s t4);
  t5 ← weighted df_processed "Rural_Pop_Density_norm";
  s ← lift (sadd s t5);
  t6 ← weighted df_processed "Terrain_Ruggedness_inverse_norm";
  s ← lift (sadd s t6);
  setitem df_processed "Solar_Site_Suitability_Score" s;;
  mret df_processed.

(** Scenario of three regions A, B, C. *)
Definition scenario : DataFrame :=
  {[ "Region" := Object ["A"; "B"; "C"];
     "Solar_Irradiance_kWh_m2_day" := Float64 [5; 7; 6];
     "Grid_Access_Percent" := Float64 [80; 40; 60];
     "Infrastructure_Index" := Float64 [50; 70; 60];
     "Electricity_Cost_USD_per_kWh" := Float64 [0.10; 0.20; 0.15];
     "Rural_Pop_Density_per_km2" := Float64 [20; 5; 10];
     "Terrain_Ruggedness_Score" := Float64 [30; 10; 20] ]}.

(** ** What a successful run computes *)

(** The normalized column, as a function of a non-empty column. *)
Definition normalized (xs : list Q) : list Q :=
  match xs with
  | [] => []
  | x :: xs' => MinMaxScaler.transform (MinMaxScaler.fit x xs') xs
  end.

(** The six metric columns of a batch. *)
Record Metrics := {
  Solar_Irradiance_kWh_m2_day : list Q;
  Grid_Access_Percent : list Q;
  Infrastructure_Index : list Q;
  Electricity_Cost_USD_per_kWh : list Q;
  Rural_Pop_Density_per_km2 : list Q;
  Terrain_Ruggedness_Score : list Q
}.

(** The frame [f] carries the six metrics [m] as numeric columns. *)
Definition has_metrics (f : DataFrame) (m : Metrics) : Prop :=
  f !! "Solar_Irradiance_kWh_m2_day" = Some (Float64 (Solar_Irradiance_kWh_m2_day m)) ∧
  f !! "Grid_Access_Percent" = Some (Float64 (Grid_Access_Percent m)) ∧
  f !! "Infrastructure_Index" = Some (Float64 (Infrastructure_Index m)) ∧
  f !! "Electricity_Cost_USD_per_kWh" = Some (Float64 (Electricity_Cost_USD_per_kWh m)) ∧
  f !! "Rural_Pop_Density_per_km2" = Some (Float64 (Rural_Pop_Density_per_km2 m)) ∧
  f !! "Terrain_Ruggedness_Score" = Some (Float64 (Terrain_Ruggedness_Score m)).

(** Every metric column has [n] rows. *)
Definition metrics_rows (m : Metrics) (n : nat) : Prop :=
  length (Solar_Irradiance_kWh_m2_day m) = n ∧
  length (Grid_Access_Percent m) = n ∧
  length (Infrastructure_Index m) = n ∧
  length (Electricity_Cost_USD_per_kWh m) = n ∧
  length (Rural_Pop_Density_per_km2 m) = n ∧
  length (Terrain_Ruggedness_Score m) = n.

(** A valid batch: all six metrics present, and at least one region. *)
Definition valid_batch (f : DataFrame) (m : Metrics) (n : nat) : Prop :=
  has_metrics f m ∧ metrics_rows m n ∧ (0 < n)%nat.

Definition Grid_Access_inverse (m : Metrics) : list Q :=
  map (Qminus 100) (Grid_Access_Percent m).

Definition Terrain_Ruggedness_inverse (m : Metrics) : list Q :=
  match Series_max (Terrain_Ruggedness_Score m) with
  | Some top => map (Qminus top) (Terrain_Ruggedness_Score m)
  | None => []
  end.

(** The six normalized columns. *)
Record Normalized := {
  Solar_Irradiance_norm : list Q;
  Grid_Access_inverse_norm : list Q;
  Infrastructure_Index_norm : list Q;
  Electricity_Cost_norm : list Q;
  Rural_Pop_Density_norm : list Q;
  Terrain_Ruggedness_inverse_norm : list Q
}.

Definition normalized_metrics (m : Metrics) : Normalized :=
  {| Solar_Irradiance_norm := normalized (Solar_Irradiance_kWh_m2_day m);
     Grid_Access_inverse_norm := normalized (Grid_Access_inverse m);
     Infrastructure_Index_norm := normalized (Infrastructure_Index m);
     Electricity_Cost_norm := normalized (Electricity_Cost_USD_per_kWh m);
     Rural_Pop_Density_norm := normalized (Rural_Pop_Density_per_km2 m);
     Terrain_Ruggedness_inverse_norm := normalized (Terrain_Ruggedness_inverse m) |}.

(** The score column, summed left to right as in the source. *)
Definition Solar_Site_Suitability_Score (z : Normalized) : list Q :=
  zip_with Qplus
    (zip_with Qplus
      (zip_with Qplus
        (zip_with Qplus
          (zip_with Qplus
            (map (λ x, x * 0.3) (Solar_Irradiance_norm z))
            (map (λ x, x * 0.2) (Grid_Access_inverse_norm z)))
          (map (λ x, x * 0.15) (Infrastructure_Index_norm z)))
        (map (λ x, x * 0.15) (Electricity_Cost_norm z)))
      (map (λ x, x * 0.1) (Rural_Pop_Density_norm z)))
    (map (λ x, x * 0.1) (Terrain_Ruggedness_inverse_norm z)).

(** The frame returned for the batch [f] with metrics [m]. *)
Definition scored (f : DataFrame) (m : Metrics) : DataFrame :=
  let z := normalized_metrics m in
  <["Solar_Site_Suitability_Score" := Float64 (Solar_Site_Suitability_Score z)]>
  (<["Terrain_Ruggedness_inverse_norm" := Float64 (Terrain_Ruggedness_inverse_norm z)]>
  (<["Rural_Pop_Density_norm" := Float64 (Rural_Pop_Density_norm z)]>
  (<["Grid_Access_inverse_norm" := Float64 (Grid_Access_inverse_norm z)]>
  (<["Electricity_Cost_norm" := Float64 (Electricity_Cost_norm z)]>
  (<["Infrastructure_Index_norm" := Float64 (Infrastructure_Index_norm z)]>
  (<["Solar_Irradiance_norm" := Float64 (Solar_Irradiance_norm z)]>
  (<["Terrain_Ruggedness_inverse" := Float64 (Terrain_Ruggedness_inverse m)]>
  (<["Grid_Access_inverse" := Float64 (Grid_Access_inverse m)]> f)))))))).

(** ** Reading the returned frame row by row *)

(** The number in column [k], row [i]. *)
Definition cell (g : DataFrame) (k : string) (i : nat) : option Q :=
  match g !! k with
  | Some (Float64 xs) => xs !! i
  | _ => None
  end.

(** The six normalized features of one region. *)
Record NormRow := {
  solar_norm : Q;
  grid_inverse_norm : Q;
  infra_norm : Q;
  cost_norm : Q;
  pop_norm : Q;
  terrain_inverse_norm : Q
}.

Definition norm_row (g : DataFrame) (i : nat) : option NormRow :=
  a ← cell g "Solar_Irradiance_norm" i;
  b ← cell g "Grid_Access_inverse_norm" i;
  c ← cell g "Infrastructure_Index_norm" i;
  d ← cell g "Electricity_Cost_norm" i;
  e ← cell g "Rural_Pop_Density_norm" i;
  t ← cell g "Terrain_Ruggedness_inverse_norm" i;
  Some {| solar_norm := a; grid_inverse_norm := b; infra_norm := c;
          cost_norm := d; pop_norm := e; terrain_inverse_norm := t |}.

(** The weighted sum of one row, in the order of the source. *)
Definition weighted_sum (r : NormRow) : Q :=
  solar_norm r * 0.3 + grid_inverse_norm r * 0.2 + infra_norm r * 0.15
  + cost_norm r * 0.15 + pop_norm r * 0.1 + terrain_inverse_norm r * 0.1.

Definition in_unit (r : NormRow) : Prop :=
  0 <= solar_norm r <= 1 ∧ 0 <= grid_inverse_norm r <= 1 ∧
  0 <= infra_norm r <= 1 ∧ 0 <= cost_norm r <= 1 ∧
  0 <= pop_norm r <= 1 ∧ 0 <= terrain_inverse_norm r <= 1.

(** The scorer, called on [df] in store [h], returns the frame [g]. *)
Definition returns (h : store) (df : loc) (g : DataFrame) : Prop :=
  ∃ l h', create_solar_site_suitability_score df h = (Ok l, h') ∧ h' !! l = Some g.

(** The six [fit_transform] calls: normalized column, source column. *)
Definition features : list (string * string) :=
  [ ("Solar_Irradiance_norm", "Solar_Irradiance_kWh_m2_day");
    ("Infrastructure_Index_norm", "Infrastructure_Index");
    ("Electricity_Cost_norm", "Electricity_Cost_USD_per_kWh");
    ("Grid_Access_inverse_norm", "Grid_Access_inverse");
    ("Rural_Pop_Density_norm", "Rural_Pop_Density_per_km2");
    ("Terrain_Ruggedness_inverse_norm", "Terrain_Ruggedness_inverse") ].

Definition scenario_metrics : Metrics :=
  {| Solar_Irradiance_kWh_m2_day := [5; 7; 6];
     Grid_Access_Percent := [80; 40; 60];
     Infrastructure_Index := [50; 70; 60];
     Electricity_Cost_USD_per_kWh := [0.10; 0.20; 0.15];
     Rural_Pop_Density_per_km2 := [20; 5; 10];
     Terrain_Ruggedness_Score := [30; 10; 20] |}.

(** * The scorer in [float64] arithmetic *)

(** ** Rounding *)

Module Binary64.

(** The integer nearest to [y]; of two nearest integers, the even one. *)
Definition round_half_even (y : Q) : Z :=
  let n := Qnum y in
  let d := Zpos (Qden y) in
  let q := (n / d)%Z in
  let r := (n mod d)%Z in
  match (2 * r ?= d)%Z with
  | Lt => q
  | Gt => (q + 1)%Z
  | Eq => if Z.even q then q else (q + 1)%Z
  end.

(** For [0 < x], the exponent [e] of the last of the 53 bits of [x]:
    [2^(e+52) <= x < 2^(e+53)]. *)
Definition ulp_exponent (x : Q) : Z :=
  let k := (Z.log2 (Qnum x) - Z.log2 (Zpos (Qden x)))%Z in
  if Qle_bool (2 ^ k) x then (k - 52)%Z else (k - 53)%Z.

Definition round_positive (x : Q) : Q :=
  let e := ulp_exponent x in
  inject_Z (round_half_even (x / 2 ^ e)) * 2 ^ e.

(** The [float64] nearest to [x], ties to even: the rounding of IEEE 754
    binary64 arithmetic.  The exponent is not bounded: results beyond
    [1.8e308] (infinite in [float64]) and below [2.2e-308] (subnormal)
    are outside the model. *)
Definition round (x : Q) : Q :=
  match Qnum x with
  | Z0 => 0
  | Zpos _ => Qred (round_positive x)
  | Zneg _ => Qred (- round_positive (- x))
  end.

End Binary64.

(** What the proofs use of the rounding of [float64] arithmetic. *)
Record rounding (rnd : Q → Q) : Prop := {
  rounding_monotone : ∀ x y, x <= y → rnd x <= rnd y;
  rounding_zero : rnd 0 == 0;
  rounding_opp : ∀ x, rnd (- x) == - rnd x;
  rounding_idempotent : ∀ x, rnd (rnd x) == rnd x
}.

(** The cells [read_csv] makes of decimal text. *)
Definition parsed (cells : list Q) : list Q := map Binary64.round cells.

(** ** The scorer, every operation rounded

    [float64] arithmetic computes the exact result of each operation and
    rounds it.  The scorer is given here with the rounding [rnd] applied
    after every subtraction, multiplication, addition and division of
    numbers, in the order in which pandas and scikit-learn perform them;
    the literals [0.3], [0.2], ... are the rounded decimals.  With the
    identity for [rnd] these are the definitions above. *)

Module IEEE.
Section Arithmetic.

Variable rnd : Q → Q.

(** [c - s] *)
Definition rsub (c : Q) (s : Series) : result Series :=
  match s with
  | Float64 xs => Ok (Float64 (map (λ x, rnd (c - x)) xs))
  | Object [] => Ok (Object [])
  | Object (_ :: _) => Raise TypeError
  end.

(** [s.max() - s] *)
Definition max_minus (s : Series) : result Series :=
  match s with
  | Float64 xs =>
      match Series_max xs with
      | Some m => rsub m s
      | None => Ok (Float64 [])
      end
  | Object [] => Ok (Object [])
  | Object (_ :: _) => Raise TypeError
  end.

(** [s * w] *)
Definition smul (s : Series) (w : Q) : result Series :=
  match s with
  | Float64 xs => Ok (Float64 (map (λ x, rnd (x * w)) xs))
  | Object [] => Ok (Object [])
  | Object (_ :: _) => Raise TypeError
  end.

(** [s1 + s2] *)
Definition sadd (s1 s2 : Series) : result Series :=
  match s1, s2 with
  | Float64 xs, Float64 ys => Ok (Float64 (zip_with (λ x y, rnd (x + y)) xs ys))
  | Object xs, Object ys => Ok (Object (zip_with String.append xs ys))
  | Float64 xs, Object ys | Object ys, Float64 xs =>
      match xs, ys with
      | _ :: _, _ :: _ => Raise TypeError
      | _, _ => Ok (Object [])
      end
  end.

(** [MinMaxScaler.fit]: [data_range = data_max - data_min],
    [scale_ = (1 - 0) / _handle_zeros_in_scale(data_range)] (the feature
    range [(0, 1)] is a pair of integers), [min_ = 0 - data_min * scale_]. *)
Definition fit (x : Q) (xs : list Q) : MinMaxScaler.fitted :=
  let data_min := MinMaxScaler.data_min x xs in
  let data_range := rnd (MinMaxScaler.data_max x xs - data_min) in
  let scale := rnd ((1 - 0) / MinMaxScaler.handle_zeros_in_scale data_range) in
  {| MinMaxScaler.scale_ := scale;
     MinMaxScaler.min_ := rnd (0 - rnd (data_min * scale)) |}.

(** [MinMaxScaler.transform]: [X *= scale_], then [X += min_]. *)
Definition transform (p : MinMaxScaler.fitted) (xs : list Q) : list Q :=
  map (λ v, rnd (rnd (v * MinMaxScaler.scale_ p) + MinMaxScaler.min_ p)) xs.

(** [scaler.fit_transform(df[[col]])], with the same input validation. *)
Definition fit_transform (s : Series) : result Series :=
  match s with
  | Float64 (x :: xs) => Ok (Float64 (transform (fit x xs) (x :: xs)))
  | Float64 [] => Raise ValueError
  | Object _ => Raise ValueError
  end.

(** The [weights] dictionary: its literals are [float64] numbers. *)
Definition weights : gmap string Q :=
  {[ "Solar_Irradiance_norm" := rnd 0.3;
     "Grid_Access_inverse_norm" := rnd 0.2;
     "Infrastructure_Index_norm" := rnd 0.15;
     "Electricity_Cost_norm" := rnd 0.15;
     "Rural_Pop_Density_norm" := rnd 0.1;
     "Terrain_Ruggedness_inverse_norm" := rnd 0.1 ]}.

Definition normalize (df_processed : loc) (dst src : string) : M unit :=
  col ← getitem df_processed src;
  v ← lift (fit_transform col);
  setitem df_processed dst v.

Definition weighted (df_processed : loc) (key : string) : M Series :=
  col ← getitem df_processed key;
  w ← lift (dict_getitem weights key);
  lift (smul col w).

Definition create_solar_site_suitability_score (df : loc) : M loc :=
  df_processed ← copy df;
  (* Invert features where lower is better *)
  grid ← getitem df_processed "Grid_Access_Percent";
  v ← lift (rsub 100 grid);
  setitem df_processed "Grid_Access_inverse" v;;
  terrain ← getitem df_processed "Terrain_Ruggedness_Score";
  v ← lift (max_minus terrain);
  setitem df_processed "Terrain_Ruggedness_inverse" v;;
  (* Normalize features *)
  normalize df_processed "Solar_Irradiance_norm" "Solar_Irradiance_kWh_m2_day";;
  normalize df_processed "Infrastructure_Index_norm" "Infrastructure_Index";;
  normalize df_processed "Electricity_Cost_norm" "Electricity_Cost_USD_per_kWh";;
  normalize df_processed "Grid_Access_inverse_norm" "Grid_Access_inverse";;
  normalize df_processed "Rural_Pop_Density_norm" "Rural_Pop_Density_per_km2";;
  normalize df_processed "Terrain_Ruggedness_inverse_norm" "Terrain_Ruggedness_inverse";;
  (* Weighted sum *)
  t1 ← weighted df_processed "Solar_Irradiance_norm";
  t2 ← weighted df_processed "Grid_Access_inverse_norm";
  s ← lift (sadd t1 t2);
  t3 ← weighted df_processed "Infrastructure_Index_norm";
  s ← lift (sadd s t3);
  t4 ← weighted df_processed "Electricity_Cost_norm";
  s ← lift (sadd s t4);
  t5 ← weighted df_processed "Rural_Pop_Density_norm";
  s ← lift (sadd s t5);
  t6 ← weighted df_processed "Terrain_Ruggedness_inverse_norm";
  s ← lift (sadd s t6);
  setitem df_processed "Solar_Site_Suitability_Score" s;;
  mret df_processed.

(** *** What a successful run computes *)

Definition normalized (xs : list Q) : list Q :=
  match xs with
  | [] => []
  | x :: xs' => transform (fit x xs') xs
  end.

Definition Grid_Access_inverse (m : Metrics) : list Q :=
  map (λ x, rnd (100 - x)) (Grid_Access_Percent m).

Definition Terrain_Ruggedness_inverse (m : Metrics) : list Q :=
  match Series_max (Terrain_Ruggedness_Score m) with
  | Some top => map (λ x, rnd (top - x)) (Terrain_Ruggedness_Score m)
  | None => []
  end.

Definition normalized_metrics (m : Metrics) : Normalized :=
  {| Solar_Irradiance_norm := normalized (Solar_Irradiance_kWh_m2_day m);
     Grid_Access_inverse_norm := normalized (Grid_Access_inverse m);
     Infrastructure_Index_norm := normalized (Infrastructure_Index m);
     Electricity_Cost_norm := normalized (Electricity_Cost_USD_per_kWh m);
     Rural_Pop_Density_norm := normalized (Rural_Pop_Density_per_km2 m);
     Terrain_Ruggedness_inverse_norm := normalized (Terrain_Ruggedness_inverse m) |}.

(** The weighted sum of one row, rounded as the source computes it: each
    product, then each sum from left to right. *)
Definition weighted_sum (r : NormRow) : Q :=
  rnd (rnd (rnd (rnd (rnd (rnd (solar_norm r * rnd 0.3)
                           + rnd (grid_inverse_norm r * rnd 0.2))
                      + rnd (infra_norm r * rnd 0.15))
                 + rnd (cost_norm r * rnd 0.15))
            + rnd (pop_norm r * rnd 0.1))
       + rnd (terrain_inverse_norm r * rnd 0.1)).

Definition Solar_Site_Suitability_Score (z : Normalized) : list Q :=
  zip_with (λ x y, rnd (x + y))
    (zip_with (λ x y, rnd (x + y))
      (zip_with (λ x y, rnd (x + y))
        (zip_with (λ x y, rnd (x + y))
          (zip_with (λ x y, rnd (x + y))
            (map (λ x, rnd (x * rnd 0.3)) (Solar_Irradiance_norm z))
            (map (λ x, rnd (x * rnd 0.2)) (Grid_Access_inverse_norm z)))
          (map (λ x, rnd (x * rnd 0.15)) (Infrastructure_Index_norm z)))
        (map (λ x, rnd (x * rnd 0.15)) (Electricity_Cost_norm z)))
      (map (λ x, rnd (x * rnd 0.1)) (Rural_Pop_Density_norm z)))
    (map (λ x, rnd (x * rnd 0.1)) (Terrain_Ruggedness_inverse_norm z)).

(** The frame returned for the batch [f] with metrics [m]. *)
Definition scored (f : DataFrame) (m : Metrics) : DataFrame :=
  let z := normalized_metrics m in
  <["Solar_Site_Suitability_Score" := Float64 (Solar_Site_Suitability_Score z)]>
  (<["Terrain_Ruggedness_inverse_norm" := Float64 (Terrain_Ruggedness_inverse_norm z)]>
  (<["Rural_Pop_Density_norm" := Float64 (Rural_Pop_Density_norm z)]>
  (<["Grid_Access_inverse_norm" := Float64 (Grid_Access_inverse_norm z)]>
  (<["Electricity_Cost_norm" := Float64 (Electricity_Cost_norm z)]>
  (<["Infrastructure_Index_norm" := Float64 (Infrastructure_Index_norm z)]>
  (<["Solar_Irradiance_norm" := Float64 (Solar_Irradiance_norm z)]>
  (<["Terrain_Ruggedness_inverse" := Float64 (Terrain_Ruggedness_inverse m)]>
  (<["Grid_Access_inverse" := Float64 (Grid_Access_inverse m)]> f)))))))).

(** The scorer, called on [df] in store [h], returns the frame [g]. *)
Definition returns (h : store) (df : loc) (g : DataFrame) : Prop :=
  ∃ l h', create_solar_site_suitability_score df h = (Ok l, h') ∧ h' !! l = Some g.

End Arithmetic.
End IEEE.

(** * The score and the unit interval *)

(** All six normalized features of a row are at least 0. *)
Definition nonneg (r : NormRow) : Prop :=
  0 <= solar_norm r ∧ 0 <= grid_inverse_norm r ∧ 0 <= infra_norm r ∧
  0 <= cost_norm r ∧ 0 <= pop_norm r ∧ 0 <= terrain_inverse_norm r.

(** Two regions with values in their expected ranges; B has the more
    favourable value of every metric. *)
Definition overshoot : DataFrame :=
  {[ "Region" := Object ["A"; "B"];
     "Solar_Irradiance_kWh_m2_day" := Float64 (parsed [5; 7]);
     "Grid_Access_Percent" := Float64 (parsed [80; 40]);
     "Infrastructure_Index" := Float64 (parsed [1; 6]);
     "Electricity_Cost_USD_per_kWh" := Float64 (parsed [0.10; 0.20]);
     "Rural_Pop_Density_per_km2" := Float64 (parsed [1; 6]);
     "Terrain_Ruggedness_Score" := Float64 (parsed [30; 10]) ]}.

Definition overshoot_metrics : Metrics :=
  {| Solar_Irradiance_kWh_m2_day := parsed [5; 7];
     Grid_Access_Percent := parsed [80; 40];
     Infrastructure_Index := parsed [1; 6];
     Electricity_Cost_USD_per_kWh := parsed [0.10; 0.20];
     Rural_Pop_Density_per_km2 := parsed [1; 6];
     Terrain_Ruggedness_Score := parsed [30; 10] |}.

(** C1 as stated, of the scores the code computes in [float64]: on every
    valid batch every score lies in [0,1]. *)
Definition every_score_in_unit_interval : Prop :=
  ∀ (h : store) (df : loc) (f : DataFrame) (m : Metrics) (n : nat)
    (g : DataFrame) (i : nat) (s : Q),
    h !! df = Some f → valid_batch f m n →
    IEEE.returns Binary64.round h df g →
    cell g "Solar_Site_Suitability_Score" i = Some s → 0 <= s <= 1.

(** * The electricity cost enters the score as it is *)

(** Three regions; the second and the third differ in their electricity
    cost only, by one unit in the last place. *)
Definition absorbed : DataFrame :=
  {[ "Region" := Object ["A"; "B"; "C"];
     "Solar_Irradiance_kWh_m2_day" := Float64 (parsed [3.5; 6.4; 6.4]);
     "Grid_Access_Percent" := Float64 (parsed [26; 50; 50]);
     "Infrastructure_Index" := Float64 (parsed [65; 79; 79]);
     "Electricity_Cost_USD_per_kWh" :=
       Float64 (parsed [0.15; 0.37; 0.37000000000000005]);
     "Rural_Pop_Density_per_km2" := Float64 (parsed [6; 167; 167]);
     "Terrain_Ruggedness_Score" := Float64 (parsed [76; 0; 0]) ]}.

Definition absorbed_metrics : Metrics :=
  {| Solar_Irradiance_kWh_m2_day := parsed [3.5; 6.4; 6.4];
     Grid_Access_Percent := parsed [26; 50; 50];
     Infrastructure_Index := parsed [65; 79; 79];
     Electricity_Cost_USD_per_kWh := parsed [0.15; 0.37; 0.37000000000000005];
     Rural_Pop_Density_per_km2 := parsed [6; 167; 167];
     Terrain_Ruggedness_Score := parsed [76; 0; 0] |}.

(** C3 as stated, of the scores the code computes in [float64]: of two
    regions of a batch with the same other five normalized features, the
    one with the higher normalized electricity cost has the higher
    score. *)
Definition higher_cost_raises_score : Prop :=
  ∀ (h : store) (df : loc) (f : DataFrame) (m : Metrics) (n : nat)
    (g : DataFrame) (i j : nat) (r1 r2 : NormRow) (s1 s2 : Q),
    h !! df = Some f → valid_batch f m n →
    IEEE.returns Binary64.round h df g →
    norm_row g i = Some r1 → norm_row g j = Some r2 →
    solar_norm r1 == solar_norm r2 →
    grid_inverse_norm r1 == grid_inverse_norm r2 →
    infra_norm r1 == infra_norm r2 →
    pop_norm r1 == pop_norm r2 →
    terrain_inverse_norm r1 == terrain_inverse_norm r2 →
    cost_norm r1 < cost_norm r2 →
    cell g "Solar_Site_Suitability_Score" i = Some s1 →
    cell g "Solar_Site_Suitability_Score" j = Some s2 →
    s1 < s2.

(** * Features without spread *)

(** Three regions that all receive the same irradiance. *)
Definition same_irradiance : DataFrame :=
  <["Solar_Irradiance_kWh_m2_day" := Float64 [6; 6; 6]]> scenario.

Definition same_irradiance_metrics : Metrics :=
  {| Solar_Irradiance_kWh_m2_day := [6; 6; 6];
     Grid_Access_Percent := [80; 40; 60];
     Infrastructure_Index := [50; 70; 60];
     Electricity_Cost_USD_per_kWh := [0.10; 0.20; 0.15];
     Rural_Pop_Density_per_km2 := [20; 5; 10];
     Terrain_Ruggedness_Score := [30; 10; 20] |}.

(** * A batch of one region *)



(** * The scenario of three regions *)

(** Column [col] holds numbers that are within [tol] of [expected], row by row. *)
Definition close_to (tol : Q) (col : option Series) (expected : list Q) : Prop :=
  ∃ xs, col = Some (Float64 xs) ∧
        Forall2 (λ x y, Qabs (x - y) <= tol) xs expected.

(** The scores of the three regions are ordered B > C > A. *)
Definition ordered_B_C_A (g : DataFrame) : Prop :=
  ∃ sA sB sC,
    cell g "Solar_Site_Suitability_Score" 0 = Some sA ∧
    cell g "Solar_Site_Suitability_Score" 1 = Some sB ∧
    cell g "Solar_Site_Suitability_Score" 2 = Some sC ∧
    sC < sB ∧ sA < sC.

(** The scenario with the normalized values as the specification lists
    them, the population density of C being 0.333. *)
Definition scenario_as_listed : Prop :=
  ∃ g, returns [scenario] 0%nat g ∧
    close_to 1e-9 (g !! "Solar_Irradiance_norm") [0; 1; 0.5] ∧
    close_to 1e-9 (g !! "Grid_Access_inverse_norm") [0; 1; 0.5] ∧
    close_to 1e-9 (g !! "Terrain_Ruggedness_inverse_norm") [0; 1; 0.5] ∧
    close_to 1e-9 (g !! "Infrastructure_Index_norm") [0; 1; 0.5] ∧
    close_to 1e-9 (g !! "Electricity_Cost_norm") [0; 1; 0.5] ∧
    close_to 1e-9 (g !! "Rural_Pop_Density_norm") [1; 0; 0.333] ∧
    ordered_B_C_A g.

(** * Metric values outside their expected range *)

(** Some grid access is above 100 percent or some electricity cost is negative. *)
Definition out_of_expected_range (m : Metrics) : Prop :=
  Exists (λ x, 100 < x) (Grid_Access_Percent m) ∨
  Exists (λ x, x < 0) (Electricity_Cost_USD_per_kWh m).

(** Region A reports 150 percent grid access and a negative cost. *)
Definition beyond_range : DataFrame :=
  {[ "Region" := Object ["A"; "B"];
     "Solar_Irradiance_kWh_m2_day" := Float64 (parsed [3.0; 5.2]);
     "Grid_Access_Percent" := Float64 (parsed [150; 40]);
     "Infrastructure_Index" := Float64 (parsed [1; 6]);
     "Electricity_Cost_USD_per_kWh" := Float64 (parsed [-0.05; 0.09]);
     "Rural_Pop_Density_per_km2" := Float64 (parsed [1; 6]);
     "Terrain_Ruggedness_Score" := Float64 (parsed [30; 10]) ]}.

Definition beyond_range_metrics : Metrics :=
  {| Solar_Irradiance_kWh_m2_day := parsed [3.0; 5.2];
     Grid_Access_Percent := parsed [150; 40];
     Infrastructure_Index := parsed [1; 6];
     Electricity_Cost_USD_per_kWh := parsed [-0.05; 0.09];
     Rural_Pop_Density_per_km2 := parsed [1; 6];
     Terrain_Ruggedness_Score := parsed [30; 10] |}.

(** * A batch without regions *)

(** A batch of zero records: the six metric columns are there, and no
    column has a row. *)
Definition empty_batch (f : DataFrame) : Prop :=
  frame_rows f 0 ∧
  is_Some (f !! "Solar_Irradiance_kWh_m2_day") ∧
  is_Some (f !! "Grid_Access_Percent") ∧
  is_Some (f !! "Infrastructure_Index") ∧
  is_Some (f !! "Electricity_Cost_USD_per_kWh") ∧
  is_Some (f !! "Rural_Pop_Density_per_km2") ∧
  is_Some (f !! "Terrain_Ruggedness_Score").

(** The table a CSV file with a header line and no data line gives. *)
Definition no_regions : DataFrame :=
  {[ "Region" := Object [];
     "Solar_Irradiance_kWh_m2_day" := Object [];
     "Grid_Access_Percent" := Object [];
     "Infrastructure_Index" := Object [];
     "Electricity_Cost_USD_per_kWh" := Object [];
     "Rural_Pop_Density_per_km2" := Object [];
     "Terrain_Ruggedness_Score" := Object [] ]}.

(** C8 as stated: the exception raised for a batch of zero records is an
    [EmptyBatchError]. *)
Definition raises_EmptyBatchError : Prop :=
  ∃ e h', create_solar_site_suitability_score 0%nat [no_regions] = (Raise e, h') ∧
          class_name e = "EmptyBatchError".

(** * The caller's frame *)

(** The nine columns the scorer assigns. *)
Definition derived_columns : list string :=
  [ "Grid_Access_inverse"; "Terrain_Ruggedness_inverse";
    "Solar_Irradiance_norm"; "Infrastructure_Index_norm";
    "Electricity_Cost_norm"; "Grid_Access_inverse_norm";
    "Rural_Pop_Density_norm"; "Terrain_Ruggedness_inverse_norm";
    "Solar_Site_Suitability_Score" ].

(** A computation that reads and writes the newest object of the store
    only: whatever it answers, the objects of [h] stay as they are. *)
Definition local_to {A} (h : store) (m : M A) : Prop :=
  ∀ g, ∃ r g', m (h ++ [g]) = (r, h ++ [g']).

(** A table that already has a column of scores, nine for every region. *)
Definition already_scored : DataFrame :=
  <["Solar_Site_Suitability_Score" := Float64 [9; 9; 9]]> scenario.

(** Every column of [f] is in [g], with the same values in the same rows. *)
Definition every_column_kept (f g : DataFrame) : Prop :=
  ∀ k s, f !! k = Some s → g !! k = Some s.

(** C10 as stated: whatever the batch, the returned frame has every
    column of the input unchanged. *)
Definition scoring_only_adds_columns : Prop :=
  ∀ (h : store) (df : loc) (f : DataFrame) (m : Metrics) (n : nat) (g : DataFrame),
    h !! df = Some f → valid_batch f m n → returns h df g →
    every_column_kept f g.

(** * The ranked list of [main] *)

Definition Series_reverse (s : Series) : Series :=
  match s with
  | Float64 xs => Float64 (reverse xs)
  | Object xs => Object (reverse xs)
  end.

(** [a[indexer]] on an array: the entries at the given positions; a
    position outside the array is an [IndexError]. *)
Definition array_take {A} (a : list A) (indexer : list nat) : result (list A) :=
  match mapM (λ i, a !! i) indexer with
  | Some b => Ok b
  | None => Raise IndexError
  end.

Definition Series_take (s : Series) (indexer : list nat) : result Series :=
  match s with
  | Float64 xs => ys ← array_take xs indexer; mret (Float64 ys)
  | Object xs => ys ← array_take xs indexer; mret (Object ys)
  end.

(** One cell of a column, number or text. *)
Definition Series_cell (s : Series) (i : nat) : option (Q + string) :=
  match s with
  | Float64 xs => inl <$> xs !! i
  | Object xs => inr <$> xs !! i
  end.

(** The table shown under "Ranked List of Regions". *)
Record RankedTable := {
  Rank : list nat;
  Region : Series;
  Score : Series
}.

(** Positions [p < q] of [indexer] that hold rows of equal score hold them
    in the order of the batch. *)
Definition keeps_batch_order_of_ties (scores : list Q) (indexer : list nat) : Prop :=
  ∀ p q i j x y,
    (p < q)%nat → indexer !! p = Some i → indexer !! q = Some j →
    scores !! i = Some x → scores !! j = Some y → x == y → (i < j)%nat.

Section Ranking.

(** [numpy.argsort] with [kind="quicksort"], the sort [sort_values] uses
    when it is not given a [kind].  Which routine runs depends on the
    version of numpy and on the processor, so it is taken with what its
    documentation promises: the positions of the array, in an order in
    which the values ascend.  Quicksort is not documented as stable; the
    order of equal values is left open. *)
Variable argsort : Series → list nat.

Definition argsort_permutes : Prop :=
  ∀ s, argsort s ≡ₚ seq 0 (Series_len s).

Definition argsort_ascends : Prop :=
  ∀ xs p q i j x y,
    (p ≤ q)%nat → argsort (Float64 xs) !! p = Some i → argsort (Float64 xs) !! q = Some j →
    xs !! i = Some x → xs !! j = Some y → x <= y.

(** [pandas.core.sorting.nargsort(items, kind="quicksort", ascending=False)]
    on a column without missing values: sort the reversed column
    ascending, map the positions back, reverse the outcome. *)
Definition nargsort_descending (items : Series) : result (list nat) :=
  let idx := seq 0 (Series_len items) in
  let non_nans := Series_reverse items in
  let non_nan_idx := reverse idx in
  indexer ← array_take non_nan_idx (argsort non_nans);
  mret (reverse indexer).

(** [main], lines 106 to 117:
    [df_with_scores[["Region", "Solar_Site_Suitability_Score"]]
       .sort_values(by="Solar_Site_Suitability_Score", ascending=False)
       .reset_index(drop=True)], then [index += 1] and the index shown as
    the column [Rank]. *)
Definition ranked_df (df_with_scores : DataFrame) : result RankedTable :=
  match df_with_scores !! "Region",
        df_with_scores !! "Solar_Site_Suitability_Score" with
  | Some regions, Some scores =>
      indexer ← nargsort_descending scores;
      r ← Series_take regions indexer;
      s ← Series_take scores indexer;
      mret {| Rank := (λ i, i + 1)%nat <$> seq 0 (Series_len s);
              Region := r; Score := s |}
  | None, _ => Raise (KeyError "Region")
  | Some _, None => Raise (KeyError "Solar_Site_Suitability_Score")
  end.

End Ranking.

(** ** A sort that keeps the promise of [argsort] *)

Definition key (xs : list Q) (i : nat) : Q := default 0 (xs !! i).

(** Insertion of position [i] into a list of positions ordered by value;
    [before x y] decides whether a value [x] goes in front of a value [y]. *)
Fixpoint insert_position (before : Q → Q → bool) (xs : list Q) (i : nat)
    (sorted : list nat) : list nat :=
  match sorted with
  | [] => [i]
  | j :: rest =>
      if before (key xs i) (key xs j) then i :: j :: rest
      else j :: insert_position before xs i rest
  end.

(** (A column of text is left in its order: the ranking sorts numbers.) *)
Definition insertion_argsort (before : Q → Q → bool) (s : Series) : list nat :=
  match s with
  | Float64 xs => foldr (insert_position before xs) [] (seq 0 (length xs))
  | Object xs => seq 0 (length xs)
  end.

(** Positions are inserted from the last to the first.  Putting a value in
    front of its equals keeps equal values in the order of the array: a
    stable sort. *)
Definition stable_argsort : Series → list nat :=
  insertion_argsort Qle_bool.

(** ** [numpy]'s quicksort

    [numpy.argsort(kind="quicksort")] on a [float64] array without
    [NaN]: the scalar routine [aquicksort_<npy::double_tag>] of
    [numpy/_core/src/npysort/quicksort.cpp], which sorts an array of
    positions [tosort] by the values [v] they point to.  It is an
    introsort: quicksort with a median of three as pivot, insertion sort
    for partitions of at most 17 positions, and heapsort when the
    partitions nest deeper than twice the binary logarithm of the length.
    (On processors for which numpy has a vectorised argsort, that one runs
    instead; it is not modelled.)  Positions are natural numbers; a loop
    is a recursion on a bound of its number of rounds, and the answer is
    [None] when the bound is reached. *)

Module numpy.

Definition SMALL_QUICKSORT : nat := 16.

(** [npy_get_msb] *)
Definition npy_get_msb (num : nat) : Z := Z.log2 (Z.of_nat num).

Section aquicksort.

(** The array that is sorted. *)
Variable v : list Q.

(** [Tag::less] on numbers *)
Definition less (a b : Q) : bool := negb (Qle_bool b a).

(** [*p] and [v[*p]] *)
Definition at_ (tosort : list nat) (p : nat) : nat := default 0%nat (tosort !! p).
Definition value (tosort : list nat) (p : nat) : Q := default 0 (v !! at_ tosort p).

(** [INTP_SWAP] of the cells [a] and [b] point to *)
Definition INTP_SWAP (tosort : list nat) (a b : nat) : list nat :=
  <[b := at_ tosort a]> (<[a := at_ tosort b]> tosort).

(** [do { ++pi; } while (less(v[*pi], vp));] *)
Fixpoint scan_right (rounds : nat) (tosort : list nat) (vp : Q) (pi : nat)
    : option nat :=
  match rounds with
  | O => None
  | S rounds =>
      let pi := S pi in
      if less (value tosort pi) vp then scan_right rounds tosort vp pi
      else Some pi
  end.

(** [do { --pj; } while (less(vp, v[*pj]));] *)
Fixpoint scan_left (rounds : nat) (tosort : list nat) (vp : Q) (pj : nat)
    : option nat :=
  match rounds with
  | O => None
  | S rounds =>
      let pj := pred pj in
      if less vp (value tosort pj) then scan_left rounds tosort vp pj
      else Some pj
  end.

(** The loop [for (;;)] of the partition: the answer is the array and [pi]. *)
Fixpoint exchange (rounds : nat) (tosort : list nat) (vp : Q) (pi pj : nat)
    : option (list nat * nat) :=
  match rounds with
  | O => None
  | S rounds =>
      pi ← scan_right (length tosort) tosort vp pi;
      pj ← scan_left (length tosort) tosort vp pj;
      if decide (pj ≤ pi)%nat then Some (tosort, pi)
      else exchange rounds (INTP_SWAP tosort pi pj) vp pi pj
  end.

(** One quicksort partition of the positions [pl .. pr]. *)
Definition partition (tosort : list nat) (pl pr : nat) : option (list nat * nat) :=
  let pm := (pl + (pr - pl) / 2)%nat in
  let tosort :=
    if less (value tosort pm) (value tosort pl) then INTP_SWAP tosort pm pl
    else tosort in
  let tosort :=
    if less (value tosort pr) (value tosort pm) then INTP_SWAP tosort pr pm
    else tosort in
  let tosort :=
    if less (value tosort pm) (value tosort pl) then INTP_SWAP tosort pm pl
    else tosort in
  let vp := value tosort pm in
  let pi := pl in
  let pj := (pr - 1)%nat in
  let tosort := INTP_SWAP tosort pm pj in
  '(tosort, pi) ← exchange (length tosort) tosort vp pi pj;
  let pk := (pr - 1)%nat in
  Some (INTP_SWAP tosort pi pk, pi).

(** [while ((pr - pl) > SMALL_QUICKSORT)]: partition, push the larger part
    on the stack (with the depth that is left), go on with the smaller. *)
Fixpoint partitions (rounds : nat) (tosort : list nat) (pl pr : nat) (cdepth : Z)
    (stack : list (nat * nat * Z))
    : option (list nat * nat * nat * Z * list (nat * nat * Z)) :=
  match rounds with
  | O => None
  | S rounds =>
      if decide (SMALL_QUICKSORT < pr - pl)%nat then
        '(tosort, pi) ← partition tosort pl pr;
        let cdepth := (cdepth - 1)%Z in
        if decide (pi - pl < pr - pi)%nat
        then partitions rounds tosort pl (pi - 1)%nat cdepth
               ((S pi, pr, cdepth) :: stack)
        else partitions rounds tosort (S pi) pr cdepth
               ((pl, (pi - 1)%nat, cdepth) :: stack)
      else Some (tosort, pl, pr, cdepth, stack)
  end.

(** [while (pj > pl && less(vp, v[*pk])) { *pj-- = *pk--; }], where
    [pk] is [pj - 1] all along. *)
Fixpoint shift (rounds : nat) (tosort : list nat) (pl : nat) (vp : Q) (pj : nat)
    : option (list nat * nat) :=
  match rounds with
  | O => None
  | S rounds =>
      let pk := (pj - 1)%nat in
      if decide (pl < pj)%nat then
        if less vp (value tosort pk)
        then shift rounds (<[pj := at_ tosort pk]> tosort) pl vp pk
        else Some (tosort, pj)
      else Some (tosort, pj)
  end.

(** The insertion sort of the positions [pl .. pr], from [pi] on. *)
Fixpoint insertion_sort (rounds : nat) (tosort : list nat) (pl pr pi : nat)
    : option (list nat) :=
  match rounds with
  | O => None
  | S rounds =>
      if decide (pi ≤ pr)%nat then
        let vi := at_ tosort pi in
        let vp := default 0 (v !! vi) in
        '(tosort, pj) ← shift (S (length tosort)) tosort pl vp pi;
        insertion_sort rounds (<[pj := vi]> tosort) pl pr (S pi)
      else Some tosort
  end.

(** The loop [while (1)].  The heapsort that takes over when [cdepth] is
    negative is not modelled. *)
Fixpoint sort_loop (rounds : nat) (tosort : list nat) (pl pr : nat) (cdepth : Z)
    (stack : list (nat * nat * Z)) : option (list nat) :=
  match rounds with
  | O => None
  | S rounds =>
      if decide (cdepth < 0)%Z then None
      else
        '(tosort, pl, pr, cdepth, stack) ←
          partitions (S (length tosort)) tosort pl pr cdepth stack;
        tosort ← insertion_sort (S (length tosort)) tosort pl pr (S pl);
        match stack with
        | [] => Some tosort
        | (pl, pr, cdepth) :: stack => sort_loop rounds tosort pl pr cdepth stack
        end
  end.

Definition aquicksort (tosort : list nat) : option (list nat) :=
  let num := length tosort in
  sort_loop (S num) tosort 0 (num - 1) (npy_get_msb num * 2) [].

End aquicksort.

(** [a.argsort(kind="quicksort")]: the positions [0 .. n-1], sorted. *)
Definition argsort (a : list Q) : option (list nat) :=
  aquicksort a (seq 0 (length a)).

End numpy.

(** [argsort] of a column, for the ranking; a text column is not sorted
    by the ranking, and its order is kept. *)
Definition quicksort_argsort (s : Series) : list nat :=
  match s with
  | Float64 xs => default (seq 0 (length xs)) (numpy.argsort xs)
  | Object xs => seq 0 (length xs)
  end.

(** ** The ranked table *)

(** Eighteen regions with the same figures: they all get the same score. *)
Definition level : DataFrame :=
  {[ "Region" := Object ["R01"; "R02"; "R03"; "R04"; "R05"; "R06"; "R07"; "R08";
                         "R09"; "R10"; "R11"; "R12"; "R13"; "R14"; "R15"; "R16";
                         "R17"; "R18"];
     "Solar_Irradiance_kWh_m2_day" := Float64 (replicate 18 5);
     "Grid_Access_Percent" := Float64 (replicate 18 80);
     "Infrastructure_Index" := Float64 (replicate 18 50);
     "Electricity_Cost_USD_per_kWh" := Float64 (replicate 18 0.10);
     "Rural_Pop_Density_per_km2" := Float64 (replicate 18 20);
     "Terrain_Ruggedness_Score" := Float64 (replicate 18 30) ]}.

Definition level_metrics : Metrics :=
  {| Solar_Irradiance_kWh_m2_day := replicate 18 5;
     Grid_Access_Percent := replicate 18 80;
     Infrastructure_Index := replicate 18 50;
     Electricity_Cost_USD_per_kWh := replicate 18 0.10;
     Rural_Pop_Density_per_km2 := replicate 18 20;
     Terrain_Ruggedness_Score := replicate 18 30 |}.

(** C7 as stated, the part on ties: with the sort that [sort_values] uses,
    regions of equal score are ranked in the order of the batch. *)
Definition ranking_keeps_batch_order_of_ties : Prop :=
  ∀ (h : store) (df : loc) (f : DataFrame) (m : Metrics) (n : nat)
    (g : DataFrame) (scores : list Q) (indexer : list nat),
    h !! df = Some f → valid_batch f m n → returns h df g →
    g !! "Solar_Site_Suitability_Score" = Some (Float64 scores) →
    nargsort_descending quicksort_argsort (Float64 scores) = Ok indexer →
    keeps_batch_order_of_ties scores indexer.

(** * Further properties: vocabulary *)

(** The metric columns in the order in which the scorer first reads them. *)
Definition read_order : list string :=
  [ "Grid_Access_Percent"; "Terrain_Ruggedness_Score";
    "Solar_Irradiance_kWh_m2_day"; "Infrastructure_Index";
    "Electricity_Cost_USD_per_kWh"; "Rural_Pop_Density_per_km2" ].

(** A numeric column with at least one row. *)
Definition numeric_column (f : DataFrame) (k : string) : Prop :=
  ∃ x xs, f !! k = Some (Float64 (x :: xs)).

(** The scenario without its infrastructure column. *)
Definition no_infrastructure : DataFrame :=
  delete "Infrastructure_Index" scenario.

(** The scenario with the grid access typed in as text. *)
Definition grid_as_text : DataFrame :=
  <["Grid_Access_Percent" := Object ["80%"; "40%"; "60%"]]> scenario.

(** Row [i] is at most as good as row [j] on every metric, each taken in
    the direction in which the scorer counts it: more irradiance,
    infrastructure, electricity cost and population density count as
    better, more grid access and more ruggedness as worse. *)
Definition dominated (m : Metrics) (i j : nat) : Prop :=
  ∃ si sj gi gj ii ij ci cj pi pj ti tj,
    Solar_Irradiance_kWh_m2_day m !! i = Some si ∧
    Solar_Irradiance_kWh_m2_day m !! j = Some sj ∧ si <= sj ∧
    Grid_Access_Percent m !! i = Some gi ∧
    Grid_Access_Percent m !! j = Some gj ∧ gj <= gi ∧
    Infrastructure_Index m !! i = Some ii ∧
    Infrastructure_Index m !! j = Some ij ∧ ii <= ij ∧
    Electricity_Cost_USD_per_kWh m !! i = Some ci ∧
    Electricity_Cost_USD_per_kWh m !! j = Some cj ∧ ci <= cj ∧
    Rural_Pop_Density_per_km2 m !! i = Some pi ∧
    Rural_Pop_Density_per_km2 m !! j = Some pj ∧ pi <= pj ∧
    Terrain_Ruggedness_Score m !! i = Some ti ∧
    Terrain_Ruggedness_Score m !! j = Some tj ∧ tj <= ti.

(** The scenario with B as the most densely populated region: B is then at
    least as good as A on every metric. *)
Definition leader : DataFrame :=
  <["Rural_Pop_Density_per_km2" := Float64 [20; 25; 10]]> scenario.

Definition leader_metrics : Metrics :=
  {| Solar_Irradiance_kWh_m2_day := [5; 7; 6];
     Grid_Access_Percent := [80; 40; 60];
     Infrastructure_Index := [50; 70; 60];
     Electricity_Cost_USD_per_kWh := [0.10; 0.20; 0.15];
     Rural_Pop_Density_per_km2 := [20; 25; 10];
     Terrain_Ruggedness_Score := [30; 10; 20] |}.

(** * The rest of [main] *)

(** Two cells hold the same value. *)
Definition cell_eqb (a b : Q + string) : bool :=
  match a, b with
  | inl x, inl y => Qeq_bool x y
  | inr s, inr t => bool_decide (s = t)
  | _, _ => false
  end.

Definition Series_cells (s : Series) : list (Q + string) :=
  match s with
  | Float64 xs => inl <$> xs
  | Object xs => inr <$> xs
  end.

(** [Series.unique()]: the values in the order of their first appearance;
    [seen] holds the values met so far. *)
Fixpoint unique_from (seen xs : list (Q + string)) : list (Q + string) :=
  match xs with
  | [] => []
  | x :: rest =>
      if existsb (cell_eqb x) seen then unique_from seen rest
      else x :: unique_from (x :: seen) rest
  end.

Definition unique (xs : list (Q + string)) : list (Q + string) :=
  unique_from [] xs.

(** [s == v] for a column and a value ([None] is Python's [None], which
    equals no cell). *)
Definition Series_eq (s : Series) (v : option (Q + string)) : list bool :=
  match v with
  | Some c => (λ x, cell_eqb x c) <$> Series_cells s
  | None => (λ _, false) <$> Series_cells s
  end.

(** [a[mask]]: the entries where the mask is true.  The mask comes from a
    column of the same frame and has its length. *)
Fixpoint boolean_mask {A} (mask : list bool) (a : list A) : list A :=
  match mask, a with
  | b :: mask', x :: a' =>
      if b then x :: boolean_mask mask' a' else boolean_mask mask' a'
  | _, _ => []
  end.

Definition Series_mask (mask : list bool) (s : Series) : Series :=
  match s with
  | Float64 xs => Float64 (boolean_mask mask xs)
  | Object xs => Object (boolean_mask mask xs)
  end.

(** The number of rows a mask selects. *)
Definition count_true (mask : list bool) : nat := length (boolean_mask mask mask).

Definition display_cols : list string :=
  [ "Solar_Irradiance_kWh_m2_day"; "Rural_Pop_Density_per_km2";
    "Grid_Access_Percent"; "Infrastructure_Index";
    "Electricity_Cost_USD_per_kWh"; "Terrain_Ruggedness_Score";
    "Solar_Site_Suitability_Score" ].

(** [frame[cols]]: the listed columns, in that order; a name that is not a
    column is a [KeyError]. *)
Fixpoint frame_getitems (g : DataFrame) (cols : list string)
    : result (list (string * Series)) :=
  match cols with
  | [] => Ok []
  | k :: cols' =>
      match g !! k with
      | Some s => rest ← frame_getitems g cols'; mret ((k, s) :: rest)
      | None => Raise (KeyError k)
      end
  end.

(** Lines 97 to 100: [region_data[display_cols].T] has one row per metric
    and one column per row of [region_data]; naming its columns
    [["Value"]] is a [ValueError] unless there is exactly one. *)
Definition metrics_table (region_data : DataFrame) (rows : nat)
    : result (list (string * list (Q + string))) :=
  cols ← frame_getitems region_data display_cols;
  if decide (rows = 1%nat)
  then Ok ((λ ks, (ks.1, Series_cells ks.2)) <$> (cols : list (string * Series)))
  else Raise ValueError.

(** [s.iloc[i]] *)
Definition iloc (s : Series) (i : nat) : result (Q + string) :=
  match Series_cells s !! i with
  | Some c => Ok c
  | None => Raise IndexError
  end.

(** [s.head(n)] *)
Definition Series_head (n : nat) (s : Series) : Series :=
  match s with
  | Float64 xs => Float64 (take n xs)
  | Object xs => Object (take n xs)
  end.

Definition high_suitability_threshold : Q := 0.60.

(** [(s >= threshold).sum()]; text does not compare with a number. *)
Definition count_at_least (threshold : Q) (s : Series) : result nat :=
  match s with
  | Float64 xs => Ok (length (List.filter (Qle_bool threshold) xs))
  | Object [] => Ok 0%nat
  | Object (_ :: _) => Raise TypeError
  end.

(** The frame behind a reference, for the operations that build new
    frames from it. *)
Definition frame_of (df : loc) : M DataFrame :=
  λ h, match h !! df with
       | Some f => (Ok f, h)
       | None => (Dangling, h)
       end.

(** What [main] puts on the page, before it is rendered. *)
Record Dashboard := {
  regions : list (Q + string);
  selected_region : option (Q + string);
  metrics : option (list (string * list (Q + string)));
  ranked : RankedTable;
  top_10 : Series * Series;
  best_region : Q + string;
  best_score : Q + string;
  num_high_suitability : nat
}.

Section Main.

Variable argsort : Series → list nat.

(** [st.selectbox("Select Region", regions)]: the choice of the user among
    the options, [None] when there is no option. *)
Variable selectbox : list (Q + string) → option (Q + string).

(** [main], from the scored frame on.  [metrics] is [None] when "No data
    available" is written instead of the table.  Rendering (tables, chart,
    the formatted summary) is left out. *)
Definition main (df : loc) : M Dashboard :=
  df_with_scores ← create_solar_site_suitability_score df;
  (* Sidebar: region selection *)
  region ← getitem df_with_scores "Region";
  let regions := unique (Series_cells region) in
  let selected_region := selectbox regions in
  (* Filter data for selected region *)
  region ← getitem df_with_scores "Region";
  frame ← frame_of df_with_scores;
  let mask := Series_eq region selected_region in
  let region_data := Series_mask mask <$> frame in
  metrics ← (if decide (count_true mask = 0%nat) then mret None
             else t ← lift (metrics_table region_data (count_true mask));
                  mret (Some t));
  (* Ranked list of all regions *)
  ranked_df ← lift (ranked_df argsort frame);
  let top_10 := (Series_head 10 (Region ranked_df), Series_head 10 (Score ranked_df)) in
  best_region ← lift (iloc (Region ranked_df) 0);
  best_score ← lift (iloc (Score ranked_df) 0);
  num_high_suitability ←
    lift (count_at_least high_suitability_threshold (Score ranked_df));
  mret {| regions := regions; selected_region := selected_region;
          metrics := metrics; ranked := ranked_df; top_10 := top_10;
          best_region := best_region; best_score := best_score;
          num_high_suitability := num_high_suitability |}.

End Main.

(** The user takes the first option. *)
Definition first_option (options : list (Q + string)) : option (Q + string) :=
  head options.

(** The scenario with the name A given to two regions. *)
Definition two_named_A : DataFrame :=
  <["Region" := Object ["A"; "A"; "C"]]> scenario.

(** * Regions at the ends of the scale *)

(** Row [i] holds a highest, or a lowest, value of a column. *)
Definition highest (xs : list Q) (i : nat) : Prop :=
  ∃ v, xs !! i = Some v ∧ Forall (λ u, u <= v) xs.

Definition lowest (xs : list Q) (i : nat) : Prop :=
  ∃ v, xs !! i = Some v ∧ Forall (λ u, v <= u) xs.

(** Region [i] has the least favourable value of every metric. *)
Definition worst_on_every_metric (m : Metrics) (i : nat) : Prop :=
  lowest (Solar_Irradiance_kWh_m2_day m) i ∧
  highest (Grid_Access_Percent m) i ∧
  lowest (Infrastructure_Index m) i ∧
  lowest (Electricity_Cost_USD_per_kWh m) i ∧
  lowest (Rural_Pop_Density_per_km2 m) i ∧
  highest (Terrain_Ruggedness_Score m) i.

(** The scenario with the population densities of A and B exchanged: A has
    the least favourable value of every metric. *)
Definition graded : DataFrame :=
  <["Rural_Pop_Density_per_km2" := Float64 [5; 20; 10]]> scenario.

Definition graded_metrics : Metrics :=
  {| Solar_Irradiance_kWh_m2_day := [5; 7; 6];
     Grid_Access_Percent := [80; 40; 60];
     Infrastructure_Index := [50; 70; 60];
     Electricity_Cost_USD_per_kWh := [0.10; 0.20; 0.15];
     Rural_Pop_Density_per_km2 := [5; 20; 10];
     Terrain_Ruggedness_Score := [30; 10; 20] |}.

(** * Properties *)

(** ** Running the store monad *)

Lemma bind_run {A B} (m : M A) (k : A → M B) (h : store) :
  (m ≫= k) h =
  match m h with
  | (Ok a, h') => k a h'
  | (Raise e, h') => (Raise e, h')
  | (Dangling, h') => (Dangling, h')
  end.
Proof. reflexivity. Qed.

Lemma store_lookup_last (h : store) (g : DataFrame) :
  (h ++ [g]) !! length h = Some g.
Proof. by rewrite list_lookup_middle. Qed.

Lemma store_insert_last (h : store) (g g' : DataFrame) :
  <[length h := g']> (h ++ [g]) = h ++ [g'].
Proof.
  rewrite insert_app_r_alt by lia.
  by rewrite Nat.sub_diag.
Qed.

Lemma copy_run (h : store) (df : loc) (f : DataFrame) :
  h !! df = Some f → copy df h = (Ok (length h), h ++ [f]).
Proof. intros Hf. unfold copy. by rewrite Hf. Qed.

Lemma getitem_last (h : store) (g : DataFrame) (k : string) (s : Series) :
  g !! k = Some s → getitem (length h) k (h ++ [g]) = (Ok s, h ++ [g]).
Proof. intros Hk. unfold getitem. by rewrite store_lookup_last, Hk. Qed.

Lemma getitem_last_missing (h : store) (g : DataFrame) (k : string) :
  g !! k = None →
  getitem (length h) k (h ++ [g]) = (Raise (KeyError k), h ++ [g]).
Proof. intros Hk. unfold getitem. by rewrite store_lookup_last, Hk. Qed.

Lemma setitem_last (h : store) (g : DataFrame) (k : string) (v : Series) :
  setitem (length h) k v (h ++ [g]) = (Ok tt, h ++ [<[k := v]> g]).
Proof. unfold setitem. by rewrite store_lookup_last, store_insert_last. Qed.

Lemma normalize_last (h : store) (g : DataFrame) (dst src : string) (xs : list Q) :
  g !! src = Some (Float64 xs) → xs ≠ [] →
  normalize (length h) dst src (h ++ [g]) =
  (Ok tt, h ++ [<[dst := Float64 (normalized xs)]> g]).
Proof.
  intros Hsrc Hne. unfold normalize.
  rewrite bind_run, (getitem_last _ _ _ _ Hsrc).
  destruct xs as [|x xs]; [done|].
  rewrite bind_run. unfold lift at 1. cbn [MinMaxScaler.fit_transform].
  by rewrite setitem_last.
Qed.

Lemma weighted_last (h : store) (g : DataFrame) (k : string) (xs : list Q) (w : Q) :
  g !! k = Some (Float64 xs) → weights !! k = Some w →
  weighted (length h) k (h ++ [g]) =
  (Ok (Float64 (map (λ x, x * w) xs)), h ++ [g]).
Proof.
  intros Hk Hw. unfold weighted.
  rewrite bind_run, (getitem_last _ _ _ _ Hk).
  rewrite bind_run. unfold lift at 1, dict_getitem. rewrite Hw.
  reflexivity.
Qed.

(** ** What a successful run computes *)

Lemma nonempty_of_length {A} (xs : list A) (n : nat) :
  length xs = n → (0 < n)%nat → xs ≠ [].
Proof. intros <- Hn ->. simpl in Hn. lia. Qed.

Lemma Terrain_Ruggedness_inverse_length (m : Metrics) :
  length (Terrain_Ruggedness_inverse m) = length (Terrain_Ruggedness_Score m).
Proof.
  unfold Terrain_Ruggedness_inverse.
  destruct (Terrain_Ruggedness_Score m); simpl; [done|].
  by rewrite length_map.
Qed.

Ltac step_weighted :=
  rewrite bind_run;
  erewrite weighted_last; [ | by simplify_map_eq | by vm_compute ].

Ltac step_sadd :=
  rewrite bind_run; unfold lift at 1; cbn [sadd].

(** On a valid batch the scorer returns a new frame, [scored f m]; the
    store keeps everything it had. *)
Lemma create_run (h : store) (df : loc) (f : DataFrame) (m : Metrics) (n : nat) :
  h !! df = Some f → valid_batch f m n →
  create_solar_site_suitability_score df h = (Ok (length h), h ++ [scored f m]).
Proof.
  intros Hdf (Hm & Hrows & Hn).
  destruct Hm as (Hsolar & Hgrid & Hinfra & Hcost & Hpop & Hterr).
  destruct Hrows as (Ls & Lg & Li & Lc & Lp & Lt).
  unfold create_solar_site_suitability_score.
  rewrite bind_run, (copy_run _ _ _ Hdf).
  rewrite bind_run, (getitem_last _ _ _ _ Hgrid).
  rewrite bind_run. unfold lift at 1. cbn [rsub].
  rewrite bind_run, setitem_last.
  rewrite bind_run.
  erewrite getitem_last by (by simplify_map_eq).
  rewrite bind_run. unfold lift at 1.
  assert (max_minus (Float64 (Terrain_Ruggedness_Score m))
          = Ok (Float64 (Terrain_Ruggedness_inverse m))) as ->.
  { unfold max_minus, Terrain_Ruggedness_inverse.
    by destruct (Series_max _). }
  rewrite bind_run, setitem_last.
  do 6 (rewrite bind_run;
        erewrite normalize_last;
        [ | by simplify_map_eq
          | first [ by eapply nonempty_of_length
                  | eapply nonempty_of_length; [|exact Hn];
                    first [ by rewrite Terrain_Ruggedness_inverse_length
                          | by unfold Grid_Access_inverse; rewrite length_map ] ] ]).
  step_weighted. step_weighted. step_sadd.
  do 4 (step_weighted; step_sadd).
  rewrite bind_run, setitem_last.
  reflexivity.
Qed.

(** ** Facts about min-max normalization *)

Section Normalization.
Import MinMaxScaler.

Lemma data_min_le (x : Q) (xs : list Q) :
  Forall (λ v, data_min x xs <= v) (x :: xs).
Proof.
  unfold data_min. induction xs as [|y ys IH]; simpl.
  - repeat constructor. apply Qle_refl.
  - inversion IH as [|? ? Hx Hys]; subst.
    constructor; [|constructor].
    + eapply Qle_trans; [apply Q.le_min_r | exact Hx].
    + apply Q.le_min_l.
    + eapply Forall_impl; [exact Hys|].
      intros v Hv. simpl in Hv.
      eapply Qle_trans; [apply Q.le_min_r | exact Hv].
Qed.

Lemma data_max_ge (x : Q) (xs : list Q) :
  Forall (λ v, v <= data_max x xs) (x :: xs).
Proof.
  unfold data_max. induction xs as [|y ys IH]; simpl.
  - repeat constructor. apply Qle_refl.
  - inversion IH as [|? ? Hx Hys]; subst.
    constructor; [|constructor].
    + eapply Qle_trans; [exact Hx | apply Q.le_max_r].
    + apply Q.le_max_l.
    + eapply Forall_impl; [exact Hys|].
      intros v Hv. simpl in Hv.
      eapply Qle_trans; [exact Hv | apply Q.le_max_r].
Qed.


Lemma data_min_le_max (x : Q) (xs : list Q) : data_min x xs <= data_max x xs.
Proof.
  pose proof (data_min_le x xs) as Hmin.
  pose proof (data_max_ge x xs) as Hmax.
  inversion Hmin; inversion Hmax; subst.
  eapply Qle_trans; eauto.
Qed.

Lemma handle_zeros_in_scale_pos (r : Q) : 0 < handle_zeros_in_scale r.
Proof.
  unfold handle_zeros_in_scale.
  destruct (Qlt_le_dec r (10 * eps)) as [|Hr]; [reflexivity|].
  eapply Qlt_le_trans; [|exact Hr]. reflexivity.
Qed.

(** [X * scale_ + min_] is the usual quotient, over the range when that
    is not negligible and over 1 when it is. *)
Lemma transform_value (x : Q) (xs : list Q) (v : Q) :
  v * scale_ (fit x xs) + min_ (fit x xs) ==
  (v - data_min x xs) / handle_zeros_in_scale (data_max x xs - data_min x xs).
Proof.
  unfold fit; simpl.
  pose proof (handle_zeros_in_scale_pos (data_max x xs - data_min x xs)) as Hpos.
  field. intros Hz. rewrite Hz in Hpos. by apply Qlt_irrefl in Hpos.
Qed.

Lemma transform_value_range (x : Q) (xs : list Q) (v : Q) :
  data_min x xs <= v → v <= data_max x xs →
  0 <= v * scale_ (fit x xs) + min_ (fit x xs) <= 1.
Proof.
  intros Hlo Hhi. rewrite transform_value.
  set (lo := data_min x xs) in *. set (hi := data_max x xs) in *.
  pose proof (handle_zeros_in_scale_pos (hi - lo)) as Hpos.
  split.
  - apply Qle_shift_div_l; [exact Hpos|]. lra.
  - apply Qle_shift_div_r; [exact Hpos|].
    unfold handle_zeros_in_scale in *.
    destruct (Qlt_le_dec (hi - lo) (10 * eps)) as [Hsmall|Hbig].
    + assert (10 * eps <= 1) by (by vm_compute). lra.
    + lra.
Qed.

(** Every normalized value lies in [0,1]. *)
Lemma normalized_range (xs : list Q) :
  Forall (λ y, 0 <= y <= 1) (normalized xs).
Proof.
  destruct xs as [|x xs]; [constructor|].
  unfold normalized, transform. apply Forall_fmap.
  pose proof (data_min_le x xs) as Hmin.
  pose proof (data_max_ge x xs) as Hmax.
  rewrite Forall_forall in Hmin, Hmax. apply Forall_forall.
  intros v Hv. cbv beta. apply transform_value_range; auto.
Qed.

Lemma normalized_length (xs : list Q) : length (normalized xs) = length xs.
Proof.
  destruct xs as [|x xs]; [done|].
  unfold normalized, transform. by rewrite length_map.
Qed.


End Normalization.

(** ** Reading the returned frame row by row *)

Lemma returns_scored (h : store) (df : loc) (f : DataFrame) (m : Metrics) (n : nat) :
  h !! df = Some f → valid_batch f m n → returns h df (scored f m).
Proof.
  intros Hdf Hv. exists (length h), (h ++ [scored f m]).
  split; [by eapply create_run | apply store_lookup_last].
Qed.

Lemma returns_inj (h : store) (df : loc) (g1 g2 : DataFrame) :
  returns h df g1 → returns h df g2 → g1 = g2.
Proof.
  intros (l1 & h1 & E1 & L1) (l2 & h2 & E2 & L2).
  rewrite E1 in E2. injection E2 as -> ->. congruence.
Qed.

Lemma normalized_metrics_rows (m : Metrics) (n : nat) :
  metrics_rows m n →
  let z := normalized_metrics m in
  length (Solar_Irradiance_norm z) = n ∧
  length (Grid_Access_inverse_norm z) = n ∧
  length (Infrastructure_Index_norm z) = n ∧
  length (Electricity_Cost_norm z) = n ∧
  length (Rural_Pop_Density_norm z) = n ∧
  length (Terrain_Ruggedness_inverse_norm z) = n.
Proof.
  intros (Ls & Lg & Li & Lc & Lp & Lt). simpl.
  rewrite !normalized_length, Terrain_Ruggedness_inverse_length.
  unfold Grid_Access_inverse. rewrite length_map. done.
Qed.

Lemma score_length (z : Normalized) (n : nat) :
  length (Solar_Irradiance_norm z) = n →
  length (Grid_Access_inverse_norm z) = n →
  length (Infrastructure_Index_norm z) = n →
  length (Electricity_Cost_norm z) = n →
  length (Rural_Pop_Density_norm z) = n →
  length (Terrain_Ruggedness_inverse_norm z) = n →
  length (Solar_Site_Suitability_Score z) = n.
Proof.
  intros. unfold Solar_Site_Suitability_Score.
  rewrite !length_zip_with, !length_map. lia.
Qed.

Lemma score_lookup (z : Normalized) (i : nat) (a b c d e t : Q) :
  Solar_Irradiance_norm z !! i = Some a →
  Grid_Access_inverse_norm z !! i = Some b →
  Infrastructure_Index_norm z !! i = Some c →
  Electricity_Cost_norm z !! i = Some d →
  Rural_Pop_Density_norm z !! i = Some e →
  Terrain_Ruggedness_inverse_norm z !! i = Some t →
  Solar_Site_Suitability_Score z !! i =
  Some (a * 0.3 + b * 0.2 + c * 0.15 + d * 0.15 + e * 0.1 + t * 0.1).
Proof.
  intros Ha Hb Hc Hd He Ht. unfold Solar_Site_Suitability_Score.
  rewrite !lookup_zip_with, !list_lookup_fmap, Ha, Hb, Hc, Hd, He, Ht.
  reflexivity.
Qed.

(** Every row of the returned frame: its six normalized features are in
    [0,1] and its score is their weighted sum. *)
Lemma scored_row (f : DataFrame) (m : Metrics) (n i : nat) :
  metrics_rows m n → (i < n)%nat →
  ∃ r, norm_row (scored f m) i = Some r ∧ in_unit r ∧
       cell (scored f m) "Solar_Site_Suitability_Score" i = Some (weighted_sum r).
Proof.
  intros Hrows Hi.
  destruct (normalized_metrics_rows m n Hrows) as (Ls & Lg & Li & Lc & Lp & Lt).
  set (z := normalized_metrics m) in *.
  destruct (lookup_lt_is_Some_2 (Solar_Irradiance_norm z) i) as [a Ha]; [lia|].
  destruct (lookup_lt_is_Some_2 (Grid_Access_inverse_norm z) i) as [b Hb]; [lia|].
  destruct (lookup_lt_is_Some_2 (Infrastructure_Index_norm z) i) as [c Hc]; [lia|].
  destruct (lookup_lt_is_Some_2 (Electricity_Cost_norm z) i) as [d Hd]; [lia|].
  destruct (lookup_lt_is_Some_2 (Rural_Pop_Density_norm z) i) as [e He]; [lia|].
  destruct (lookup_lt_is_Some_2 (Terrain_Ruggedness_inverse_norm z) i) as [t Ht]; [lia|].
  exists {| solar_norm := a; grid_inverse_norm := b; infra_norm := c;
            cost_norm := d; pop_norm := e; terrain_inverse_norm := t |}.
  split; [|split].
  - unfold norm_row, cell, scored. by simplify_map_eq.
  - pose proof (λ xs, proj1 (Forall_lookup _ _) (normalized_range xs)) as Hrange.
    unfold in_unit; simpl.
    repeat split; first
      [ eapply (Hrange _ i _ Ha) | eapply (Hrange _ i _ Hb) | eapply (Hrange _ i _ Hc)
      | eapply (Hrange _ i _ Hd) | eapply (Hrange _ i _ He) | eapply (Hrange _ i _ Ht) ].
  - unfold cell, scored. rewrite lookup_insert_eq.
    unfold weighted_sum; cbn [solar_norm grid_inverse_norm infra_norm cost_norm
      pop_norm terrain_inverse_norm].
    exact (score_lookup z i a b c d e t Ha Hb Hc Hd He Ht).
Qed.

Lemma weighted_sum_range (r : NormRow) : in_unit r → 0 <= weighted_sum r <= 1.
Proof.
  unfold in_unit, weighted_sum. intros (H1 & H2 & H3 & H4 & H5 & H6).
  split; lra.
Qed.


Lemma weights_positive : map_Forall (λ _ w, 0 < w) weights.
Proof.
  apply map_Forall_to_list. vm_compute. repeat constructor.
Qed.

Lemma norm_row_lt (f : DataFrame) (m : Metrics) (n i : nat) (r : NormRow) :
  metrics_rows m n → norm_row (scored f m) i = Some r → (i < n)%nat.
Proof.
  intros Hrows Hr.
  destruct (normalized_metrics_rows m n Hrows) as (Ls & _).
  unfold norm_row in Hr.
  destruct (cell (scored f m) "Solar_Irradiance_norm" i) as [a|] eqn:Ha; [|done].
  unfold cell, scored in Ha. simplify_map_eq.
  apply lookup_lt_Some in Ha. done.
Qed.

Ltac valid_batch_by_computation :=
  unfold valid_batch, has_metrics, metrics_rows;
  repeat apply conj; first [ vm_compute; reflexivity | lia ].

(** * Rounding to [float64] *)

Section Binary64_facts.
Import Binary64.

Lemma round_half_even_cases (y : Q) :
  let n := Qnum y in
  let d := Zpos (Qden y) in
  ∃ q r : Z, (n = d * q + r ∧ 0 <= r < d)%Z ∧
    (((2 * r < d)%Z ∧ round_half_even y = q) ∨
     ((2 * r > d)%Z ∧ round_half_even y = (q + 1)%Z) ∨
     ((2 * r = d)%Z ∧ Z.even q = true ∧ round_half_even y = q) ∨
     ((2 * r = d)%Z ∧ Z.even q = false ∧ round_half_even y = (q + 1)%Z)).
Proof.
  intros n d. exists (n / d)%Z, (n mod d)%Z.
  split.
  - split; [apply Z.div_mod; done | apply Z.mod_pos_bound; done].
  - unfold round_half_even. fold n d.
    destruct (Z.compare_spec (2 * (n mod d)) d) as [Heq|Hlt|Hgt].
    + destruct (Z.even (n / d)) eqn:He; [right; right; left | right; right; right]; done.
    + by left.
    + right; left. split; [lia | done].
Qed.

Lemma round_half_even_monotone (y1 y2 : Q) :
  y1 <= y2 → (round_half_even y1 <= round_half_even y2)%Z.
Proof.
  intros Hle. unfold Qle in Hle.
  destruct (round_half_even_cases y1) as (q1 & r1 & (E1 & B1) & C1).
  destruct (round_half_even_cases y2) as (q2 & r2 & (E2 & B2) & C2).
  set (d1 := Zpos (Qden y1)) in *. set (d2 := Zpos (Qden y2)) in *.
  assert (0 < d1)%Z as P1 by done. assert (0 < d2)%Z as P2 by done.
  rewrite E1, E2 in Hle.
  assert (q1 <= q2)%Z as Hq.
  { destruct (Z.le_gt_cases q1 q2) as [|Hgt]; [done|]. exfalso.
    assert (d1 * d2 * (q2 + 1) <= d1 * d2 * q1)%Z
      by (apply Z.mul_le_mono_nonneg_l; lia).
    assert (r2 * d1 < d2 * d1)%Z by (apply Z.mul_lt_mono_pos_r; lia).
    assert (0 <= r1 * d2)%Z by (apply Z.mul_nonneg_nonneg; lia).
    lia. }
  destruct (Z.eq_dec q1 q2) as [->|Hne].
  - assert (r1 * d2 <= r2 * d1)%Z as Hr by nia.
    destruct C1 as [[? ->]|[[? ->]|[(? & ? & ->)|(? & ? & ->)]]];
    destruct C2 as [[? ->]|[[? ->]|[(? & ? & ->)|(? & ? & ->)]]];
      try lia; try congruence; exfalso; nia.
  - destruct C1 as [[? ->]|[[? ->]|[(? & ? & ->)|(? & ? & ->)]]];
    destruct C2 as [[? ->]|[[? ->]|[(? & ? & ->)|(? & ? & ->)]]]; lia.
Qed.

Lemma round_half_even_integer (y : Q) (z : Z) :
  y == inject_Z z → round_half_even y = z.
Proof.
  intros Hy. unfold Qeq in Hy. simpl in Hy.
  destruct (round_half_even_cases y) as (q & r & (E & B) & C).
  set (d := Zpos (Qden y)) in *. assert (0 < d)%Z as P by done.
  rewrite E in Hy.
  assert (r = d * (z - q))%Z as Hr by lia.
  assert (z - q = 0)%Z as Hz.
  { destruct (Z.lt_trichotomy (z - q) 0) as [H|[H|H]]; [|done|]; exfalso.
    - assert (d * (z - q) <= d * (-1))%Z by (apply Z.mul_le_mono_nonneg_l; lia). lia.
    - assert (d * 1 <= d * (z - q))%Z by (apply Z.mul_le_mono_nonneg_l; lia). lia. }
  rewrite Hz, Z.mul_0_r in Hr. subst r.
  assert (q = z) as -> by lia.
  destruct C as [[? ->]|[[? ->]|[(? & ? & ->)|(? & ? & ->)]]]; lia.
Qed.

Lemma pow2_pos (k : Z) : 0 < 2 ^ k.
Proof. by apply Qpower_0_lt. Qed.

Lemma pow2_plus (a b : Z) : 2 ^ (a + b) == 2 ^ a * 2 ^ b.
Proof. by apply Qpower_plus. Qed.

Lemma pow2_le (a b : Z) : (a <= b)%Z → 2 ^ a <= 2 ^ b.
Proof. intros Hab. by apply Qpower_le_compat_l. Qed.

Lemma pow2_lt_inv (a b : Z) : 2 ^ a < 2 ^ b → (a < b)%Z.
Proof. intros Hab. by apply (Qpower_lt_compat_l_inv 2). Qed.

Lemma pow2_of_Z (l : Z) : (0 <= l)%Z → 2 ^ l == inject_Z (2 ^ l).
Proof. intros Hl. by rewrite Zpower_Qpower. Qed.

(** [log2 n - log2 d] is the binary logarithm of [n/d], or one more. *)
Lemma log2_quotient (n : Z) (d : positive) :
  (0 < n)%Z →
  let k := (Z.log2 n - Z.log2 (Zpos d))%Z in
  2 ^ (k - 1) < n # d ∧ n # d < 2 ^ (k + 1).
Proof.
  intros Hn k.
  pose proof (Z.log2_spec n Hn) as [An Bn].
  pose proof (Z.log2_spec (Zpos d) eq_refl) as [Ad Bd].
  rewrite Z.pow_succ_r in Bn, Bd by apply Z.log2_nonneg.
  assert (2 ^ k == inject_Z (2 ^ Z.log2 n) / inject_Z (2 ^ Z.log2 (Zpos d))) as Hk.
  { unfold k. rewrite Qpower_minus by done.
    by rewrite !pow2_of_Z by apply Z.log2_nonneg. }
  assert (0 < 2 ^ Z.log2 n)%Z as Pa by (apply Z.pow_pos_nonneg; [done | apply Z.log2_nonneg]).
  assert (0 < 2 ^ Z.log2 (Zpos d))%Z as Pb
    by (apply Z.pow_pos_nonneg; [done | apply Z.log2_nonneg]).
  destruct (2 ^ Z.log2 n)%Z as [|a|a] eqn:Ea; [done| |done].
  destruct (2 ^ Z.log2 (Zpos d))%Z as [|b|b] eqn:Eb; [done| |done].
  rewrite <- Qmake_Qdiv in Hk.
  replace (k - 1)%Z with (k + -1)%Z by lia.
  rewrite !pow2_plus, Hk.
  change (2 ^ (-1)) with (1 # 2). change (2 ^ 1) with 2.
  unfold Qlt. simpl. split; nia.
Qed.

Lemma ulp_exponent_spec (x : Q) :
  0 < x → 2 ^ (ulp_exponent x + 52) <= x ∧ x < 2 ^ (ulp_exponent x + 53).
Proof.
  intros Hx. destruct x as [n d].
  assert (0 < n)%Z as Hn by (unfold Qlt in Hx; simpl in Hx; lia).
  destruct (log2_quotient n d Hn) as [Hlo Hhi].
  unfold ulp_exponent. cbn [Qnum Qden].
  set (k := (Z.log2 n - Z.log2 (Zpos d))%Z) in *.
  destruct (Qle_bool (2 ^ k) (n # d)) eqn:Hk.
  - apply Qle_bool_iff in Hk.
    replace (k - 52 + 52)%Z with k by lia.
    replace (k - 52 + 53)%Z with (k + 1)%Z by lia. done.
  - replace (k - 53 + 52)%Z with (k - 1)%Z by lia.
    replace (k - 53 + 53)%Z with k by lia.
    split; [by apply Qlt_le_weak|].
    apply Qnot_le_lt. intros Hle. apply Qle_bool_iff in Hle. congruence.
Qed.

Lemma ulp_exponent_unique (x : Q) (e : Z) :
  2 ^ (e + 52) <= x → x < 2 ^ (e + 53) → ulp_exponent x = e.
Proof.
  intros Hlo Hhi.
  assert (0 < x) as Hx by (eapply Qlt_le_trans; [apply pow2_pos | exact Hlo]).
  destruct (ulp_exponent_spec x Hx) as [Hlo' Hhi'].
  assert (ulp_exponent x + 52 < e + 53)%Z
    by (apply pow2_lt_inv; eapply Qle_lt_trans; eauto).
  assert (e + 52 < ulp_exponent x + 53)%Z
    by (apply pow2_lt_inv; eapply Qle_lt_trans; eauto).
  lia.
Qed.

Lemma ulp_exponent_monotone (x y : Q) :
  0 < x → x <= y → (ulp_exponent x <= ulp_exponent y)%Z.
Proof.
  intros Hx Hxy.
  assert (0 < y) as Hy by (by eapply Qlt_le_trans).
  destruct (ulp_exponent_spec x Hx) as [Hlo _].
  destruct (ulp_exponent_spec y Hy) as [_ Hhi].
  assert (ulp_exponent x + 52 < ulp_exponent y + 53)%Z.
  { apply pow2_lt_inv. eapply Qle_lt_trans; [exact Hlo|].
    by eapply Qle_lt_trans. }
  lia.
Qed.

Lemma significand_range (x : Q) :
  0 < x → 2 ^ 52 <= x / 2 ^ ulp_exponent x ∧ x / 2 ^ ulp_exponent x < 2 ^ 53.
Proof.
  intros Hx. destruct (ulp_exponent_spec x Hx) as [Hlo Hhi].
  rewrite pow2_plus in Hlo, Hhi.
  pose proof (pow2_pos (ulp_exponent x)) as He.
  split.
  - apply Qle_shift_div_l; [done|]. by rewrite Qmult_comm.
  - apply Qlt_shift_div_r; [done|]. by rewrite Qmult_comm.
Qed.

Lemma round_half_even_significand (y : Q) :
  2 ^ 52 <= y → y < 2 ^ 53 →
  (2 ^ 52 <= round_half_even y <= 2 ^ 53)%Z.
Proof.
  intros Hlo Hhi. split.
  - rewrite <- (round_half_even_integer (2 ^ 52) (2 ^ 52)) by done.
    by apply round_half_even_monotone.
  - rewrite <- (round_half_even_integer (2 ^ 53) (2 ^ 53)) by done.
    by apply round_half_even_monotone, Qlt_le_weak.
Qed.

Lemma round_positive_significand (x : Q) :
  0 < x →
  ∃ m, round_positive x = inject_Z m * 2 ^ ulp_exponent x ∧
       (2 ^ 52 <= m <= 2 ^ 53)%Z.
Proof.
  intros Hx. destruct (significand_range x Hx) as [Hlo Hhi].
  eexists. split; [reflexivity|]. by apply round_half_even_significand.
Qed.

Lemma inject_Z_le (a b : Z) : (a <= b)%Z → inject_Z a <= inject_Z b.
Proof. intros Hab. by rewrite <- Zle_Qle. Qed.

Lemma round_positive_pos (x : Q) : 0 < x → 0 < round_positive x.
Proof.
  intros Hx. destruct (round_positive_significand x Hx) as (m & -> & Hm & _).
  apply Qmult_lt_0_compat; [|apply pow2_pos].
  change 0 with (inject_Z 0). rewrite <- Zlt_Qlt. lia.
Qed.

Lemma round_positive_monotone (x y : Q) :
  0 < x → x <= y → round_positive x <= round_positive y.
Proof.
  intros Hx Hxy.
  assert (0 < y) as Hy by (by eapply Qlt_le_trans).
  pose proof (ulp_exponent_monotone x y Hx Hxy) as He.
  destruct (Z.eq_dec (ulp_exponent x) (ulp_exponent y)) as [Heq|Hne].
  - unfold round_positive. rewrite Heq.
    apply Qmult_le_compat_r; [|apply Qlt_le_weak, pow2_pos].
    apply inject_Z_le, round_half_even_monotone.
    apply Qmult_le_compat_r; [done|].
    apply Qlt_le_weak, Qinv_lt_0_compat, pow2_pos.
  - destruct (round_positive_significand x Hx) as (m & -> & _ & Hm).
    destruct (round_positive_significand y Hy) as (m' & -> & Hm' & _).
    apply (Qle_trans _ (2 ^ 53 * 2 ^ ulp_exponent x)).
    { apply Qmult_le_compat_r; [|apply Qlt_le_weak, pow2_pos].
      rewrite pow2_of_Z by done. by apply inject_Z_le. }
    apply (Qle_trans _ (2 ^ 52 * 2 ^ ulp_exponent y)).
    { rewrite <- !pow2_plus. apply pow2_le. lia. }
    apply Qmult_le_compat_r; [|apply Qlt_le_weak, pow2_pos].
    rewrite pow2_of_Z by done. by apply inject_Z_le.
Qed.

Lemma round_positive_proper (x y : Q) :
  0 < x → x == y → round_positive x == round_positive y.
Proof.
  intros Hx Hxy. apply Qle_antisym.
  - apply round_positive_monotone; [done|]. rewrite Hxy. apply Qle_refl.
  - apply round_positive_monotone; [by rewrite <- Hxy|]. rewrite Hxy. apply Qle_refl.
Qed.

Lemma round_positive_idempotent (x : Q) :
  0 < x → round_positive (round_positive x) == round_positive x.
Proof.
  intros Hx. destruct (round_positive_significand x Hx) as (m & -> & Hlo & Hhi).
  set (e := ulp_exponent x).
  pose proof (pow2_pos e) as He.
  destruct (Z.eq_dec m (2 ^ 53)%Z) as [->|Hne].
  - assert (inject_Z (2 ^ 53) * 2 ^ e == 2 ^ (e + 1 + 52)) as Hr.
    { rewrite <- pow2_of_Z by done. rewrite <- pow2_plus. by replace (e + 1 + 52)%Z with (53 + e)%Z by lia. }
    unfold round_positive at 1.
    rewrite (ulp_exponent_unique _ (e + 1)).
    + assert (2 ^ (e + 1 + 52) == inject_Z (2 ^ 52) * 2 ^ (e + 1)) as Hr'.
      { rewrite <- pow2_of_Z by done. rewrite <- pow2_plus.
        by replace (e + 1 + 52)%Z with (52 + (e + 1))%Z by lia. }
      rewrite (round_half_even_integer _ (2 ^ 52)).
      * by rewrite Hr, Hr'.
      * rewrite Hr, Hr'. pose proof (pow2_pos (e + 1)) as Hp.
        set (p := 2 ^ (e + 1)) in *. field. lra.
    + rewrite Hr. apply Qle_refl.
    + rewrite Hr. apply Qpower_lt_compat_l; [lia | done].
  - unfold round_positive at 1.
    rewrite (ulp_exponent_unique _ e).
    + rewrite (round_half_even_integer _ m); [reflexivity|].
      set (p := 2 ^ e) in *. field. lra.
    + assert (2 ^ (e + 52) == inject_Z (2 ^ 52) * 2 ^ e) as ->.
      { rewrite <- pow2_of_Z by done. rewrite <- pow2_plus.
        by replace (e + 52)%Z with (52 + e)%Z by lia. }
      apply Qmult_le_compat_r; [|by apply Qlt_le_weak].
      by apply inject_Z_le.
    + assert (2 ^ (e + 53) == inject_Z (2 ^ 53) * 2 ^ e) as ->.
      { rewrite <- pow2_of_Z by done. rewrite <- pow2_plus.
        by replace (e + 53)%Z with (53 + e)%Z by lia. }
      apply Qmult_lt_compat_r; [done|].
      rewrite <- Zlt_Qlt. lia.
Qed.

Lemma round_of_positive (x : Q) : 0 < x → round x == round_positive x.
Proof.
  intros Hx. unfold round. destruct x as [[|p|p] d]; cbn [Qnum].
  - by unfold Qlt in Hx.
  - apply Qred_correct.
  - by unfold Qlt in Hx.
Qed.

Lemma round_of_negative (x : Q) : x < 0 → round x == - round_positive (- x).
Proof.
  intros Hx. unfold round. destruct x as [[|p|p] d]; cbn [Qnum].
  - by unfold Qlt in Hx.
  - by unfold Qlt in Hx.
  - apply Qred_correct.
Qed.

Lemma round_of_zero (x : Q) : x == 0 → round x == 0.
Proof.
  intros Hx. unfold round. destruct x as [[|p|p] d]; cbn [Qnum]; [done|..];
    by unfold Qeq in Hx.
Qed.

Lemma round_sign (x : Q) :
  (0 < x ∧ 0 < round x) ∨ (x == 0 ∧ round x == 0) ∨ (x < 0 ∧ round x < 0).
Proof.
  destruct (Q_dec x 0) as [[Hneg|Hpos]|Hzero].
  - right; right. split; [done|]. rewrite round_of_negative by done.
    assert (0 < round_positive (- x)) by (apply round_positive_pos; lra). lra.
  - left. split; [done|]. rewrite round_of_positive by done.
    by apply round_positive_pos.
  - right; left. split; [done | by apply round_of_zero].
Qed.

Lemma round_monotone (x y : Q) : x <= y → round x <= round y.
Proof.
  intros Hxy.
  destruct (round_sign x) as [[Hx Rx]|[[Hx Rx]|[Hx Rx]]];
  destruct (round_sign y) as [[Hy Ry]|[[Hy Ry]|[Hy Ry]]]; try lra.
  - rewrite !round_of_positive by done. by apply round_positive_monotone.
  - rewrite !round_of_negative by done.
    apply Qopp_le_compat, round_positive_monotone; lra.
Qed.

Lemma round_opp (x : Q) : round (- x) == - round x.
Proof.
  destruct (round_sign x) as [[Hx Rx]|[[Hx Rx]|[Hx Rx]]].
  - rewrite round_of_negative by lra. rewrite (round_of_positive x) by done.
    apply Qopp_comp, round_positive_proper; [lra | ring].
  - rewrite Rx. rewrite round_of_zero; lra.
  - rewrite round_of_positive by lra. rewrite (round_of_negative x) by done. ring.
Qed.

Lemma round_idempotent (x : Q) : round (round x) == round x.
Proof.
  destruct (round_sign x) as [[Hx Rx]|[[Hx Rx]|[Hx Rx]]].
  - rewrite (round_of_positive (round x)) by done.
    rewrite (round_positive_proper (round x) (round_positive x));
      [|done | by apply round_of_positive].
    rewrite round_positive_idempotent by done.
    symmetry. by apply round_of_positive.
  - rewrite (round_of_zero _ Rx). by symmetry.
  - rewrite (round_of_negative (round x)) by done.
    rewrite (round_positive_proper (- round x) (round_positive (- x)));
      [|lra | rewrite round_of_negative by done; ring].
    rewrite round_positive_idempotent by lra.
    symmetry. by apply round_of_negative.
Qed.

Lemma Binary64_rounding : rounding round.
Proof.
  split.
  - apply round_monotone.
  - reflexivity.
  - apply round_opp.
  - apply round_idempotent.
Qed.

End Binary64_facts.

(** Some roundings: the decimals 0.1 and 0.37000000000000005, and ties. *)
Example round_one_tenth :
  Binary64.round 0.1 = 3602879701896397 # 36028797018963968.
Proof. vm_compute. reflexivity. Qed.

Example round_next_after_037 :
  Binary64.round 0.37000000000000005 = 6665327448508335 # 18014398509481984
  ∧ Binary64.round 0.37 = 3332663724254167 # 9007199254740992.
Proof. split; vm_compute; reflexivity. Qed.

Example round_ties_to_even :
  Binary64.round 9007199254740993 = 9007199254740992
  ∧ Binary64.round 9007199254740995 = 9007199254740996.
Proof. split; vm_compute; reflexivity. Qed.

(** The column [1, 6] is normalized to [0, 1.0000000000000002]:
    [scale_] is the [float64] next to 1/5, [6 * scale_] is rounded to
    1.2000000000000002, and [min_] is minus [scale_]. *)
Example normalized_one_six :
  IEEE.normalized Binary64.round [1; 6]
  = [0; 4503599627370497 # 4503599627370496].
Proof. vm_compute. reflexivity. Qed.

(** * The scorer in [float64] arithmetic *)

(** With the identity for the rounding, the rounded scorer is the exact
    one. *)
Lemma exact_scorer :
  IEEE.create_solar_site_suitability_score (λ x, x) = create_solar_site_suitability_score.
Proof. reflexivity. Qed.

Lemma exact_scored (f : DataFrame) (m : Metrics) :
  IEEE.scored (λ x, x) f m = scored f m.
Proof. reflexivity. Qed.

Section Rounded_run.

Variable rnd : Q → Q.

Lemma IEEE_normalize_last (h : store) (g : DataFrame) (dst src : string) (xs : list Q) :
  g !! src = Some (Float64 xs) → xs ≠ [] →
  IEEE.normalize rnd (length h) dst src (h ++ [g]) =
  (Ok tt, h ++ [<[dst := Float64 (IEEE.normalized rnd xs)]> g]).
Proof.
  intros Hsrc Hne. unfold IEEE.normalize.
  rewrite bind_run, (getitem_last _ _ _ _ Hsrc).
  destruct xs as [|x xs]; [done|].
  rewrite bind_run. unfold lift at 1. cbn [IEEE.fit_transform].
  by rewrite setitem_last.
Qed.

Lemma IEEE_weighted_last (h : store) (g : DataFrame) (k : string) (xs : list Q) (w : Q) :
  g !! k = Some (Float64 xs) → IEEE.weights rnd !! k = Some w →
  IEEE.weighted rnd (length h) k (h ++ [g]) =
  (Ok (Float64 (map (λ x, rnd (x * w)) xs)), h ++ [g]).
Proof.
  intros Hk Hw. unfold IEEE.weighted.
  rewrite bind_run, (getitem_last _ _ _ _ Hk).
  rewrite bind_run. unfold lift at 1, dict_getitem. rewrite Hw.
  reflexivity.
Qed.

Lemma IEEE_Terrain_Ruggedness_inverse_length (m : Metrics) :
  length (IEEE.Terrain_Ruggedness_inverse rnd m) = length (Terrain_Ruggedness_Score m).
Proof.
  unfold IEEE.Terrain_Ruggedness_inverse.
  destruct (Terrain_Ruggedness_Score m); simpl; [done|].
  by rewrite length_map.
Qed.

(** On a valid batch the rounded scorer returns a new frame,
    [IEEE.scored rnd f m]; the store keeps everything it had. *)
Lemma IEEE_create_run (h : store) (df : loc) (f : DataFrame) (m : Metrics) (n : nat) :
  h !! df = Some f → valid_batch f m n →
  IEEE.create_solar_site_suitability_score rnd df h
  = (Ok (length h), h ++ [IEEE.scored rnd f m]).
Proof.
  intros Hdf (Hm & Hrows & Hn).
  destruct Hm as (Hsolar & Hgrid & Hinfra & Hcost & Hpop & Hterr).
  destruct Hrows as (Ls & Lg & Li & Lc & Lp & Lt).
  unfold IEEE.create_solar_site_suitability_score.
  rewrite bind_run, (copy_run _ _ _ Hdf).
  rewrite bind_run, (getitem_last _ _ _ _ Hgrid).
  rewrite bind_run. unfold lift at 1. cbn [IEEE.rsub].
  rewrite bind_run, setitem_last.
  rewrite bind_run.
  erewrite getitem_last by (by simplify_map_eq).
  rewrite bind_run. unfold lift at 1.
  assert (IEEE.max_minus rnd (Float64 (Terrain_Ruggedness_Score m))
          = Ok (Float64 (IEEE.Terrain_Ruggedness_inverse rnd m))) as ->.
  { unfold IEEE.max_minus, IEEE.Terrain_Ruggedness_inverse.
    by destruct (Series_max _). }
  rewrite bind_run, setitem_last.
  do 6 (rewrite bind_run;
        erewrite IEEE_normalize_last;
        [ | by simplify_map_eq
          | first [ by eapply nonempty_of_length
                  | eapply nonempty_of_length; [|exact Hn];
                    first [ by rewrite IEEE_Terrain_Ruggedness_inverse_length
                          | by unfold IEEE.Grid_Access_inverse; rewrite length_map ] ] ]).
  do 2 (rewrite bind_run;
        erewrite IEEE_weighted_last; [ | by simplify_map_eq | reflexivity ]).
  rewrite bind_run; unfold lift at 1; cbn [IEEE.sadd].
  do 4 (rewrite bind_run;
        erewrite IEEE_weighted_last; [ | by simplify_map_eq | reflexivity ];
        rewrite bind_run; unfold lift at 1; cbn [IEEE.sadd]).
  rewrite bind_run, setitem_last.
  reflexivity.
Qed.

Lemma IEEE_returns_scored (h : store) (df : loc) (f : DataFrame) (m : Metrics) (n : nat) :
  h !! df = Some f → valid_batch f m n → IEEE.returns rnd h df (IEEE.scored rnd f m).
Proof.
  intros Hdf Hv. exists (length h), (h ++ [IEEE.scored rnd f m]).
  split; [by eapply IEEE_create_run | apply store_lookup_last].
Qed.

Lemma IEEE_returns_inj (h : store) (df : loc) (g1 g2 : DataFrame) :
  IEEE.returns rnd h df g1 → IEEE.returns rnd h df g2 → g1 = g2.
Proof.
  intros (l1 & h1 & E1 & L1) (l2 & h2 & E2 & L2).
  rewrite E1 in E2. injection E2 as -> ->. congruence.
Qed.

Lemma IEEE_normalized_length (xs : list Q) :
  length (IEEE.normalized rnd xs) = length xs.
Proof.
  destruct xs as [|x xs]; [done|].
  unfold IEEE.normalized, IEEE.transform. by rewrite length_map.
Qed.

Lemma IEEE_normalized_metrics_rows (m : Metrics) (n : nat) :
  metrics_rows m n →
  let z := IEEE.normalized_metrics rnd m in
  length (Solar_Irradiance_norm z) = n ∧
  length (Grid_Access_inverse_norm z) = n ∧
  length (Infrastructure_Index_norm z) = n ∧
  length (Electricity_Cost_norm z) = n ∧
  length (Rural_Pop_Density_norm z) = n ∧
  length (Terrain_Ruggedness_inverse_norm z) = n.
Proof.
  intros (Ls & Lg & Li & Lc & Lp & Lt). simpl.
  rewrite !IEEE_normalized_length, IEEE_Terrain_Ruggedness_inverse_length.
  unfold IEEE.Grid_Access_inverse. rewrite length_map. done.
Qed.

Lemma IEEE_score_lookup (z : Normalized) (i : nat) (a b c d e t : Q) :
  Solar_Irradiance_norm z !! i = Some a →
  Grid_Access_inverse_norm z !! i = Some b →
  Infrastructure_Index_norm z !! i = Some c →
  Electricity_Cost_norm z !! i = Some d →
  Rural_Pop_Density_norm z !! i = Some e →
  Terrain_Ruggedness_inverse_norm z !! i = Some t →
  IEEE.Solar_Site_Suitability_Score rnd z !! i =
  Some (IEEE.weighted_sum rnd
          {| solar_norm := a; grid_inverse_norm := b; infra_norm := c;
             cost_norm := d; pop_norm := e; terrain_inverse_norm := t |}).
Proof.
  intros Ha Hb Hc Hd He Ht. unfold IEEE.Solar_Site_Suitability_Score.
  rewrite !lookup_zip_with, !list_lookup_fmap, Ha, Hb, Hc, Hd, He, Ht.
  reflexivity.
Qed.

(** Every row of the frame the rounded scorer returns: its six normalized
    features are the rows of the normalized columns and its score is
    their rounded weighted sum. *)
Lemma IEEE_scored_row (f : DataFrame) (m : Metrics) (n i : nat) :
  metrics_rows m n → (i < n)%nat →
  ∃ r, norm_row (IEEE.scored rnd f m) i = Some r ∧
       cell (IEEE.scored rnd f m) "Solar_Site_Suitability_Score" i
       = Some (IEEE.weighted_sum rnd r) ∧
       IEEE.normalized rnd (Solar_Irradiance_kWh_m2_day m) !! i = Some (solar_norm r) ∧
       IEEE.normalized rnd (IEEE.Grid_Access_inverse rnd m) !! i
       = Some (grid_inverse_norm r) ∧
       IEEE.normalized rnd (Infrastructure_Index m) !! i = Some (infra_norm r) ∧
       IEEE.normalized rnd (Electricity_Cost_USD_per_kWh m) !! i = Some (cost_norm r) ∧
       IEEE.normalized rnd (Rural_Pop_Density_per_km2 m) !! i = Some (pop_norm r) ∧
       IEEE.normalized rnd (IEEE.Terrain_Ruggedness_inverse rnd m) !! i
       = Some (terrain_inverse_norm r).
Proof.
  intros Hrows Hi.
  destruct (IEEE_normalized_metrics_rows m n Hrows) as (Ls & Lg & Li & Lc & Lp & Lt).
  set (z := IEEE.normalized_metrics rnd m) in *.
  destruct (lookup_lt_is_Some_2 (Solar_Irradiance_norm z) i) as [a Ha]; [lia|].
  destruct (lookup_lt_is_Some_2 (Grid_Access_inverse_norm z) i) as [b Hb]; [lia|].
  destruct (lookup_lt_is_Some_2 (Infrastructure_Index_norm z) i) as [c Hc]; [lia|].
  destruct (lookup_lt_is_Some_2 (Electricity_Cost_norm z) i) as [d Hd]; [lia|].
  destruct (lookup_lt_is_Some_2 (Rural_Pop_Density_norm z) i) as [e He]; [lia|].
  destruct (lookup_lt_is_Some_2 (Terrain_Ruggedness_inverse_norm z) i) as [t Ht]; [lia|].
  exists {| solar_norm := a; grid_inverse_norm := b; infra_norm := c;
            cost_norm := d; pop_norm := e; terrain_inverse_norm := t |}.
  split; [|split].
  - unfold norm_row, cell, IEEE.scored. by simplify_map_eq.
  - unfold cell, IEEE.scored. rewrite lookup_insert_eq.
    exact (IEEE_score_lookup z i a b c d e t Ha Hb Hc Hd He Ht).
  - done.
Qed.

End Rounded_run.

(** ** What rounding keeps *)

Section Rounded_order.

Variable rnd : Q → Q.
Hypothesis Hrnd : rounding rnd.

Lemma rounding_proper (x y : Q) : x == y → rnd x == rnd y.
Proof.
  intros Hxy. apply Qle_antisym; apply (rounding_monotone rnd Hrnd);
    rewrite Hxy; apply Qle_refl.
Qed.

Lemma rounding_nonneg (x : Q) : 0 <= x → 0 <= rnd x.
Proof.
  intros Hx. rewrite <- (rounding_zero rnd Hrnd).
  by apply (rounding_monotone rnd Hrnd).
Qed.

Lemma IEEE_scale_nonneg (x : Q) (xs : list Q) :
  0 <= MinMaxScaler.scale_ (IEEE.fit rnd x xs).
Proof.
  unfold IEEE.fit; cbn [MinMaxScaler.scale_].
  apply rounding_nonneg, Qlt_le_weak, Qlt_shift_div_l;
    [apply handle_zeros_in_scale_pos | reflexivity].
Qed.

(** The rounded [X * scale_ + min_] of a value that is at least the
    minimum of the column is not negative. *)
Lemma IEEE_transform_nonneg (x : Q) (xs : list Q) (v : Q) :
  MinMaxScaler.data_min x xs <= v →
  0 <= rnd (rnd (v * MinMaxScaler.scale_ (IEEE.fit rnd x xs))
            + MinMaxScaler.min_ (IEEE.fit rnd x xs)).
Proof.
  intros Hv. pose proof (IEEE_scale_nonneg x xs) as Hs.
  set (s := MinMaxScaler.scale_ (IEEE.fit rnd x xs)) in *.
  assert (MinMaxScaler.min_ (IEEE.fit rnd x xs)
          == - rnd (MinMaxScaler.data_min x xs * s)) as Hmin.
  { change (MinMaxScaler.min_ (IEEE.fit rnd x xs))
      with (rnd (0 - rnd (MinMaxScaler.data_min x xs * s))).
    transitivity (rnd (- rnd (MinMaxScaler.data_min x xs * s)));
      [apply rounding_proper; ring|].
    by rewrite (rounding_opp rnd Hrnd), (rounding_idempotent rnd Hrnd). }
  apply rounding_nonneg. rewrite Hmin.
  assert (rnd (MinMaxScaler.data_min x xs * s) <= rnd (v * s)).
  { apply (rounding_monotone rnd Hrnd). by apply Qmult_le_compat_r. }
  lra.
Qed.

Lemma IEEE_normalized_nonneg (xs : list Q) :
  Forall (λ y, 0 <= y) (IEEE.normalized rnd xs).
Proof.
  destruct xs as [|x xs]; [constructor|].
  unfold IEEE.normalized, IEEE.transform. apply Forall_fmap.
  pose proof (data_min_le x xs) as Hmin.
  rewrite Forall_forall in Hmin. apply Forall_forall.
  intros v Hv. cbv beta. apply IEEE_transform_nonneg. by apply Hmin.
Qed.

Lemma IEEE_term_monotone (a b w : Q) :
  0 <= w → a <= b → rnd (a * w) <= rnd (b * w).
Proof.
  intros Hw Hab. apply (rounding_monotone rnd Hrnd).
  by apply Qmult_le_compat_r.
Qed.

Lemma IEEE_sum_monotone (a b c d : Q) :
  a <= b → c <= d → rnd (a + c) <= rnd (b + d).
Proof. intros Hab Hcd. apply (rounding_monotone rnd Hrnd). lra. Qed.

(** The rounded weighted sum does not decrease when a feature grows. *)
Lemma IEEE_weighted_sum_monotone (r1 r2 : NormRow) :
  solar_norm r1 <= solar_norm r2 →
  grid_inverse_norm r1 <= grid_inverse_norm r2 →
  infra_norm r1 <= infra_norm r2 →
  cost_norm r1 <= cost_norm r2 →
  pop_norm r1 <= pop_norm r2 →
  terrain_inverse_norm r1 <= terrain_inverse_norm r2 →
  IEEE.weighted_sum rnd r1 <= IEEE.weighted_sum rnd r2.
Proof.
  intros H1 H2 H3 H4 H5 H6. unfold IEEE.weighted_sum.
  repeat apply IEEE_sum_monotone;
    apply IEEE_term_monotone; try done; by apply rounding_nonneg.
Qed.

Lemma IEEE_weighted_sum_nonneg (r : NormRow) :
  0 <= solar_norm r → 0 <= grid_inverse_norm r → 0 <= infra_norm r →
  0 <= cost_norm r → 0 <= pop_norm r → 0 <= terrain_inverse_norm r →
  0 <= IEEE.weighted_sum rnd r.
Proof.
  intros H1 H2 H3 H4 H5 H6. unfold IEEE.weighted_sum.
  assert (∀ a w, 0 <= a → 0 <= w → 0 <= rnd (a * w)) as Hterm.
  { intros a w Ha Hw. apply rounding_nonneg. by apply Qmult_le_0_compat. }
  assert (∀ a b, 0 <= a → 0 <= b → 0 <= rnd (a + b)) as Hsum.
  { intros a b Ha Hb. apply rounding_nonneg. lra. }
  repeat apply Hsum; apply Hterm; try done; by apply rounding_nonneg.
Qed.

End Rounded_order.

(** * Range of the score *)

Lemma overshoot_valid : valid_batch overshoot overshoot_metrics 2.
Proof. valid_batch_by_computation. Qed.

(** In [float64] region B of [overshoot] is scored 1.0000000000000002. *)
Lemma score_above_one : ¬ every_score_in_unit_interval.
Proof.
  intros Hunit.
  destruct (Hunit [overshoot] 0%nat overshoot overshoot_metrics 2%nat
              (IEEE.scored Binary64.round overshoot overshoot_metrics) 1%nat
              (4503599627370497 # 4503599627370496)) as [_ Hle].
  - reflexivity.
  - exact overshoot_valid.
  - by apply (IEEE_returns_scored _ _ _ _ _ 2%nat), overshoot_valid.
  - unfold cell, IEEE.scored. rewrite lookup_insert_eq.
    vm_compute. reflexivity.
  - by apply Hle.
Qed.

Lemma IEEE_weights_nonneg (rnd : Q → Q) :
  rounding rnd → map_Forall (λ _ w, 0 <= w) (IEEE.weights rnd).
Proof.
  intros Hrnd. unfold IEEE.weights.
  repeat (apply map_Forall_insert_2;
          [by apply (rounding_nonneg rnd Hrnd)|]).
  apply map_Forall_empty.
Qed.

(** C1. On every valid batch the scorer returns a frame in which, for
    every region, the score is the weighted sum of the six normalized
    features with the weights 0.30, 0.20, 0.15, 0.15, 0.10, 0.10 (positive
    decimals that sum to 1), rounded as [float64] arithmetic rounds every
    product and sum; the features and the score are never negative.
    Computed without rounding, the features and the score lie in [0,1]. *)
Theorem suitability_score_range
    (rnd : Q → Q) (h : store) (df : loc) (f : DataFrame) (m : Metrics) (n : nat) :
  rounding rnd → h !! df = Some f → valid_batch f m n →
  (∃ g, IEEE.returns rnd h df g ∧
     ∀ i, (i < n)%nat →
       ∃ r, norm_row g i = Some r ∧ nonneg r ∧
            cell g "Solar_Site_Suitability_Score" i = Some (IEEE.weighted_sum rnd r) ∧
            0 <= IEEE.weighted_sum rnd r) ∧
  (∃ g, IEEE.returns (λ x, x) h df g ∧
     ∀ i, (i < n)%nat →
       ∃ r, norm_row g i = Some r ∧ in_unit r ∧
            cell g "Solar_Site_Suitability_Score" i = Some (IEEE.weighted_sum (λ x, x) r) ∧
            0 <= IEEE.weighted_sum (λ x, x) r <= 1) ∧
  IEEE.weights rnd !! "Solar_Irradiance_norm" = Some (rnd 0.3) ∧
  IEEE.weights rnd !! "Grid_Access_inverse_norm" = Some (rnd 0.2) ∧
  IEEE.weights rnd !! "Infrastructure_Index_norm" = Some (rnd 0.15) ∧
  IEEE.weights rnd !! "Electricity_Cost_norm" = Some (rnd 0.15) ∧
  IEEE.weights rnd !! "Rural_Pop_Density_norm" = Some (rnd 0.1) ∧
  IEEE.weights rnd !! "Terrain_Ruggedness_inverse_norm" = Some (rnd 0.1) ∧
  size (IEEE.weights rnd) = 6%nat ∧
  map_Forall (λ _ w, 0 <= w) (IEEE.weights rnd) ∧
  0.3 + 0.2 + 0.15 + 0.15 + 0.1 + 0.1 == 1.
Proof.
  intros Hrnd Hdf Hv. pose proof Hv as (_ & Hrows & _).
  split; [|split].
  - exists (IEEE.scored rnd f m).
    split; [by eapply IEEE_returns_scored|].
    intros i Hi.
    destruct (IEEE_scored_row rnd f m n i Hrows Hi)
      as (r & Hr & Hs & N1 & N2 & N3 & N4 & N5 & N6).
    pose proof (λ xs, proj1 (Forall_lookup _ _) (IEEE_normalized_nonneg rnd Hrnd xs))
      as Hnonneg.
    assert (nonneg r) as Hr0.
    { unfold nonneg. repeat apply conj;
        [ exact (Hnonneg _ i _ N1) | exact (Hnonneg _ i _ N2)
        | exact (Hnonneg _ i _ N3) | exact (Hnonneg _ i _ N4)
        | exact (Hnonneg _ i _ N5) | exact (Hnonneg _ i _ N6) ]. }
    exists r. do 3 (split; [done|]).
    destruct Hr0 as (? & ? & ? & ? & ? & ?).
    by apply IEEE_weighted_sum_nonneg.
  - exists (scored f m).
    split; [exact (returns_scored h df f m n Hdf Hv)|].
    intros i Hi.
    destruct (scored_row f m n i Hrows Hi) as (r & Hr & Hunit & Hs).
    exists r. do 3 (split; [done|]). by apply weighted_sum_range.
  - do 7 (split; [reflexivity|]).
    split; [by apply IEEE_weights_nonneg | reflexivity].
Qed.

Lemma suitability_score_range_witness :
  (∃ g, IEEE.returns Binary64.round [overshoot] 0%nat g ∧
     ∀ i, (i < 2)%nat →
       ∃ r, norm_row g i = Some r ∧ nonneg r ∧
            cell g "Solar_Site_Suitability_Score" i
            = Some (IEEE.weighted_sum Binary64.round r) ∧
            0 <= IEEE.weighted_sum Binary64.round r) ∧
  (∃ g, IEEE.returns (λ x, x) [overshoot] 0%nat g ∧
     ∀ i, (i < 2)%nat →
       ∃ r, norm_row g i = Some r ∧ in_unit r ∧
            cell g "Solar_Site_Suitability_Score" i = Some (IEEE.weighted_sum (λ x, x) r) ∧
            0 <= IEEE.weighted_sum (λ x, x) r <= 1) ∧
  IEEE.weights Binary64.round !! "Solar_Irradiance_norm" = Some (Binary64.round 0.3) ∧
  IEEE.weights Binary64.round !! "Grid_Access_inverse_norm" = Some (Binary64.round 0.2) ∧
  IEEE.weights Binary64.round !! "Infrastructure_Index_norm" = Some (Binary64.round 0.15) ∧
  IEEE.weights Binary64.round !! "Electricity_Cost_norm" = Some (Binary64.round 0.15) ∧
  IEEE.weights Binary64.round !! "Rural_Pop_Density_norm" = Some (Binary64.round 0.1) ∧
  IEEE.weights Binary64.round !! "Terrain_Ruggedness_inverse_norm"
    = Some (Binary64.round 0.1) ∧
  size (IEEE.weights Binary64.round) = 6%nat ∧
  map_Forall (λ _ w, 0 <= w) (IEEE.weights Binary64.round) ∧
  0.3 + 0.2 + 0.15 + 0.15 + 0.1 + 0.1 == 1.
Proof.
  apply (suitability_score_range Binary64.round
           [overshoot] 0%nat overshoot overshoot_metrics 2%nat).
  - exact Binary64_rounding.
  - reflexivity.
  - valid_batch_by_computation.
Defined.

(** * The electricity cost enters the score as it is *)

Lemma absorbed_valid : valid_batch absorbed absorbed_metrics 3.
Proof. valid_batch_by_computation. Qed.

(** In [float64] the regions B and C of [absorbed] have the normalized
    costs 0.9999999999999997 and 0.9999999999999999, their other
    features are equal, and both are scored 0.7999999999999998. *)
Lemma higher_cost_can_leave_score_unchanged : ¬ higher_cost_raises_score.
Proof.
  intros Hraise.
  pose proof absorbed_valid as Hv. pose proof Hv as (_ & Hrows & _).
  destruct (IEEE_scored_row Binary64.round absorbed absorbed_metrics 3 1 Hrows)
    as (r1 & Hr1 & Hs1 & A1 & B1 & C1 & D1 & E1 & T1); [lia|].
  destruct (IEEE_scored_row Binary64.round absorbed absorbed_metrics 3 2 Hrows)
    as (r2 & Hr2 & Hs2 & A2 & B2 & C2 & D2 & E2 & T2); [lia|].
  destruct r1 as [a1 b1 c1 d1 e1 t1], r2 as [a2 b2 c2 d2 e2 t2].
  cbn [solar_norm grid_inverse_norm infra_norm cost_norm pop_norm
       terrain_inverse_norm] in *.
  vm_compute in A1, B1, C1, D1, E1, T1, A2, B2, C2, D2, E2, T2.
  injection A1 as <-. injection B1 as <-. injection C1 as <-.
  injection D1 as <-. injection E1 as <-. injection T1 as <-.
  injection A2 as <-. injection B2 as <-. injection C2 as <-.
  injection D2 as <-. injection E2 as <-. injection T2 as <-.
  apply (Qlt_irrefl (900719925474099 # 1125899906842624)).
  eapply (Hraise [absorbed] 0%nat absorbed absorbed_metrics 3%nat _ 1%nat 2%nat
            _ _ _ _ eq_refl Hv
            (IEEE_returns_scored Binary64.round [absorbed] 0%nat absorbed
               absorbed_metrics 3%nat eq_refl Hv) Hr1 Hr2);
    cbn [solar_norm grid_inverse_norm infra_norm cost_norm pop_norm
         terrain_inverse_norm];
    first [ reflexivity
          | rewrite Hs1; vm_compute; reflexivity
          | rewrite Hs2; vm_compute; reflexivity ].
Qed.

Lemma IEEE_norm_row_lt (rnd : Q → Q) (f : DataFrame) (m : Metrics) (n i : nat)
    (r : NormRow) :
  metrics_rows m n → norm_row (IEEE.scored rnd f m) i = Some r → (i < n)%nat.
Proof.
  intros Hrows Hr.
  destruct (IEEE_normalized_metrics_rows rnd m n Hrows) as (Ls & _).
  unfold norm_row in Hr.
  destruct (cell (IEEE.scored rnd f m) "Solar_Irradiance_norm" i) as [a|] eqn:Ha;
    [|done].
  unfold cell, IEEE.scored in Ha. simplify_map_eq.
  apply lookup_lt_Some in Ha. done.
Qed.

(** C3. The normalized electricity cost is a summand of the score with
    the weight 0.15, a positive number (it is not inverted): of two scored
    rows that agree on the other five normalized features, the one with
    the higher normalized cost has a score that is at least the other's.
    Computed without rounding its score is the higher one, by 0.15 times
    the difference. *)
Theorem higher_normalized_cost_never_lowers_score
    (rnd : Q → Q)
    (h1 h2 : store) (df1 df2 : loc) (f1 f2 : DataFrame) (m1 m2 : Metrics)
    (n1 n2 i j : nat) (g1 g2 : DataFrame) (r1 r2 : NormRow) :
  rounding rnd →
  h1 !! df1 = Some f1 → valid_batch f1 m1 n1 → IEEE.returns rnd h1 df1 g1 →
  h2 !! df2 = Some f2 → valid_batch f2 m2 n2 → IEEE.returns rnd h2 df2 g2 →
  norm_row g1 i = Some r1 → norm_row g2 j = Some r2 →
  solar_norm r1 == solar_norm r2 →
  grid_inverse_norm r1 == grid_inverse_norm r2 →
  infra_norm r1 == infra_norm r2 →
  pop_norm r1 == pop_norm r2 →
  terrain_inverse_norm r1 == terrain_inverse_norm r2 →
  cost_norm r1 <= cost_norm r2 →
  IEEE.weights rnd !! "Electricity_Cost_norm" = Some (rnd 0.15) ∧
  0 <= rnd 0.15 ∧
  (∃ s1 s2,
     cell g1 "Solar_Site_Suitability_Score" i = Some s1 ∧
     cell g2 "Solar_Site_Suitability_Score" j = Some s2 ∧
     s1 <= s2) ∧
  (cost_norm r1 < cost_norm r2 →
   IEEE.weighted_sum (λ x, x) r1 < IEEE.weighted_sum (λ x, x) r2 ∧
   IEEE.weighted_sum (λ x, x) r2 - IEEE.weighted_sum (λ x, x) r1
   == 0.15 * (cost_norm r2 - cost_norm r1)).
Proof.
  intros Hrnd Hdf1 Hv1 Hret1 Hdf2 Hv2 Hret2 Hr1 Hr2 Ea Eb Ec Ee Et Hd.
  split; [reflexivity|].
  split; [by apply (rounding_nonneg rnd Hrnd)|].
  split.
  - rewrite (IEEE_returns_inj _ _ _ _ _ Hret1 (IEEE_returns_scored _ _ _ _ _ _ Hdf1 Hv1)) in *.
    rewrite (IEEE_returns_inj _ _ _ _ _ Hret2 (IEEE_returns_scored _ _ _ _ _ _ Hdf2 Hv2)) in *.
    destruct Hv1 as (_ & Hrows1 & _), Hv2 as (_ & Hrows2 & _).
    pose proof (IEEE_norm_row_lt _ _ _ _ _ _ Hrows1 Hr1) as Hi.
    pose proof (IEEE_norm_row_lt _ _ _ _ _ _ Hrows2 Hr2) as Hj.
    destruct (IEEE_scored_row rnd f1 m1 n1 i Hrows1 Hi) as (r1' & Hr1' & Hs1 & _).
    destruct (IEEE_scored_row rnd f2 m2 n2 j Hrows2 Hj) as (r2' & Hr2' & Hs2 & _).
    rewrite Hr1 in Hr1'. injection Hr1' as <-.
    rewrite Hr2 in Hr2'. injection Hr2' as <-.
    exists (IEEE.weighted_sum rnd r1), (IEEE.weighted_sum rnd r2).
    split; [done|]. split; [done|].
    apply (IEEE_weighted_sum_monotone rnd Hrnd); lra.
  - intros Hlt. unfold IEEE.weighted_sum. split; lra.
Qed.

Lemma higher_normalized_cost_never_lowers_score_witness :
  IEEE.weights Binary64.round !! "Electricity_Cost_norm" = Some (Binary64.round 0.15) ∧
  0 <= Binary64.round 0.15 ∧
  (∃ s1 s2,
     cell (IEEE.scored Binary64.round absorbed absorbed_metrics)
       "Solar_Site_Suitability_Score" 1 = Some s1 ∧
     cell (IEEE.scored Binary64.round absorbed absorbed_metrics)
       "Solar_Site_Suitability_Score" 2 = Some s2 ∧
     s1 <= s2) ∧
  ((9007199254740989 # 9007199254740992) < (9007199254740991 # 9007199254740992) →
   IEEE.weighted_sum (λ x, x)
     {| solar_norm := 1; grid_inverse_norm := 0; infra_norm := 1;
        cost_norm := 9007199254740989 # 9007199254740992;
        pop_norm := 9007199254740991 # 9007199254740992;
        terrain_inverse_norm := 1 |}
   < IEEE.weighted_sum (λ x, x)
     {| solar_norm := 1; grid_inverse_norm := 0; infra_norm := 1;
        cost_norm := 9007199254740991 # 9007199254740992;
        pop_norm := 9007199254740991 # 9007199254740992;
        terrain_inverse_norm := 1 |} ∧
   IEEE.weighted_sum (λ x, x)
     {| solar_norm := 1; grid_inverse_norm := 0; infra_norm := 1;
        cost_norm := 9007199254740991 # 9007199254740992;
        pop_norm := 9007199254740991 # 9007199254740992;
        terrain_inverse_norm := 1 |}
   - IEEE.weighted_sum (λ x, x)
     {| solar_norm := 1; grid_inverse_norm := 0; infra_norm := 1;
        cost_norm := 9007199254740989 # 9007199254740992;
        pop_norm := 9007199254740991 # 9007199254740992;
        terrain_inverse_norm := 1 |}
   == 0.15 * ((9007199254740991 # 9007199254740992)
              - (9007199254740989 # 9007199254740992))).
Proof.
  apply (higher_normalized_cost_never_lowers_score Binary64.round
           [absorbed] [absorbed] 0%nat 0%nat
           absorbed absorbed absorbed_metrics absorbed_metrics
           3%nat 3%nat 1%nat 2%nat
           (IEEE.scored Binary64.round absorbed absorbed_metrics)
           (IEEE.scored Binary64.round absorbed absorbed_metrics)
           {| solar_norm := 1; grid_inverse_norm := 0; infra_norm := 1;
              cost_norm := 9007199254740989 # 9007199254740992;
              pop_norm := 9007199254740991 # 9007199254740992;
              terrain_inverse_norm := 1 |}
           {| solar_norm := 1; grid_inverse_norm := 0; infra_norm := 1;
              cost_norm := 9007199254740991 # 9007199254740992;
              pop_norm := 9007199254740991 # 9007199254740992;
              terrain_inverse_norm := 1 |}).
  - exact Binary64_rounding.
  - reflexivity.
  - valid_batch_by_computation.
  - apply (IEEE_returns_scored Binary64.round [absorbed] 0%nat
             absorbed absorbed_metrics 3%nat);
      [reflexivity | valid_batch_by_computation].
  - reflexivity.
  - valid_batch_by_computation.
  - apply (IEEE_returns_scored Binary64.round [absorbed] 0%nat
             absorbed absorbed_metrics 3%nat);
      [reflexivity | valid_batch_by_computation].
  - vm_compute. reflexivity.
  - vm_compute. reflexivity.
  - reflexivity.
  - reflexivity.
  - reflexivity.
  - reflexivity.
  - reflexivity.
  - by vm_compute.
Defined.

(** * Inversion of the lower-is-better features *)




(** Grid access above 100 percent is not clamped: the inverse is negative. *)
Example grid_access_inverse_not_clamped :
  rsub 100 (Float64 [150; 100; 0]) = Ok (Float64 [100 - 150; 100 - 100; 100 - 0]).
Proof. reflexivity. Qed.

(** * Features without spread *)



(** The zero-range test of the specification: identical irradiance gives
    a normalized irradiance of 0 for A, B and C. *)
Example same_irradiance_normalized :
  ∃ g, returns [same_irradiance] 0%nat g ∧
       g !! "Solar_Irradiance_norm" = Some (Float64 [0 # 1; 0 # 1; 0 # 1]).
Proof.
  exists (scored same_irradiance same_irradiance_metrics). split.
  - apply (returns_scored _ _ _ _ 3%nat); [reflexivity | valid_batch_by_computation].
  - vm_compute. reflexivity.
Qed.

(** * A batch of one region *)

Lemma norm_row_cells (g : DataFrame) (i : nat) (r : NormRow) :
  norm_row g i = Some r →
  cell g "Solar_Irradiance_norm" i = Some (solar_norm r) ∧
  cell g "Grid_Access_inverse_norm" i = Some (grid_inverse_norm r) ∧
  cell g "Infrastructure_Index_norm" i = Some (infra_norm r) ∧
  cell g "Electricity_Cost_norm" i = Some (cost_norm r) ∧
  cell g "Rural_Pop_Density_norm" i = Some (pop_norm r) ∧
  cell g "Terrain_Ruggedness_inverse_norm" i = Some (terrain_inverse_norm r).
Proof.
  unfold norm_row. intros Hr.
  destruct (cell g "Solar_Irradiance_norm" i); [|done].
  destruct (cell g "Grid_Access_inverse_norm" i); [|done].
  destruct (cell g "Infrastructure_Index_norm" i); [|done].
  destruct (cell g "Electricity_Cost_norm" i); [|done].
  destruct (cell g "Rural_Pop_Density_norm" i); [|done].
  destruct (cell g "Terrain_Ruggedness_inverse_norm" i); [|done].
  simpl in Hr. injection Hr as <-. done.
Qed.





(** * The scenario of three regions *)

Lemma scenario_returns : returns [scenario] 0%nat (scored scenario scenario_metrics).
Proof.
  apply (returns_scored _ _ _ _ 3%nat); [reflexivity | valid_batch_by_computation].
Qed.

Ltac close_to_by_computation :=
  eexists; split; [vm_compute; reflexivity|];
  repeat (constructor; [by vm_compute|]); constructor.

(** C2, as the specification lists it, fails: the normalized population
    density of C is 1/3, which is 1/3000 away from 0.333, not within 1e-9. *)
Lemma scenario_as_listed_fails : ¬ scenario_as_listed.
Proof.
  intros (g & Hret & _ & _ & _ & _ & _ & (xs & Hcol & Hclose) & _).
  rewrite (returns_inj _ _ _ _ Hret scenario_returns) in Hcol.
  vm_compute in Hcol. injection Hcol as <-.
  inversion Hclose as [|? ? ? ? _ H1]; subst.
  inversion H1 as [|? ? ? ? _ H2]; subst.
  inversion H2 as [|? ? ? ? Hc _]; subst.
  vm_compute in Hc. by apply Hc.
Qed.

(** C2, amended. For the batch A, B, C the scorer returns: irradiance,
    inverted grid access, inverted terrain, infrastructure and cost
    normalized to 0, 1, 0.5 for A, B, C; population density normalized to
    1, 0, 1/3 (0.333 to three decimals); and scores ordered B > C > A. *)
Theorem scenario_normalized_values_and_order :
  ∃ g, returns [scenario] 0%nat g ∧
    close_to 1e-9 (g !! "Solar_Irradiance_norm") [0; 1; 0.5] ∧
    close_to 1e-9 (g !! "Grid_Access_inverse_norm") [0; 1; 0.5] ∧
    close_to 1e-9 (g !! "Terrain_Ruggedness_inverse_norm") [0; 1; 0.5] ∧
    close_to 1e-9 (g !! "Infrastructure_Index_norm") [0; 1; 0.5] ∧
    close_to 1e-9 (g !! "Electricity_Cost_norm") [0; 1; 0.5] ∧
    close_to 1e-9 (g !! "Rural_Pop_Density_norm") [1; 0; 1 # 3] ∧
    close_to 0.0005 (g !! "Rural_Pop_Density_norm") [1; 0; 0.333] ∧
    close_to 0 (g !! "Grid_Access_inverse") [20; 60; 40] ∧
    close_to 0 (g !! "Terrain_Ruggedness_inverse") [0; 20; 10] ∧
    ordered_B_C_A g.
Proof.
  exists (scored scenario scenario_metrics).
  split; [exact scenario_returns|].
  do 9 (split; [close_to_by_computation|]).
  eexists _, _, _.
  do 3 (split; [vm_compute; reflexivity|]).
  split; by vm_compute.
Qed.

(** * Metric values outside their expected range *)

Lemma beyond_range_valid : valid_batch beyond_range beyond_range_metrics 2.
Proof. valid_batch_by_computation. Qed.

(** C9. The scorer does not fail on metric values outside their expected
    range: every valid batch with a grid access above 100 percent or a
    negative electricity cost is scored.  For the batch [beyond_range]
    the score of region B, as computed in [float64], is
    1.0000000000000002: outside [0,1]. *)
Theorem out_of_range_values_are_scored :
  (∀ (rnd : Q → Q) (h : store) (df : loc) (f : DataFrame) (m : Metrics) (n : nat),
     h !! df = Some f → valid_batch f m n → out_of_expected_range m →
     ∃ l h' g, IEEE.create_solar_site_suitability_score rnd df h = (Ok l, h') ∧
               h' !! l = Some g ∧ h' !! df = Some f ∧
               ∃ scores, g !! "Solar_Site_Suitability_Score" = Some (Float64 scores) ∧
                         length scores = n) ∧
  out_of_expected_range beyond_range_metrics ∧
  valid_batch beyond_range beyond_range_metrics 2 ∧
  ∃ g s, IEEE.returns Binary64.round [beyond_range] 0%nat g ∧
         cell g "Solar_Site_Suitability_Score" 1 = Some s ∧
         ¬ (0 <= s <= 1).
Proof.
  split; [|split; [|split]].
  - intros rnd h df f m n Hdf Hv _.
    exists (length h), (h ++ [IEEE.scored rnd f m]), (IEEE.scored rnd f m).
    split; [by eapply IEEE_create_run|].
    split; [apply store_lookup_last|].
    split; [by rewrite lookup_app_l_Some with (x := f)|].
    eexists. split; [unfold IEEE.scored; by rewrite lookup_insert_eq|].
    destruct Hv as (_ & Hrows & _).
    destruct (IEEE_normalized_metrics_rows rnd m n Hrows) as (? & ? & ? & ? & ? & ?).
    unfold IEEE.Solar_Site_Suitability_Score.
    rewrite !length_zip_with, !length_map. lia.
  - left. unfold beyond_range_metrics, parsed; cbn [Grid_Access_Percent map].
    constructor. by vm_compute.
  - exact beyond_range_valid.
  - exists (IEEE.scored Binary64.round beyond_range beyond_range_metrics),
           (4503599627370497 # 4503599627370496).
    split; [by apply (IEEE_returns_scored _ _ _ _ _ 2%nat), beyond_range_valid|].
    split.
    + unfold cell, IEEE.scored. rewrite lookup_insert_eq. vm_compute. reflexivity.
    + intros [_ Hle]. by apply Hle.
Qed.

(** * A batch without regions *)

Lemma Series_len_0 (s : Series) :
  Series_len s = 0%nat → s = Float64 [] ∨ s = Object [].
Proof. destruct s as [[|? ?]|[|? ?]]; simpl; intros; auto; lia. Qed.

Lemma store_lookup_old (h : store) (g f : DataFrame) (l : loc) :
  h !! l = Some f → (h ++ [g]) !! l = Some f.
Proof. intros Hl. by rewrite lookup_app_l_Some with (x := f). Qed.

(** On a batch of zero records the first [fit_transform] raises
    [ValueError]; the frame that was passed in is as it was. *)
Lemma create_run_empty (h : store) (df : loc) (f : DataFrame) :
  h !! df = Some f → empty_batch f →
  ∃ g, create_solar_site_suitability_score df h = (Raise ValueError, h ++ [g]).
Proof.
  intros Hdf (Hrows & [ss Hs] & [sg Hg] & _ & _ & _ & [st Ht]).
  unfold create_solar_site_suitability_score.
  rewrite bind_run, (copy_run _ _ _ Hdf).
  rewrite bind_run, (getitem_last _ _ _ _ Hg).
  rewrite bind_run. unfold lift at 1.
  assert (∃ vg, rsub 100 sg = Ok vg) as [vg ->].
  { destruct (Series_len_0 sg (Hrows _ _ Hg)) as [-> | ->]; simpl; eauto. }
  rewrite bind_run, setitem_last.
  rewrite bind_run.
  erewrite getitem_last by (rewrite lookup_insert_ne by done; exact Ht).
  rewrite bind_run. unfold lift at 1.
  assert (∃ vt, max_minus st = Ok vt) as [vt ->].
  { destruct (Series_len_0 st (Hrows _ _ Ht)) as [-> | ->]; simpl; eauto. }
  rewrite bind_run, setitem_last.
  rewrite bind_run. unfold normalize at 1.
  rewrite bind_run.
  erewrite getitem_last by (rewrite !lookup_insert_ne by done; exact Hs).
  rewrite bind_run. unfold lift at 1.
  assert (MinMaxScaler.fit_transform ss = Raise ValueError) as ->.
  { destruct (Series_len_0 ss (Hrows _ _ Hs)) as [-> | ->]; reflexivity. }
  eauto.
Qed.

Lemma no_regions_empty : empty_batch no_regions.
Proof.
  split.
  - intros k s Hk. unfold no_regions in Hk.
    repeat (apply lookup_insert_Some in Hk as [[_ <-]|[_ Hk]]; [done|]).
    apply lookup_singleton_Some in Hk as [_ <-]. done.
  - repeat apply conj; vm_compute; eexists; reflexivity.
Qed.

(** There is no [EmptyBatchError] in the program: what is raised is the
    [ValueError] of the scaler's input validation. *)
Lemma no_EmptyBatchError : ¬ raises_EmptyBatchError.
Proof.
  intros (e & h' & Hrun & Hclass).
  destruct (create_run_empty [no_regions] 0%nat no_regions eq_refl no_regions_empty)
    as [g Hg].
  rewrite Hg in Hrun. injection Hrun as <- _.
  discriminate Hclass.
Qed.

(** C8, amended. Called on a batch of zero records, the scorer returns no
    result: the call itself ends in a [ValueError], raised by the first
    [fit_transform].  The frame of the caller is unchanged. *)
Theorem empty_batch_raises_ValueError (h : store) (df : loc) (f : DataFrame) :
  h !! df = Some f → empty_batch f →
  ∃ e h', create_solar_site_suitability_score df h = (Raise e, h') ∧
          e = ValueError ∧ class_name e = "ValueError" ∧
          h' !! df = Some f ∧
          ¬ ∃ g, returns h df g.
Proof.
  intros Hdf Hempty.
  destruct (create_run_empty h df f Hdf Hempty) as [g Hg].
  exists ValueError, (h ++ [g]).
  split; [done|]. split; [done|]. split; [done|].
  split; [by apply store_lookup_old|].
  intros (g' & l & h' & Hrun & _). rewrite Hg in Hrun. discriminate.
Qed.

Lemma empty_batch_raises_ValueError_witness :
  ∃ e h', create_solar_site_suitability_score 0%nat [no_regions] = (Raise e, h') ∧
          e = ValueError ∧ class_name e = "ValueError" ∧
          h' !! 0%nat = Some no_regions ∧
          ¬ ∃ g, returns [no_regions] 0%nat g.
Proof.
  apply (empty_batch_raises_ValueError [no_regions] 0%nat no_regions).
  - reflexivity.
  - split.
    + intros k s Hk. unfold no_regions in Hk.
      repeat (apply lookup_insert_Some in Hk as [[_ <-]|[_ Hk]]; [reflexivity|]).
      apply lookup_singleton_Some in Hk as [_ <-]. reflexivity.
    + repeat apply conj; vm_compute; eexists; reflexivity.
Defined.

(** * The caller's frame *)

Lemma local_ret {A} (h : store) (a : A) : local_to h (mret a).
Proof. intros g. by exists (Ok a), g. Qed.

Lemma local_lift {A} (h : store) (r : result A) : local_to h (lift r).
Proof. intros g. by exists r, g. Qed.

Lemma local_getitem (h : store) (k : string) : local_to h (getitem (length h) k).
Proof.
  intros g. unfold getitem. rewrite store_lookup_last.
  destruct (g !! k); eauto.
Qed.

Lemma local_setitem (h : store) (k : string) (v : Series) :
  local_to h (setitem (length h) k v).
Proof. intros g. rewrite setitem_last. eauto. Qed.

Lemma local_bind {A B} (h : store) (m : M A) (k : A → M B) :
  local_to h m → (∀ a, local_to h (k a)) → local_to h (m ≫= k).
Proof.
  intros Hm Hk g. rewrite bind_run.
  destruct (Hm g) as (r & g' & ->).
  destruct r as [a| |]; eauto.
  apply Hk.
Qed.

Ltac local_steps :=
  repeat first
    [ apply local_bind | apply local_getitem | apply local_setitem
    | apply local_lift | apply local_ret
    | match goal with |- ∀ _, _ => intro end ].

Lemma local_normalize (h : store) (dst src : string) :
  local_to h (normalize (length h) dst src).
Proof. unfold normalize. local_steps. Qed.

Lemma local_weighted (h : store) (k : string) : local_to h (weighted (length h) k).
Proof. unfold weighted. local_steps. Qed.

(** Whatever the outcome, the scorer leaves the store it was given intact
    and works on one new object. *)
Lemma create_frame (h : store) (df : loc) (f : DataFrame) :
  h !! df = Some f →
  ∃ r g, create_solar_site_suitability_score df h = (r, h ++ [g]).
Proof.
  intros Hdf. unfold create_solar_site_suitability_score.
  rewrite bind_run, (copy_run _ _ _ Hdf).
  match goal with |- ∃ r g, ?m (h ++ [f]) = _ => assert (local_to h m) as Hlocal end.
  { repeat first
      [ apply local_bind | apply local_getitem | apply local_setitem
      | apply local_lift | apply local_ret
      | apply local_normalize | apply local_weighted
      | match goal with |- ∀ _, _ => intro end ]. }
  apply Hlocal.
Qed.

Lemma scored_other_column (f : DataFrame) (m : Metrics) (k : string) :
  k ∉ derived_columns → scored f m !! k = f !! k.
Proof.
  unfold derived_columns. rewrite !not_elem_of_cons. intros Hk.
  destruct_and!. unfold scored. by rewrite !lookup_insert_ne.
Qed.

Lemma scored_derived_column (f : DataFrame) (m : Metrics) (n : nat) (k : string) :
  metrics_rows m n → k ∈ derived_columns →
  ∃ xs, scored f m !! k = Some (Float64 xs) ∧ length xs = n.
Proof.
  intros Hrows Hk.
  destruct (normalized_metrics_rows m n Hrows) as (Ls & Lg & Li & Lc & Lp & Lt).
  pose proof Hrows as (_ & Lgrid & _ & _ & _ & Lterr).
  unfold derived_columns in Hk.
  repeat (apply elem_of_cons in Hk as [->|Hk]); [..|by apply elem_of_nil in Hk];
    unfold scored; eexists; (split; [by simplify_map_eq|]); try done.
  - unfold Grid_Access_inverse. by rewrite length_map.
  - by rewrite Terrain_Ruggedness_inverse_length.
  - by apply score_length.
Qed.

(** A column of the input that has the name of an assigned column is
    overwritten in the result. *)
Lemma scoring_overwrites_a_score_column : ¬ scoring_only_adds_columns.
Proof.
  intros Hkept.
  assert (returns [already_scored] 0%nat (scored already_scored scenario_metrics))
    as Hret.
  { apply (returns_scored _ _ _ _ 3%nat); [reflexivity | valid_batch_by_computation]. }
  specialize (Hkept [already_scored] 0%nat already_scored scenario_metrics 3%nat
                _ eq_refl ltac:(valid_batch_by_computation) Hret
                "Solar_Site_Suitability_Score" (Float64 [9; 9; 9])
                ltac:(vm_compute; reflexivity)).
  unfold scored in Hkept. rewrite lookup_insert_eq in Hkept.
  vm_compute in Hkept. discriminate Hkept.
Qed.

(** C10, amended. The scorer works on a copy.  Whatever the outcome of the
    call, the frame passed in, and every other object of the store, is as
    it was before.  On a valid batch the result is a new object that has
    every column of the input that is not named like one of the nine
    assigned columns, unchanged (so: the same rows in the same order), and
    the nine assigned columns with one number per row; when the input has
    no column of such a name, as for a batch of region records, all its
    columns are in the result unchanged. *)
Theorem scoring_works_on_a_copy (h : store) (df : loc) (f : DataFrame) :
  h !! df = Some f →
  (∀ r h', create_solar_site_suitability_score df h = (r, h') →
     h' !! df = Some f ∧ ∀ l f0, h !! l = Some f0 → h' !! l = Some f0) ∧
  (∀ m n, valid_batch f m n →
     ∃ l h' g,
       create_solar_site_suitability_score df h = (Ok l, h') ∧
       h' !! l = Some g ∧ h !! l = None ∧ l ≠ df ∧
       (∀ k, k ∉ derived_columns → g !! k = f !! k) ∧
       (∀ k, k ∈ derived_columns →
          ∃ xs, g !! k = Some (Float64 xs) ∧ length xs = n) ∧
       ((∀ k, k ∈ derived_columns → f !! k = None) →
        ∀ k s, f !! k = Some s → g !! k = Some s)).
Proof.
  intros Hdf. split.
  - intros r h' Hrun.
    destruct (create_frame h df f Hdf) as (r0 & g & Hg).
    rewrite Hg in Hrun. injection Hrun as _ <-.
    split; [by apply store_lookup_old|].
    intros l f0 Hl. by apply store_lookup_old.
  - intros m n Hv. exists (length h), (h ++ [scored f m]), (scored f m).
    split; [by eapply create_run|].
    split; [apply store_lookup_last|].
    split; [by apply lookup_ge_None_2|].
    split; [apply lookup_lt_Some in Hdf; unfold loc in *; lia|].
    split; [intros k Hk; by apply scored_other_column|].
    split; [intros k Hk; destruct Hv as (_ & Hrows & _);
            by apply scored_derived_column|].
    intros Hfresh k s Hk.
    rewrite scored_other_column; [done|].
    intros Hin. apply Hfresh in Hin. congruence.
Qed.

Lemma scoring_works_on_a_copy_witness :
  (∀ r h', create_solar_site_suitability_score 0%nat [scenario] = (r, h') →
     h' !! 0%nat = Some scenario ∧
     ∀ l f0, [scenario] !! l = Some f0 → h' !! l = Some f0) ∧
  (∀ m n, valid_batch scenario m n →
     ∃ l h' g,
       create_solar_site_suitability_score 0%nat [scenario] = (Ok l, h') ∧
       h' !! l = Some g ∧ [scenario] !! l = None ∧ l ≠ 0%nat ∧
       (∀ k, k ∉ derived_columns → g !! k = scenario !! k) ∧
       (∀ k, k ∈ derived_columns →
          ∃ xs, g !! k = Some (Float64 xs) ∧ length xs = n) ∧
       ((∀ k, k ∈ derived_columns → scenario !! k = None) →
        ∀ k s, scenario !! k = Some s → g !! k = Some s)).
Proof.
  apply (scoring_works_on_a_copy [scenario] 0%nat scenario).
  reflexivity.
Defined.

(** The scenario has no column named like an assigned one, so all seven of
    its columns are found unchanged in the scored frame. *)
Example scenario_columns_kept (k : string) (s : Series) :
  scenario !! k = Some s → scored scenario scenario_metrics !! k = Some s.
Proof.
  intros Hk. rewrite scored_other_column; [done|].
  intros Hin. unfold derived_columns in Hin.
  repeat (apply elem_of_cons in Hin as [->|Hin]); [..|by apply elem_of_nil in Hin];
    by vm_compute in Hk.
Qed.

(** * The ranked list of [main] *)

(** ** Facts about taking rows by position *)

Lemma array_take_Ok {A} (a : list A) (indexer : list nat) :
  Forall (λ i, (i < length a)%nat) indexer →
  ∃ b, array_take a indexer = Ok b ∧ length b = length indexer ∧
       ∀ p i, indexer !! p = Some i → b !! p = a !! i.
Proof.
  intros Hin. unfold array_take.
  destruct (mapM (λ i, a !! i) indexer) as [b|] eqn:Hb.
  - exists b. split; [done|].
    split; [symmetry; by eapply length_mapM|].
    apply mapM_Some in Hb. intros p i Hp.
    destruct (Forall2_lookup_l _ _ _ _ _ Hb Hp) as (y & Hy & Hai). congruence.
  - exfalso. assert (is_Some (mapM (λ i, a !! i) indexer)) as [? ?]; [|congruence].
    apply mapM_is_Some. eapply Forall_impl; [exact Hin|].
    intros i Hi. by apply lookup_lt_is_Some_2.
Qed.

Lemma Series_reverse_len (s : Series) : Series_len (Series_reverse s) = Series_len s.
Proof. destruct s; simpl; by rewrite length_reverse. Qed.

Lemma reverse_seq_lookup (n k : nat) :
  (k < n)%nat → reverse (seq 0 n) !! k = Some (n - 1 - k)%nat.
Proof.
  intros Hk. rewrite reverse_lookup by (rewrite length_seq; lia).
  rewrite length_seq, lookup_seq_lt by lia. f_equal. lia.
Qed.

Lemma permutation_seq_bound (l : list nat) (n : nat) :
  l ≡ₚ seq 0 n → Forall (λ i, (i < n)%nat) l.
Proof.
  intros Hp. apply Forall_forall. intros i Hi.
  rewrite Hp in Hi. apply elem_of_seq in Hi. lia.
Qed.

Lemma mirror_seq (n : nat) :
  (λ k, n - 1 - k)%nat <$> seq 0 n = reverse (seq 0 n).
Proof.
  apply list_eq. intros k. rewrite list_lookup_fmap.
  destruct (decide (k < n)%nat) as [Hk|Hk].
  - rewrite lookup_seq_lt, reverse_seq_lookup by lia. done.
  - rewrite !lookup_ge_None_2; [done| |]; rewrite ?length_reverse, length_seq; lia.
Qed.

Section Ranking_facts.

Variable argsort : Series → list nat.
Hypothesis Hperm : argsort_permutes argsort.
Hypothesis Hasc : argsort_ascends argsort.

(** The positions [nargsort] answers: the ascending order of the reversed
    column, mapped back and reversed. *)
Lemma nargsort_descending_run (items : Series) :
  nargsort_descending argsort items =
  Ok (reverse ((λ k, Series_len items - 1 - k)%nat <$> argsort (Series_reverse items))).
Proof.
  unfold nargsort_descending.
  set (n := Series_len items). set (a := argsort (Series_reverse items)).
  assert (Forall (λ k, (k < n)%nat) a) as Hbound.
  { apply permutation_seq_bound. unfold a, n.
    rewrite <- Series_reverse_len. apply Hperm. }
  destruct (array_take_Ok (reverse (seq 0 n)) a) as (b & -> & Hlen & Hb).
  { by rewrite length_reverse, length_seq. }
  change (Ok (reverse b) = Ok (reverse ((λ k, n - 1 - k)%nat <$> a))).
  do 2 f_equal. apply list_eq. intros p. rewrite list_lookup_fmap.
  destruct (a !! p) as [k|] eqn:Hk.
  - rewrite (Hb p k Hk). simpl.
    apply reverse_seq_lookup. by apply (proj1 (Forall_lookup _ _) Hbound p).
  - simpl. apply lookup_ge_None_2. apply lookup_ge_None_1 in Hk. lia.
Qed.

Lemma nargsort_descending_permutes (items : Series) (indexer : list nat) :
  nargsort_descending argsort items = Ok indexer →
  indexer ≡ₚ seq 0 (Series_len items).
Proof.
  rewrite nargsort_descending_run. intros [= <-].
  rewrite reverse_Permutation.
  rewrite (Hperm (Series_reverse items)), Series_reverse_len, mirror_seq.
  apply reverse_Permutation.
Qed.

(** Along the positions [nargsort] answers, the scores do not increase. *)
Lemma nargsort_descending_descends (scores : list Q) (indexer : list nat)
    (p q i j : nat) (x y : Q) :
  nargsort_descending argsort (Float64 scores) = Ok indexer →
  (p ≤ q)%nat → indexer !! p = Some i → indexer !! q = Some j →
  scores !! i = Some x → scores !! j = Some y → y <= x.
Proof.
  rewrite nargsort_descending_run. intros [= <-] Hpq Hp Hq Hx Hy.
  simpl in *.
  set (n := length scores) in *.
  set (a := argsort (Float64 (reverse scores))) in *.
  assert (length a = n) as Hlen.
  { unfold a. rewrite (Hperm (Float64 (reverse scores))). simpl.
    by rewrite length_seq, length_reverse. }
  assert (Forall (λ k, (k < n)%nat) a) as Hbound.
  { apply permutation_seq_bound. unfold a.
    rewrite (Hperm (Float64 (reverse scores))). simpl. by rewrite length_reverse. }
  pose proof (lookup_lt_Some _ _ _ Hp) as Hp'.
  pose proof (lookup_lt_Some _ _ _ Hq) as Hq'.
  rewrite length_reverse, length_fmap in Hp', Hq'.
  rewrite reverse_lookup, list_lookup_fmap in Hp by (rewrite length_fmap; lia).
  rewrite reverse_lookup, list_lookup_fmap in Hq by (rewrite length_fmap; lia).
  rewrite length_fmap in Hp, Hq.
  destruct (a !! (length a - S p)%nat) as [kp|] eqn:Hkp; [|done].
  destruct (a !! (length a - S q)%nat) as [kq|] eqn:Hkq; [|done].
  simpl in Hp, Hq. injection Hp as <-. injection Hq as <-.
  pose proof (proj1 (Forall_lookup _ _) Hbound _ _ Hkp) as Bp.
  pose proof (proj1 (Forall_lookup _ _) Hbound _ _ Hkq) as Bq.
  apply (Hasc (reverse scores) (length a - S q)%nat (length a - S p)%nat kq kp y x);
    try done; try lia; unfold n in *.
  - rewrite reverse_lookup by lia. rewrite <- Hy. f_equal. lia.
  - rewrite reverse_lookup by lia. rewrite <- Hx. f_equal. lia.
Qed.

End Ranking_facts.

(** ** The insertion sorts keep the promise of [argsort] *)

Section Insertion.

Variable before : Q → Q → bool.
Hypothesis before_true : ∀ x y, before x y = true → x <= y.
Hypothesis before_false : ∀ x y, before x y = false → y <= x.

Lemma insert_position_permutes (xs : list Q) (i : nat) (l : list nat) :
  insert_position before xs i l ≡ₚ i :: l.
Proof.
  induction l as [|j l IH]; simpl; [done|].
  destruct (before (key xs i) (key xs j)); [done|].
  rewrite IH. apply Permutation_swap.
Qed.

Lemma insertion_argsort_permutes : argsort_permutes (insertion_argsort before).
Proof.
  intros [xs|xs]; simpl; [|done].
  induction (seq 0 (length xs)) as [|i l IH]; simpl; [done|].
  by rewrite insert_position_permutes, IH.
Qed.

Lemma insert_position_sorted (xs : list Q) (i : nat) (l : list nat) :
  StronglySorted (λ a b, key xs a <= key xs b) l →
  StronglySorted (λ a b, key xs a <= key xs b) (insert_position before xs i l).
Proof.
  induction l as [|j l IH]; simpl; intros Hs.
  - repeat constructor.
  - apply StronglySorted_cons in Hs as [Hj Hl].
    destruct (before (key xs i) (key xs j)) eqn:Hb.
    + apply before_true in Hb.
      apply StronglySorted_cons. split.
      * constructor; [done|].
        eapply Forall_impl; [exact Hj|]. intros k Hk. simpl in Hk.
        by eapply Qle_trans.
      * by apply StronglySorted_cons.
    + apply before_false in Hb.
      apply StronglySorted_cons. split; [|by apply IH].
      rewrite insert_position_permutes. by constructor.
Qed.

Lemma StronglySorted_lookup_lt {A} (R : relation A) (l : list A)
    (p q : nat) (a b : A) :
  StronglySorted R l → (p < q)%nat → l !! p = Some a → l !! q = Some b → R a b.
Proof.
  intros Hs. revert p q. induction Hs as [|c l Hs IH Hc]; intros p q Hpq Hp Hq.
  - done.
  - destruct q as [|q]; [lia|]. destruct p as [|p]; simpl in *.
    + injection Hp as ->.
      by apply (proj1 (Forall_lookup _ _) Hc q b).
    + apply (IH p q); [lia|done..].
Qed.

Lemma foldr_insert_position_sorted (xs : list Q) (l : list nat) :
  StronglySorted (λ a b, key xs a <= key xs b)
    (foldr (insert_position before xs) [] l).
Proof.
  induction l as [|k l IH]; simpl; [constructor|].
  by apply insert_position_sorted.
Qed.

Lemma insertion_argsort_ascends : argsort_ascends (insertion_argsort before).
Proof.
  intros xs p q i j x y Hpq Hp Hq Hx Hy. simpl in Hp, Hq.
  pose proof (foldr_insert_position_sorted xs (seq 0 (length xs))) as Hs.
  assert (key xs i = x) as <- by (unfold key; by rewrite Hx).
  assert (key xs j = y) as <- by (unfold key; by rewrite Hy).
  destruct (decide (p = q)) as [->|Hne].
  - rewrite Hp in Hq. injection Hq as ->. apply Qle_refl.
  - apply (StronglySorted_lookup_lt _ _ p q i j Hs); [lia|done..].
Qed.

End Insertion.

Lemma Qle_bool_false (x y : Q) : Qle_bool x y = false → y <= x.
Proof.
  intros Hf. apply Qlt_le_weak, Qnot_le_lt. intros Hle.
  apply Qle_bool_iff in Hle. congruence.
Qed.

Lemma stable_argsort_permutes : argsort_permutes stable_argsort.
Proof. apply insertion_argsort_permutes. Qed.

Lemma stable_argsort_ascends : argsort_ascends stable_argsort.
Proof.
  apply insertion_argsort_ascends.
  - intros x y. apply Qle_bool_iff.
  - apply Qle_bool_false.
Qed.

(** ** The ranked table *)

Lemma Series_take_Ok (s : Series) (indexer : list nat) :
  Forall (λ i, (i < Series_len s)%nat) indexer →
  ∃ t, Series_take s indexer = Ok t ∧ Series_len t = length indexer ∧
       ∀ p i, indexer !! p = Some i → Series_cell t p = Series_cell s i.
Proof.
  intros Hin. destruct s as [xs|xs]; simpl in *.
  - destruct (array_take_Ok xs indexer Hin) as (b & -> & Hlen & Hb).
    exists (Float64 b). split; [done|]. split; [done|].
    intros p i Hp. simpl. by rewrite (Hb p i Hp).
  - destruct (array_take_Ok xs indexer Hin) as (b & -> & Hlen & Hb).
    exists (Object b). split; [done|]. split; [done|].
    intros p i Hp. simpl. by rewrite (Hb p i Hp).
Qed.

Lemma ranks_from_one (n : nat) : (λ i, i + 1)%nat <$> seq 0 n = seq 1 n.
Proof.
  rewrite <- fmap_S_seq. apply list_fmap_ext. intros _ i _. lia.
Qed.

(** The table [main] builds from a scored frame, for any sort that keeps
    the promise of [argsort]. *)
Lemma ranked_df_run (argsort : Series → list nat) (g : DataFrame)
    (regions : Series) (scores : list Q) (n : nat) :
  argsort_permutes argsort →
  g !! "Region" = Some regions →
  g !! "Solar_Site_Suitability_Score" = Some (Float64 scores) →
  Series_len regions = n → length scores = n →
  ∃ indexer t ranked_scores,
    nargsort_descending argsort (Float64 scores) = Ok indexer ∧
    ranked_df argsort g = Ok t ∧
    indexer ≡ₚ seq 0 n ∧
    Rank t = seq 1 n ∧
    Score t = Float64 ranked_scores ∧ length ranked_scores = n ∧
    Series_len (Region t) = n ∧
    ∀ p i, indexer !! p = Some i →
      Series_cell (Region t) p = Series_cell regions i ∧
      ranked_scores !! p = scores !! i.
Proof.
  intros Hperm Hr Hs Lr Ls.
  pose proof (nargsort_descending_run argsort Hperm (Float64 scores)) as Hrun.
  set (indexer := reverse _) in Hrun.
  pose proof (nargsort_descending_permutes argsort Hperm _ _ Hrun) as Hp.
  simpl in Hp. rewrite Ls in Hp.
  pose proof (permutation_seq_bound _ _ Hp) as Hbound.
  assert (length indexer = n) as Li by (by rewrite Hp, length_seq).
  destruct (Series_take_Ok regions indexer) as (r & Hr' & Lr' & Cr);
    [by rewrite Lr|].
  destruct (array_take_Ok scores indexer) as (s & Hs' & Ls' & Cs);
    [by rewrite Ls|].
  exists indexer, {| Rank := seq 1 n; Region := r; Score := Float64 s |}, s.
  split; [done|]. split.
  - unfold ranked_df. rewrite Hr, Hs, Hrun.
    cbn [mbind result_bind]. rewrite Hr'.
    cbn [mbind result_bind Series_take]. rewrite Hs'.
    cbn [mbind result_bind mret result_ret Series_len].
    by rewrite ranks_from_one, Ls', Li.
  - simpl. split; [done|]. split; [done|]. split; [done|].
    split; [congruence|]. split; [congruence|].
    intros p i Hpi. split; [by apply Cr | by apply Cs].
Qed.

Lemma level_valid : valid_batch level level_metrics 18.
Proof. valid_batch_by_computation. Qed.

(** Quicksort on eighteen equal scores: the partition exchanges equal
    values, and the positions come out in another order. *)
Example quicksort_of_equal_values :
  numpy.argsort (replicate 18 0)
  = Some [0; 15; 14; 13; 12; 11; 10; 9; 8; 7; 6; 5; 4; 3; 2; 1; 16; 17]%nat.
Proof. vm_compute. reflexivity. Qed.

(** The eighteen regions of [level] have the same score (0, whether the
    arithmetic rounds or not: every metric is constant), and quicksort
    ranks the seventeenth region third, before the sixteenth. *)
Lemma ranking_can_reorder_ties : ¬ ranking_keeps_batch_order_of_ties.
Proof.
  intros Hstable.
  assert (returns [level] 0%nat (scored level level_metrics)) as Hret.
  { apply (returns_scored _ _ _ _ 18%nat); [reflexivity | exact level_valid]. }
  specialize (Hstable [level] 0%nat level level_metrics 18%nat
                (scored level level_metrics)
                (Solar_Site_Suitability_Score (normalized_metrics level_metrics))
                [0; 1; 16; 15; 14; 13; 12; 11; 10; 9; 8; 7; 6; 5; 4; 3; 2; 17]%nat
                eq_refl level_valid Hret).
  assert (16 < 15)%nat; [|lia].
  eapply (Hstable ltac:(unfold scored; by rewrite lookup_insert_eq)
            ltac:(vm_compute; reflexivity) 2%nat 3%nat 16%nat 15%nat).
  - lia.
  - reflexivity.
  - reflexivity.
  - vm_compute. reflexivity.
  - vm_compute. reflexivity.
  - reflexivity.
Qed.

Example level_ranked_by_quicksort :
  ∃ s, ranked_df quicksort_argsort (scored level level_metrics) =
       Ok {| Rank := seq 1 18;
             Region := Object ["R01"; "R02"; "R17"; "R16"; "R15"; "R14"; "R13";
                               "R12"; "R11"; "R10"; "R09"; "R08"; "R07"; "R06";
                               "R05"; "R04"; "R03"; "R18"];
             Score := Float64 (replicate 18 s) |}.
Proof. eexists. vm_compute. reflexivity. Qed.

(** C7, amended. For a valid batch of [n] regions and any sort that keeps
    the promise of [argsort], the ranked table holds the rows (region,
    score) of the scored batch, permuted, with scores that do not increase
    down the table, and the ranks are 1, ..., [n] from the top: rank 1 goes
    to a highest score.  Nothing is promised on the order of equal scores. *)
Theorem ranked_list_sorted_and_numbered
    (argsort : Series → list nat)
    (h : store) (df : loc) (f : DataFrame) (m : Metrics) (n : nat)
    (regions : Series) :
  argsort_permutes argsort → argsort_ascends argsort →
  h !! df = Some f → valid_batch f m n →
  f !! "Region" = Some regions → Series_len regions = n →
  ∃ g scores indexer t ranked_scores,
    returns h df g ∧
    g !! "Region" = Some regions ∧
    g !! "Solar_Site_Suitability_Score" = Some (Float64 scores) ∧
    length scores = n ∧
    ranked_df argsort g = Ok t ∧
    indexer ≡ₚ seq 0 n ∧
    Rank t = seq 1 n ∧
    Score t = Float64 ranked_scores ∧ length ranked_scores = n ∧
    Series_len (Region t) = n ∧
    (∀ p i, indexer !! p = Some i →
       Series_cell (Region t) p = Series_cell regions i ∧
       ranked_scores !! p = scores !! i) ∧
    (∀ p q x y, (p ≤ q)%nat →
       ranked_scores !! p = Some x → ranked_scores !! q = Some y → y <= x).
Proof.
  intros Hperm Hasc Hdf Hv Hregions Lr.
  pose proof Hv as (_ & Hrows & _).
  set (g := scored f m).
  set (scores := Solar_Site_Suitability_Score (normalized_metrics m)).
  assert (g !! "Region" = Some regions) as Hr.
  { unfold g. rewrite scored_other_column; [done|].
    unfold derived_columns. rewrite !not_elem_of_cons. repeat split; try done.
    apply not_elem_of_nil. }
  assert (g !! "Solar_Site_Suitability_Score" = Some (Float64 scores)) as Hs.
  { unfold g, scored. by rewrite lookup_insert_eq. }
  assert (length scores = n) as Ls.
  { destruct (normalized_metrics_rows m n Hrows) as (? & ? & ? & ? & ? & ?).
    by apply score_length. }
  destruct (ranked_df_run argsort g regions scores n Hperm Hr Hs Lr Ls)
    as (indexer & t & ranked & Hrun & Ht & Hp & Hrank & Hscore & Lranked & Lreg & Hrowsof).
  exists g, scores, indexer, t, ranked.
  split; [by eapply returns_scored|].
  do 9 (split; [done|]). split; [done|].
  intros p q x y Hpq Hx Hy.
  assert (length indexer = n) as Li by (by rewrite Hp, length_seq).
  destruct (lookup_lt_is_Some_2 indexer p) as [i Hi];
    [apply lookup_lt_Some in Hx; lia|].
  destruct (lookup_lt_is_Some_2 indexer q) as [j Hj];
    [apply lookup_lt_Some in Hy; lia|].
  destruct (Hrowsof p i Hi) as [_ Hxi]. destruct (Hrowsof q j Hj) as [_ Hyj].
  rewrite Hx in Hxi. rewrite Hy in Hyj.
  by apply (nargsort_descending_descends argsort Hperm Hasc scores indexer p q i j x y).
Qed.

Lemma ranked_list_sorted_and_numbered_witness :
  ∃ g scores indexer t ranked_scores,
    returns [scenario] 0%nat g ∧
    g !! "Region" = Some (Object ["A"; "B"; "C"]) ∧
    g !! "Solar_Site_Suitability_Score" = Some (Float64 scores) ∧
    length scores = 3%nat ∧
    ranked_df stable_argsort g = Ok t ∧
    indexer ≡ₚ seq 0 3 ∧
    Rank t = seq 1 3 ∧
    Score t = Float64 ranked_scores ∧ length ranked_scores = 3%nat ∧
    Series_len (Region t) = 3%nat ∧
    (∀ p i, indexer !! p = Some i →
       Series_cell (Region t) p = Series_cell (Object ["A"; "B"; "C"]) i ∧
       ranked_scores !! p = scores !! i) ∧
    (∀ p q x y, (p ≤ q)%nat →
       ranked_scores !! p = Some x → ranked_scores !! q = Some y → y <= x).
Proof.
  apply (ranked_list_sorted_and_numbered stable_argsort
           [scenario] 0%nat scenario scenario_metrics 3%nat
           (Object ["A"; "B"; "C"])).
  - exact stable_argsort_permutes.
  - exact stable_argsort_ascends.
  - reflexivity.
  - valid_batch_by_computation.
  - vm_compute. reflexivity.
  - reflexivity.
Defined.

(** The scenario ranked: B first, then C, then A. *)
Example scenario_ranked :
  ∃ sB sC sA,
    ranked_df stable_argsort (scored scenario scenario_metrics) =
    Ok {| Rank := [1; 2; 3]%nat; Region := Object ["B"; "C"; "A"];
          Score := Float64 [sB; sC; sA] |}.
Proof. eexists _, _, _. vm_compute. reflexivity. Qed.

(** * A metric column that is missing *)

Lemma normalize_last_missing (h : store) (g : DataFrame) (dst src : string) :
  g !! src = None →
  normalize (length h) dst src (h ++ [g]) = (Raise (KeyError src), h ++ [g]).
Proof.
  intros Hsrc. unfold normalize.
  by rewrite bind_run, (getitem_last_missing _ _ _ Hsrc).
Qed.

Ltac run_step :=
  rewrite bind_run;
  first
    [ erewrite getitem_last by (first [eassumption | by simplify_map_eq])
    | erewrite getitem_last_missing by (by simplify_map_eq)
    | rewrite setitem_last
    | erewrite normalize_last; [ | by simplify_map_eq | done ]
    | erewrite normalize_last_missing by (by simplify_map_eq)
    | unfold lift at 1; cbn [rsub max_minus Series_max] ].

(** X1. When a metric column is missing and the metric columns read before
    it are numeric with at least one row, the scorer raises [KeyError] for
    the first missing column in reading order (grid access, terrain,
    irradiance, infrastructure, cost, population density); the frame of
    the caller is unchanged. *)
Theorem missing_metric_raises_KeyError
    (h : store) (df : loc) (f : DataFrame) (before after : list string) (k : string) :
  h !! df = Some f →
  read_order = before ++ k :: after →
  Forall (numeric_column f) before →
  f !! k = None →
  ∃ h', create_solar_site_suitability_score df h = (Raise (KeyError k), h') ∧
        h' !! df = Some f.
Proof.
  intros Hdf Horder Hbefore Hk.
  assert (∃ g, create_solar_site_suitability_score df h
               = (Raise (KeyError k), h ++ [g])) as [g Hg].
  2: { exists (h ++ [g]). split; [done | by apply store_lookup_old]. }
  unfold read_order in Horder.
  unfold create_solar_site_suitability_score.
  rewrite bind_run, (copy_run _ _ _ Hdf).
  repeat (destruct before as [|? before];
          [ injection Horder as <- <- | injection Horder as <- Horder ]);
    try (by destruct before);
    repeat match goal with
           | H : Forall _ (_ :: _) |- _ =>
               apply Forall_cons in H as [(? & ? & ?) ?]
           end;
    repeat run_step; eauto.
Qed.

Lemma missing_metric_raises_KeyError_witness :
  ∃ h', create_solar_site_suitability_score 0%nat [no_infrastructure]
        = (Raise (KeyError "Infrastructure_Index"), h') ∧
        h' !! 0%nat = Some no_infrastructure.
Proof.
  apply (missing_metric_raises_KeyError [no_infrastructure] 0%nat no_infrastructure
           [ "Grid_Access_Percent"; "Terrain_Ruggedness_Score";
             "Solar_Irradiance_kWh_m2_day" ]
           [ "Electricity_Cost_USD_per_kWh"; "Rural_Pop_Density_per_km2" ]
           "Infrastructure_Index").
  - reflexivity.
  - reflexivity.
  - repeat constructor; eexists _, _; vm_compute; reflexivity.
  - vm_compute. reflexivity.
Defined.

(** * A metric column of text *)

(** X2. When the grid access column holds text, or the grid access is
    numeric and the ruggedness column holds text, the inversion raises
    [TypeError]; the frame of the caller is unchanged. *)
Theorem text_in_inverted_metric_raises_TypeError
    (h : store) (df : loc) (f : DataFrame) :
  h !! df = Some f →
  (∃ s ss, f !! "Grid_Access_Percent" = Some (Object (s :: ss))) ∨
  (∃ xs s ss, f !! "Grid_Access_Percent" = Some (Float64 xs) ∧
              f !! "Terrain_Ruggedness_Score" = Some (Object (s :: ss))) →
  ∃ h', create_solar_site_suitability_score df h = (Raise TypeError, h') ∧
        h' !! df = Some f.
Proof.
  intros Hdf Htext.
  unfold create_solar_site_suitability_score.
  rewrite bind_run, (copy_run _ _ _ Hdf).
  destruct Htext as [(s & ss & Hg) | (xs & s & ss & Hg & Ht)].
  - do 2 run_step. eexists. split; [done | by apply store_lookup_old].
  - do 5 run_step. eexists. split; [done | by apply store_lookup_old].
Qed.

Lemma text_in_inverted_metric_raises_TypeError_witness :
  ∃ h', create_solar_site_suitability_score 0%nat [grid_as_text] = (Raise TypeError, h') ∧
        h' !! 0%nat = Some grid_as_text.
Proof.
  apply (text_in_inverted_metric_raises_TypeError [grid_as_text] 0%nat grid_as_text).
  - reflexivity.
  - left. eexists _, _. vm_compute. reflexivity.
Defined.

(** * The score follows the metrics *)

Lemma scale_positive (x : Q) (xs : list Q) :
  0 < MinMaxScaler.scale_ (MinMaxScaler.fit x xs).
Proof.
  unfold MinMaxScaler.fit; simpl.
  apply Qlt_shift_div_l; [apply handle_zeros_in_scale_pos | reflexivity].
Qed.

(** Normalization keeps the order of the values of a column. *)
Lemma normalized_monotone (xs : list Q) (i j : nat) (a b ya yb : Q) :
  xs !! i = Some a → xs !! j = Some b → a <= b →
  normalized xs !! i = Some ya → normalized xs !! j = Some yb → ya <= yb.
Proof.
  destruct xs as [|x xs]; [done|].
  unfold normalized, MinMaxScaler.transform.
  rewrite !list_lookup_fmap. intros -> -> Hab [= <-] [= <-].
  pose proof (scale_positive x xs) as Hs.
  apply Qplus_le_l, Qmult_le_compat_r; [done | by apply Qlt_le_weak].
Qed.

Lemma scored_norm_cells (f : DataFrame) (m : Metrics) (i : nat) :
  cell (scored f m) "Solar_Irradiance_norm" i
    = normalized (Solar_Irradiance_kWh_m2_day m) !! i ∧
  cell (scored f m) "Grid_Access_inverse_norm" i
    = normalized (Grid_Access_inverse m) !! i ∧
  cell (scored f m) "Infrastructure_Index_norm" i
    = normalized (Infrastructure_Index m) !! i ∧
  cell (scored f m) "Electricity_Cost_norm" i
    = normalized (Electricity_Cost_USD_per_kWh m) !! i ∧
  cell (scored f m) "Rural_Pop_Density_norm" i
    = normalized (Rural_Pop_Density_per_km2 m) !! i ∧
  cell (scored f m) "Terrain_Ruggedness_inverse_norm" i
    = normalized (Terrain_Ruggedness_inverse m) !! i.
Proof. unfold cell, scored. repeat apply conj; by simplify_map_eq. Qed.

Lemma Grid_Access_inverse_lookup (m : Metrics) (i : nat) (x : Q) :
  Grid_Access_Percent m !! i = Some x →
  Grid_Access_inverse m !! i = Some (100 - x).
Proof. intros Hx. unfold Grid_Access_inverse. by rewrite list_lookup_fmap, Hx. Qed.

Lemma Terrain_Ruggedness_inverse_lookup (m : Metrics) (i : nat) (x : Q) :
  Terrain_Ruggedness_Score m !! i = Some x →
  ∃ top, Series_max (Terrain_Ruggedness_Score m) = Some top ∧
         Terrain_Ruggedness_inverse m !! i = Some (top - x).
Proof.
  intros Hx. unfold Terrain_Ruggedness_inverse.
  destruct (Series_max (Terrain_Ruggedness_Score m)) as [top|] eqn:Htop.
  - exists top. split; [done|]. by rewrite list_lookup_fmap, Hx.
  - by destruct (Terrain_Ruggedness_Score m).
Qed.

(** X3. Within one valid batch, a region that is at most as good as
    another on every metric (less or equal irradiance, infrastructure,
    electricity cost and population density, more or equal grid access and
    ruggedness) has a suitability score that is at most the other's. *)
Theorem score_follows_the_metrics
    (h : store) (df : loc) (f : DataFrame) (m : Metrics) (n i j : nat) :
  h !! df = Some f → valid_batch f m n → dominated m i j →
  ∃ g si sj, returns h df g ∧
    cell g "Solar_Site_Suitability_Score" i = Some si ∧
    cell g "Solar_Site_Suitability_Score" j = Some sj ∧
    si <= sj.
Proof.
  intros Hdf Hv Hdom. pose proof Hv as (_ & Hrows & _).
  destruct Hdom as (si & sj & gi & gj & ii & ij & ci & cj & pi & pj & ti & tj & Hd).
  destruct Hd as (Hsi & Hsj & Ls & Hgi & Hgj & Lg & Hii & Hij & Li &
                  Hci & Hcj & Lc & Hpi & Hpj & Lp & Hti & Htj & Lt).
  assert (i < n)%nat as Hi.
  { apply lookup_lt_Some in Hsi. destruct Hrows as (<- & _). done. }
  assert (j < n)%nat as Hj.
  { apply lookup_lt_Some in Hsj. destruct Hrows as (<- & _). done. }
  destruct (scored_row f m n i Hrows Hi) as (ri & Hri & _ & Hscore_i).
  destruct (scored_row f m n j Hrows Hj) as (rj & Hrj & _ & Hscore_j).
  exists (scored f m), (weighted_sum ri), (weighted_sum rj).
  split; [by eapply returns_scored|]. split; [done|]. split; [done|].
  destruct (norm_row_cells _ _ _ Hri) as (Ai & Bi & Ci & Di & Ei & Ti).
  destruct (norm_row_cells _ _ _ Hrj) as (Aj & Bj & Cj & Dj & Ej & Tj).
  destruct (scored_norm_cells f m i) as (Ni1 & Ni2 & Ni3 & Ni4 & Ni5 & Ni6).
  destruct (scored_norm_cells f m j) as (Nj1 & Nj2 & Nj3 & Nj4 & Nj5 & Nj6).
  rewrite Ai in Ni1. rewrite Bi in Ni2. rewrite Ci in Ni3.
  rewrite Di in Ni4. rewrite Ei in Ni5. rewrite Ti in Ni6.
  rewrite Aj in Nj1. rewrite Bj in Nj2. rewrite Cj in Nj3.
  rewrite Dj in Nj4. rewrite Ej in Nj5. rewrite Tj in Nj6.
  destruct (Terrain_Ruggedness_inverse_lookup m i ti Hti) as (top & Htop & Hti').
  destruct (Terrain_Ruggedness_inverse_lookup m j tj Htj) as (top' & Htop' & Htj').
  rewrite Htop in Htop'. injection Htop' as <-.
  assert (solar_norm ri <= solar_norm rj) as H1
    by (eapply (normalized_monotone _ i j si sj); eauto).
  assert (grid_inverse_norm ri <= grid_inverse_norm rj) as H2.
  { eapply (normalized_monotone _ i j (100 - gi) (100 - gj));
      eauto using Grid_Access_inverse_lookup. lra. }
  assert (infra_norm ri <= infra_norm rj) as H3
    by (eapply (normalized_monotone _ i j ii ij); eauto).
  assert (cost_norm ri <= cost_norm rj) as H4
    by (eapply (normalized_monotone _ i j ci cj); eauto).
  assert (pop_norm ri <= pop_norm rj) as H5
    by (eapply (normalized_monotone _ i j pi pj); eauto).
  assert (terrain_inverse_norm ri <= terrain_inverse_norm rj) as H6.
  { eapply (normalized_monotone _ i j (top - ti) (top - tj)); eauto. lra. }
  unfold weighted_sum. lra.
Qed.

Lemma score_follows_the_metrics_witness :
  ∃ g si sj, returns [leader] 0%nat g ∧
    cell g "Solar_Site_Suitability_Score" 0 = Some si ∧
    cell g "Solar_Site_Suitability_Score" 1 = Some sj ∧
    si <= sj.
Proof.
  apply (score_follows_the_metrics [leader] 0%nat leader leader_metrics
           3%nat 0%nat 1%nat).
  - reflexivity.
  - valid_batch_by_computation.
  - unfold dominated. do 12 eexists.
    repeat apply conj; first [ reflexivity | by vm_compute ].
Defined.

(** * The minimum of a column *)

Lemma data_min_elem (x : Q) (xs : list Q) :
  Exists (λ v, v == MinMaxScaler.data_min x xs) (x :: xs).
Proof.
  unfold MinMaxScaler.data_min. induction xs as [|y ys IH]; simpl.
  - constructor. reflexivity.
  - destruct (Q.min_spec y (fold_right Qmin x ys)) as [[_ Hm]|[_ Hm]].
    + apply Exists_cons_tl. constructor. by rewrite Hm.
    + inversion IH as [? ? Hx|? ? Hys]; subst.
      * constructor. by rewrite Hm.
      * do 2 apply Exists_cons_tl.
        eapply Exists_impl; [exact Hys|].
        intros v Hv. simpl in Hv. by rewrite Hm.
Qed.

(** * Scoring a scored frame *)

Lemma scored_scored (f : DataFrame) (m : Metrics) :
  scored (scored f m) m = scored f m.
Proof.
  apply map_eq. intros k. unfold scored.
  do 9 (rewrite (lookup_insert _ _ k); case_decide;
        [subst k; by simplify_map_eq|]).
  by rewrite !lookup_insert_ne.
Qed.

Lemma scored_has_metrics (f : DataFrame) (m : Metrics) :
  has_metrics f m → has_metrics (scored f m) m.
Proof.
  unfold has_metrics. intros (H1 & H2 & H3 & H4 & H5 & H6).
  repeat apply conj;
    (rewrite scored_other_column; [done|];
     unfold derived_columns; rewrite !not_elem_of_cons;
     repeat apply conj; try done; apply not_elem_of_nil).
Qed.

(** X6. Scoring is idempotent: calling the scorer on the frame it returned
    for a valid batch succeeds and returns, as another new object, a frame
    with the same columns and values; the first result is left as it was. *)
Theorem scoring_a_scored_frame_changes_nothing
    (h : store) (df : loc) (f : DataFrame) (m : Metrics) (n : nat) :
  h !! df = Some f → valid_batch f m n →
  ∃ l1 h1 l2 h2 g,
    create_solar_site_suitability_score df h = (Ok l1, h1) ∧
    create_solar_site_suitability_score l1 h1 = (Ok l2, h2) ∧
    h1 !! l1 = Some g ∧ h2 !! l2 = Some g ∧ h2 !! l1 = Some g ∧
    h2 !! df = Some f ∧ l1 ≠ l2.
Proof.
  intros Hdf Hv.
  pose proof (create_run h df f m n Hdf Hv) as Hrun1.
  assert (valid_batch (scored f m) m n) as Hv'.
  { destruct Hv as (Hm & Hrows & Hn). split; [by apply scored_has_metrics|done]. }
  pose proof (create_run (h ++ [scored f m]) (length h) (scored f m) m n
                (store_lookup_last _ _) Hv') as Hrun2.
  rewrite scored_scored in Hrun2.
  eexists _, _, _, _, (scored f m).
  split; [exact Hrun1|]. split; [exact Hrun2|].
  split; [apply store_lookup_last|]. split; [apply store_lookup_last|].
  split; [apply store_lookup_old, store_lookup_last|].
  split; [by do 2 apply store_lookup_old|].
  rewrite length_app. simpl. lia.
Qed.

Lemma scoring_a_scored_frame_changes_nothing_witness :
  ∃ l1 h1 l2 h2 g,
    create_solar_site_suitability_score 0%nat [scenario] = (Ok l1, h1) ∧
    create_solar_site_suitability_score l1 h1 = (Ok l2, h2) ∧
    h1 !! l1 = Some g ∧ h2 !! l2 = Some g ∧ h2 !! l1 = Some g ∧
    h2 !! 0%nat = Some scenario ∧ l1 ≠ l2.
Proof.
  apply (scoring_a_scored_frame_changes_nothing
           [scenario] 0%nat scenario scenario_metrics 3%nat).
  - reflexivity.
  - valid_batch_by_computation.
Defined.

(** * Running [main] *)

Lemma frame_of_last (h : store) (g : DataFrame) :
  frame_of (length h) (h ++ [g]) = (Ok g, h ++ [g]).
Proof. unfold frame_of. by rewrite store_lookup_last. Qed.

Lemma scored_region (f : DataFrame) (m : Metrics) :
  scored f m !! "Region" = f !! "Region".
Proof.
  apply scored_other_column. unfold derived_columns.
  rewrite !not_elem_of_cons. repeat apply conj; try done. apply not_elem_of_nil.
Qed.

Lemma scored_score (f : DataFrame) (m : Metrics) :
  scored f m !! "Solar_Site_Suitability_Score"
  = Some (Float64 (Solar_Site_Suitability_Score (normalized_metrics m))).
Proof. unfold scored. by rewrite lookup_insert_eq. Qed.

(** The seven columns of the metrics table, for the rows a mask selects. *)
Lemma display_columns_of_scored (f : DataFrame) (m : Metrics) (mask : list bool) :
  has_metrics f m →
  frame_getitems (Series_mask mask <$> scored f m) display_cols =
  Ok [ ("Solar_Irradiance_kWh_m2_day",
        Float64 (boolean_mask mask (Solar_Irradiance_kWh_m2_day m)));
       ("Rural_Pop_Density_per_km2",
        Float64 (boolean_mask mask (Rural_Pop_Density_per_km2 m)));
       ("Grid_Access_Percent",
        Float64 (boolean_mask mask (Grid_Access_Percent m)));
       ("Infrastructure_Index",
        Float64 (boolean_mask mask (Infrastructure_Index m)));
       ("Electricity_Cost_USD_per_kWh",
        Float64 (boolean_mask mask (Electricity_Cost_USD_per_kWh m)));
       ("Terrain_Ruggedness_Score",
        Float64 (boolean_mask mask (Terrain_Ruggedness_Score m)));
       ("Solar_Site_Suitability_Score",
        Float64 (boolean_mask mask
                   (Solar_Site_Suitability_Score (normalized_metrics m)))) ].
Proof.
  intros Hm. destruct (scored_has_metrics f m Hm) as (H1 & H2 & H3 & H4 & H5 & H6).
  unfold display_cols, frame_getitems.
  rewrite !lookup_fmap, H1, H2, H3, H4, H5, H6, scored_score.
  reflexivity.
Qed.

Lemma Series_cells_length (s : Series) : length (Series_cells s) = Series_len s.
Proof. destruct s; simpl; by rewrite length_fmap. Qed.

Lemma iloc_first (s : Series) :
  (0 < Series_len s)%nat → ∃ c, iloc s 0 = Ok c ∧ Series_cells s !! 0%nat = Some c.
Proof.
  intros Hlen. unfold iloc.
  destruct (lookup_lt_is_Some_2 (Series_cells s) 0) as [c Hc].
  { by rewrite Series_cells_length. }
  exists c. by rewrite Hc.
Qed.

Section Main_facts.

Variable argsort : Series → list nat.
Variable selectbox : list (Q + string) → option (Q + string).
Hypothesis Hperm : argsort_permutes argsort.

(** [main] up to the metrics table: the scored frame is there, and what
    is left to do depends on the number of rows of the selected region. *)
Lemma main_run (h : store) (df : loc) (f : DataFrame) (m : Metrics) (n : nat)
    (region : Series) :
  h !! df = Some f → valid_batch f m n →
  f !! "Region" = Some region → Series_len region = n →
  let g := scored f m in
  let options := unique (Series_cells region) in
  let mask := Series_eq region (selectbox options) in
  ((2 ≤ count_true mask)%nat →
   main argsort selectbox df h = (Raise ValueError, h ++ [g])) ∧
  ((count_true mask ≤ 1)%nat →
   ∃ indexer t ranked_scores tbl br bs,
     nargsort_descending argsort
       (Float64 (Solar_Site_Suitability_Score (normalized_metrics m))) = Ok indexer ∧
     indexer ≡ₚ seq 0 n ∧
     Rank t = seq 1 n ∧ Score t = Float64 ranked_scores ∧
     length ranked_scores = n ∧ Series_len (Region t) = n ∧
     (∀ p i, indexer !! p = Some i →
        Series_cell (Region t) p = Series_cell region i ∧
        ranked_scores !! p
        = Solar_Site_Suitability_Score (normalized_metrics m) !! i) ∧
     (count_true mask = 0%nat → tbl = None) ∧
     (count_true mask = 1%nat →
        ∃ cols, frame_getitems (Series_mask mask <$> g) display_cols = Ok cols ∧
                tbl = Some ((λ ks, (ks.1, Series_cells ks.2)) <$> cols)) ∧
     Series_cells (Region t) !! 0%nat = Some br ∧
     ranked_scores !! 0%nat = Some bs ∧
     main argsort selectbox df h =
     (Ok {| regions := options; selected_region := selectbox options;
            metrics := tbl; ranked := t;
            top_10 := (Series_head 10 (Region t), Series_head 10 (Score t));
            best_region := br; best_score := inl bs;
            num_high_suitability :=
              length (List.filter (Qle_bool high_suitability_threshold) ranked_scores) |},
      h ++ [g])).
Proof.
  intros Hdf Hv Hregion Lregion g options mask.
  pose proof Hv as (Hm & Hrows & Hn).
  assert (g !! "Region" = Some region) as Hgr
    by (unfold g; by rewrite scored_region).
  assert (∀ k : Dashboard → M Dashboard,
            (main argsort selectbox df h =
             (metrics ← (if decide (count_true mask = 0%nat) then mret None
                         else t ← lift (metrics_table (Series_mask mask <$> g)
                                          (count_true mask));
                              mret (Some t));
              ranked_df ← lift (ranked_df argsort g);
              best_region ← lift (iloc (Region ranked_df) 0);
              best_score ← lift (iloc (Score ranked_df) 0);
              num_high_suitability ←
                lift (count_at_least high_suitability_threshold (Score ranked_df));
              mret {| regions := options; selected_region := selectbox options;
                      metrics := metrics; ranked := ranked_df;
                      top_10 := (Series_head 10 (Region ranked_df),
                                 Series_head 10 (Score ranked_df));
                      best_region := best_region; best_score := best_score;
                      num_high_suitability := num_high_suitability |})
             (h ++ [g]))) as Hmain.
  { intros _. unfold main.
    rewrite bind_run, (create_run h df f m n Hdf Hv).
    rewrite bind_run, (getitem_last _ _ _ _ Hgr).
    rewrite bind_run, (getitem_last _ _ _ _ Hgr).
    rewrite bind_run, frame_of_last. reflexivity. }
  specialize (Hmain (λ d, mret d)). rewrite Hmain. clear Hmain.
  pose proof (display_columns_of_scored f m mask Hm) as Hcols.
  fold g in Hcols.
  split.
  - intros Hmany. rewrite bind_run.
    destruct (decide (count_true mask = 0%nat)) as [?|_]; [lia|].
    rewrite bind_run. unfold lift at 1, metrics_table. rewrite Hcols.
    cbn [mbind result_bind].
    destruct (decide (count_true mask = 1%nat)); [lia|]. reflexivity.
  - intros Hfew.
    destruct (normalized_metrics_rows m n Hrows) as (? & ? & ? & ? & ? & ?).
    destruct (ranked_df_run argsort g region
                (Solar_Site_Suitability_Score (normalized_metrics m)) n Hperm Hgr)
      as (indexer & t & ranked & Hix & Ht & Hp & Hrank & Hscore & Lranked & Lreg & Hrowsof);
      [unfold g; apply scored_score | done | by apply score_length |].
    destruct (iloc_first (Region t)) as (br & Hbr & Hbr'); [lia|].
    destruct (iloc_first (Score t)) as (bs' & Hbs & Hbs').
    { rewrite Hscore. simpl. lia. }
    rewrite Hscore in Hbs'. simpl in Hbs'. rewrite list_lookup_fmap in Hbs'.
    destruct (ranked !! 0%nat) as [bs|] eqn:Hbs0; [|done].
    simpl in Hbs'. injection Hbs' as <-.
    exists indexer, t, ranked.
    exists (if decide (count_true mask = 0%nat) then None
            else Some ((λ ks : string * Series, (ks.1, Series_cells ks.2)) <$>
                       [ ("Solar_Irradiance_kWh_m2_day",
                          Float64 (boolean_mask mask (Solar_Irradiance_kWh_m2_day m)));
                         ("Rural_Pop_Density_per_km2",
                          Float64 (boolean_mask mask (Rural_Pop_Density_per_km2 m)));
                         ("Grid_Access_Percent",
                          Float64 (boolean_mask mask (Grid_Access_Percent m)));
                         ("Infrastructure_Index",
                          Float64 (boolean_mask mask (Infrastructure_Index m)));
                         ("Electricity_Cost_USD_per_kWh",
                          Float64 (boolean_mask mask (Electricity_Cost_USD_per_kWh m)));
                         ("Terrain_Ruggedness_Score",
                          Float64 (boolean_mask mask (Terrain_Ruggedness_Score m)));
                         ("Solar_Site_Suitability_Score",
                          Float64 (boolean_mask mask
                             (Solar_Site_Suitability_Score (normalized_metrics m)))) ])).
    exists br, bs.
    do 7 (split; [done|]).
    split; [intros Hnone; by rewrite decide_True|].
    split.
    { intros Hone. eexists. split; [exact Hcols|]. by rewrite decide_False by lia. }
    split; [done|]. split; [done|].
    rewrite bind_run.
    destruct (decide (count_true mask = 0%nat)) as [Hzero|Hzero].
    + cbn [mret M_ret].
      rewrite bind_run. unfold lift at 1. rewrite Ht.
      rewrite bind_run. unfold lift at 1. rewrite Hbr.
      rewrite bind_run. unfold lift at 1. rewrite Hbs.
      rewrite bind_run. unfold lift at 1. rewrite Hscore.
      reflexivity.
    + rewrite bind_run. unfold lift at 1, metrics_table. rewrite Hcols.
      cbn [mbind result_bind]. rewrite decide_True by lia.
      cbn [mret M_ret].
      rewrite bind_run. unfold lift at 1. rewrite Ht.
      rewrite bind_run. unfold lift at 1. rewrite Hbr.
      rewrite bind_run. unfold lift at 1. rewrite Hbs.
      rewrite bind_run. unfold lift at 1. rewrite Hscore.
      reflexivity.
Qed.

End Main_facts.

(** * The metrics table of the selected region *)

Lemma count_true_cons (b : bool) (mask : list bool) :
  count_true (b :: mask) = if b then S (count_true mask) else count_true mask.
Proof. by destruct b. Qed.

Lemma boolean_mask_none {A} (mask : list bool) (a : list A) :
  count_true mask = 0%nat → boolean_mask mask a = [].
Proof.
  revert a. induction mask as [|b mask IH]; intros a Hc; [done|].
  rewrite count_true_cons in Hc. destruct b; [done|].
  destruct a; [done|]. simpl. by apply IH.
Qed.

Lemma count_true_positive (mask : list bool) (i : nat) :
  mask !! i = Some true → (1 ≤ count_true mask)%nat.
Proof.
  revert i. induction mask as [|b mask IH]; intros i Hi; [done|].
  rewrite count_true_cons. destruct b; [lia|].
  destruct i as [|i]; [done|]. by apply (IH i).
Qed.

(** A mask that selects one row, row [i], selects the entry at [i]. *)
Lemma boolean_mask_single {A} (mask : list bool) (a : list A) (i : nat) (x : A) :
  count_true mask = 1%nat → mask !! i = Some true → a !! i = Some x →
  boolean_mask mask a = [x].
Proof.
  revert a i. induction mask as [|b mask IH]; intros a i Hc Hi Hx; [done|].
  rewrite count_true_cons in Hc.
  destruct a as [|y a]; [done|]. destruct b; simpl.
  - assert (count_true mask = 0%nat) as Hnone by lia.
    destruct i as [|i].
    + injection Hx as ->. by rewrite boolean_mask_none.
    + change (mask !! i = Some true) in Hi.
      apply count_true_positive in Hi. lia.
  - destruct i as [|i]; [done|]. by apply (IH a i).
Qed.

Lemma masked_cell (g : DataFrame) (k : string) (col : list Q)
    (mask : list bool) (i : nat) :
  g !! k = Some (Float64 col) → length col = length mask →
  count_true mask = 1%nat → mask !! i = Some true →
  ∃ v, Series_cells (Float64 (boolean_mask mask col)) = [inl v] ∧
       cell g k i = Some v.
Proof.
  intros Hk Hlen Hc Hi.
  destruct (lookup_lt_is_Some_2 col i) as [v Hv].
  { rewrite Hlen. by eapply lookup_lt_Some. }
  exists v. split.
  - simpl. by rewrite (boolean_mask_single mask col i v).
  - unfold cell. by rewrite Hk.
Qed.

Lemma Series_eq_length (s : Series) (v : option (Q + string)) :
  length (Series_eq s v) = Series_len s.
Proof.
  unfold Series_eq. destruct v; by rewrite length_fmap, Series_cells_length.
Qed.

(** X7. When the region the user selects names exactly one row of a valid
    batch, row [i], [main] completes and the metrics table has one line for
    each of the seven displayed columns, in their order, holding the value
    of that column in row [i] of the scored frame; the loaded frame is
    unchanged. *)
Theorem metrics_table_of_selected_region
    (argsort : Series → list nat)
    (selectbox : list (Q + string) → option (Q + string))
    (h : store) (df : loc) (f : DataFrame) (m : Metrics) (n : nat)
    (region : Series) (c : Q + string) (i : nat) :
  argsort_permutes argsort →
  h !! df = Some f → valid_batch f m n →
  f !! "Region" = Some region → Series_len region = n →
  selectbox (unique (Series_cells region)) = Some c →
  Series_eq region (Some c) !! i = Some true →
  count_true (Series_eq region (Some c)) = 1%nat →
  ∃ d h' g tbl,
    main argsort selectbox df h = (Ok d, h') ∧ h' !! df = Some f ∧
    returns h df g ∧
    selected_region d = Some c ∧
    metrics d = Some tbl ∧ tbl.*1 = display_cols ∧
    Forall (λ kv, ∃ v, kv.2 = [inl v] ∧ cell g kv.1 i = Some v) tbl.
Proof.
  intros Hperm Hdf Hv Hregion Lregion Hsel Hi Hone.
  destruct (main_run argsort selectbox Hperm h df f m n region Hdf Hv Hregion Lregion)
    as [_ Hrun].
  rewrite Hsel in Hrun.
  destruct Hrun as (indexer & t & ranked & tbl & br & bs & _ & _ & _ & _ & _ & _ & _
                    & _ & Htbl & _ & _ & Hmain); [lia|].
  destruct (Htbl Hone) as (cols & Hcols & ->).
  pose proof Hv as (Hm & Hrows & _).
  rewrite (display_columns_of_scored f m _ Hm) in Hcols. injection Hcols as <-.
  eexists _, _, (scored f m), _.
  split; [exact Hmain|]. split; [by apply store_lookup_old|].
  split; [by eapply returns_scored|].
  split; [done|]. split; [done|]. split; [done|].
  destruct (scored_has_metrics f m Hm) as (H1 & H2 & H3 & H4 & H5 & H6).
  destruct Hrows as (L1 & L2 & L3 & L4 & L5 & L6).
  pose proof (Series_eq_length region (Some c)) as Lmask.
  destruct (normalized_metrics_rows m n (conj L1 (conj L2 (conj L3 (conj L4 (conj L5 L6))))))
    as (? & ? & ? & ? & ? & ?).
  change ((λ x : Q + string, cell_eqb x c) <$> Series_cells region)
    with (Series_eq region (Some c)).
  repeat (constructor;
          [ eapply masked_cell;
            [ eauto using scored_score
            | rewrite Lmask, Lregion; first [assumption | by apply score_length]
            | done | done ] | ]).
  constructor.
Qed.

Lemma metrics_table_of_selected_region_witness :
  ∃ d h' g tbl,
    main stable_argsort first_option 0%nat [scenario] = (Ok d, h') ∧
    h' !! 0%nat = Some scenario ∧
    returns [scenario] 0%nat g ∧
    selected_region d = Some (inr "A") ∧
    metrics d = Some tbl ∧ tbl.*1 = display_cols ∧
    Forall (λ kv, ∃ v, kv.2 = [inl v] ∧ cell g kv.1 0 = Some v) tbl.
Proof.
  apply (metrics_table_of_selected_region stable_argsort first_option
           [scenario] 0%nat scenario scenario_metrics 3%nat
           (Object ["A"; "B"; "C"]) (inr "A") 0%nat).
  - exact stable_argsort_permutes.
  - reflexivity.
  - valid_batch_by_computation.
  - vm_compute. reflexivity.
  - reflexivity.
  - vm_compute. reflexivity.
  - vm_compute. reflexivity.
  - vm_compute. reflexivity.
Defined.

(** X8. When the selected region names two or more rows of a valid batch,
    [main] ends in the [ValueError] of naming the columns of the
    transposed metrics table [["Value"]]: no ranked list is produced.  The
    loaded frame is unchanged. *)
Theorem duplicated_region_raises_ValueError
    (argsort : Series → list nat)
    (selectbox : list (Q + string) → option (Q + string))
    (h : store) (df : loc) (f : DataFrame) (m : Metrics) (n : nat)
    (region : Series) :
  argsort_permutes argsort →
  h !! df = Some f → valid_batch f m n →
  f !! "Region" = Some region → Series_len region = n →
  (2 ≤ count_true (Series_eq region (selectbox (unique (Series_cells region)))))%nat →
  ∃ h', main argsort selectbox df h = (Raise ValueError, h') ∧ h' !! df = Some f.
Proof.
  intros Hperm Hdf Hv Hregion Lregion Hmany.
  destruct (main_run argsort selectbox Hperm h df f m n region Hdf Hv Hregion Lregion)
    as [Hrun _].
  eexists. split; [by apply Hrun | by apply store_lookup_old].
Qed.

Lemma duplicated_region_raises_ValueError_witness :
  ∃ h', main stable_argsort first_option 0%nat [two_named_A] = (Raise ValueError, h') ∧
        h' !! 0%nat = Some two_named_A.
Proof.
  apply (duplicated_region_raises_ValueError stable_argsort first_option
           [two_named_A] 0%nat two_named_A scenario_metrics 3%nat
           (Object ["A"; "A"; "C"])).
  - exact stable_argsort_permutes.
  - reflexivity.
  - valid_batch_by_computation.
  - vm_compute. reflexivity.
  - reflexivity.
  - vm_compute. lia.
Defined.

(** * The options of the region selector *)

Lemma cell_eqb_refl (c : Q + string) : cell_eqb c c = true.
Proof. destruct c; simpl; [apply Qeq_bool_refl | by apply bool_decide_eq_true]. Qed.

Lemma cell_eqb_comm (a b : Q + string) : cell_eqb a b = cell_eqb b a.
Proof.
  destruct a, b; simpl; try done; [apply Qeq_bool_comm|].
  apply bool_decide_ext. split; congruence.
Qed.

Lemma unique_from_elem (seen xs : list (Q + string)) (y : Q + string) :
  y ∈ unique_from seen xs → y ∈ xs ∧ existsb (cell_eqb y) seen = false.
Proof.
  revert seen. induction xs as [|x xs IH]; intros seen Hy; simpl in Hy.
  - by apply elem_of_nil in Hy.
  - destruct (existsb (cell_eqb x) seen) eqn:Hx.
    + destruct (IH _ Hy). split; [by right | done].
    + apply elem_of_cons in Hy as [-> | Hy]; [split; [by left | done]|].
      destruct (IH _ Hy) as [Hin Hex]. split; [by right|].
      simpl in Hex. by apply orb_false_elim in Hex as [_ ?].
Qed.

Lemma unique_from_covers (seen xs : list (Q + string)) (x : Q + string) :
  x ∈ xs →
  existsb (cell_eqb x) seen = true ∨
  ∃ y, y ∈ unique_from seen xs ∧ cell_eqb x y = true.
Proof.
  revert seen. induction xs as [|a xs IH]; intros seen Hx.
  - by apply elem_of_nil in Hx.
  - simpl. destruct (existsb (cell_eqb a) seen) eqn:Ha.
    + apply elem_of_cons in Hx as [-> | Hx]; [by left | by apply IH].
    + apply elem_of_cons in Hx as [-> | Hx].
      * right. exists a. split; [by left | apply cell_eqb_refl].
      * destruct (IH (a :: seen) Hx) as [Hseen | (y & Hy & Hxy)].
        -- simpl in Hseen. apply orb_true_elim in Hseen as [Hxa | Hseen].
           ++ right. exists a. split; [by left | done].
           ++ by left.
        -- right. exists y. split; [by right | done].
Qed.

Lemma unique_from_distinct (seen xs : list (Q + string)) (i j : nat)
    (x y : Q + string) :
  unique_from seen xs !! i = Some x → unique_from seen xs !! j = Some y →
  (i < j)%nat → cell_eqb y x = false.
Proof.
  revert seen i j. induction xs as [|a xs IH]; intros seen i j Hi Hj Hij;
    simpl in Hi, Hj; [done|].
  destruct (existsb (cell_eqb a) seen); [by apply (IH seen i j)|].
  destruct j as [|j]; [lia|]. simpl in Hj. destruct i as [|i]; simpl in Hi.
  - injection Hi as ->.
    apply list_elem_of_lookup_2, unique_from_elem in Hj as [_ Hex].
    simpl in Hex. by apply orb_false_elim in Hex as [? _].
  - apply (IH (a :: seen) i j); [done | done | lia].
Qed.

Lemma unique_from_sublist (seen xs : list (Q + string)) :
  unique_from seen xs `sublist_of` xs.
Proof.
  revert seen. induction xs as [|a xs IH]; intros seen; simpl; [done|].
  destruct (existsb (cell_eqb a) seen).
  - by apply sublist_cons.
  - by apply sublist_skip.
Qed.

(** X9. The options offered by the region selector are the distinct values
    of the Region column in the order of the column: they are a
    subsequence of the column that starts with its first value, every
    value of the column equals one of them, and no two of them are
    equal. *)
Theorem region_options_are_the_distinct_regions (region : Series) :
  let options := unique (Series_cells region) in
  options `sublist_of` Series_cells region ∧
  head options = head (Series_cells region) ∧
  (∀ c, c ∈ Series_cells region → ∃ o, o ∈ options ∧ cell_eqb c o = true) ∧
  (∀ i j a b, options !! i = Some a → options !! j = Some b →
              cell_eqb a b = true → i = j).
Proof.
  intros options. unfold options, unique.
  split; [apply unique_from_sublist|].
  split; [by destruct (Series_cells region)|].
  split.
  - intros c Hc.
    by destruct (unique_from_covers [] (Series_cells region) c Hc) as [?|?].
  - intros i j a b Hi Hj Hab.
    destruct (Nat.lt_trichotomy i j) as [Hlt | [-> | Hlt]]; [|done|].
    + pose proof (unique_from_distinct _ _ _ _ _ _ Hi Hj Hlt) as Hne.
      rewrite cell_eqb_comm in Hne. congruence.
    + pose proof (unique_from_distinct _ _ _ _ _ _ Hj Hi Hlt). congruence.
Qed.

Lemma Series_eq_true (region : Series) (c : Q + string) :
  c ∈ Series_cells region →
  ∃ i, Series_eq region (Some c) !! i = Some true.
Proof.
  intros Hc. apply list_elem_of_lookup in Hc as [i Hi].
  exists i. unfold Series_eq. rewrite list_lookup_fmap, Hi. simpl.
  by rewrite cell_eqb_refl.
Qed.

(** X10. On a valid batch, when the selected region is one of the options
    offered, the selection matches at least one row, so the "No data
    available" branch is not taken: [main] either completes with a metrics
    table or ends in the [ValueError] of a region name that occurs
    twice. *)
Theorem offered_region_always_has_data
    (argsort : Series → list nat)
    (selectbox : list (Q + string) → option (Q + string))
    (h : store) (df : loc) (f : DataFrame) (m : Metrics) (n : nat)
    (region : Series) (c : Q + string) :
  argsort_permutes argsort →
  h !! df = Some f → valid_batch f m n →
  f !! "Region" = Some region → Series_len region = n →
  selectbox (unique (Series_cells region)) = Some c →
  c ∈ unique (Series_cells region) →
  (1 ≤ count_true (Series_eq region (Some c)))%nat ∧
  ((∃ d h' tbl, main argsort selectbox df h = (Ok d, h') ∧ metrics d = Some tbl) ∨
   (∃ h', main argsort selectbox df h = (Raise ValueError, h'))).
Proof.
  intros Hperm Hdf Hv Hregion Lregion Hsel Hc.
  apply unique_from_elem in Hc as [Hc _].
  destruct (Series_eq_true region c Hc) as [i Hi].
  pose proof (count_true_positive _ _ Hi) as Hpos.
  split; [done|].
  destruct (main_run argsort selectbox Hperm h df f m n region Hdf Hv Hregion Lregion)
    as [Hmany Hfew].
  rewrite Hsel in Hmany, Hfew.
  destruct (decide (count_true (Series_eq region (Some c)) = 1%nat)) as [Hone|Hne].
  - left.
    destruct Hfew as (indexer & t & ranked & tbl & br & bs & _ & _ & _ & _ & _ & _ & _
                      & _ & Htbl & _ & _ & Hmain); [lia|].
    destruct (Htbl Hone) as (cols & _ & ->).
    eexists _, _, _. split; [exact Hmain | done].
  - right. eexists. apply Hmany. lia.
Qed.

Lemma offered_region_always_has_data_witness :
  (1 ≤ count_true (Series_eq (Object ["A"; "B"; "C"]) (Some (inr "A"))))%nat ∧
  ((∃ d h' tbl, main stable_argsort first_option 0%nat [scenario] = (Ok d, h') ∧
                metrics d = Some tbl) ∨
   (∃ h', main stable_argsort first_option 0%nat [scenario] = (Raise ValueError, h'))).
Proof.
  apply (offered_region_always_has_data stable_argsort first_option
           [scenario] 0%nat scenario scenario_metrics 3%nat
           (Object ["A"; "B"; "C"]) (inr "A")).
  - exact stable_argsort_permutes.
  - reflexivity.
  - valid_batch_by_computation.
  - vm_compute. reflexivity.
  - reflexivity.
  - vm_compute. reflexivity.
  - vm_compute. apply list_elem_of_here.
Defined.

(** * The ranked list on the page *)

Lemma Series_cell_cells (s : Series) (i : nat) :
  Series_cell s i = Series_cells s !! i.
Proof. destruct s; simpl; by rewrite list_lookup_fmap. Qed.

Lemma Series_head_len (k : nat) (s : Series) :
  Series_len (Series_head k s) = (k `min` Series_len s)%nat.
Proof. destruct s; simpl; apply length_take. Qed.

Lemma Series_head_cell (k : nat) (s : Series) (p : nat) :
  (p < k)%nat → Series_cell (Series_head k s) p = Series_cell s p.
Proof. intros Hp. destruct s; simpl; by rewrite lookup_take_lt. Qed.




Section Ranked_page.

Variable argsort : Series → list nat.
Variable selectbox : list (Q + string) → option (Q + string).
Hypothesis Hperm : argsort_permutes argsort.
Hypothesis Hasc : argsort_ascends argsort.

(** The scores of the ranked table do not increase from top to bottom. *)
Lemma ranked_scores_descend (scores ranked : list Q) (indexer : list nat) (n : nat) :
  nargsort_descending argsort (Float64 scores) = Ok indexer →
  indexer ≡ₚ seq 0 n → length ranked = n →
  (∀ p i, indexer !! p = Some i → ranked !! p = scores !! i) →
  ∀ p q x y, (p ≤ q)%nat → ranked !! p = Some x → ranked !! q = Some y → y <= x.
Proof.
  intros Hix Hp Hlen Hrows p q x y Hpq Hx Hy.
  assert (length indexer = n) as Li by (by rewrite Hp, length_seq).
  destruct (lookup_lt_is_Some_2 indexer p) as [i Hi].
  { apply lookup_lt_Some in Hx. lia. }
  destruct (lookup_lt_is_Some_2 indexer q) as [j Hj].
  { apply lookup_lt_Some in Hy. lia. }
  rewrite (Hrows p i Hi) in Hx. rewrite (Hrows q j Hj) in Hy.
  exact (nargsort_descending_descends argsort Hperm Hasc scores indexer
           p q i j x y Hix Hpq Hi Hj Hx Hy).
Qed.

End Ranked_page.

(** X11. On a valid batch (with a selection that matches at most one row)
    the row shown as best is a row of the batch whose score is a maximum
    of the batch: [best_region] is the region name of some row [i],
    [best_score] is the score of row [i], and no row has a higher
    score. *)
Theorem best_region_has_a_highest_score
    (argsort : Series → list nat)
    (selectbox : list (Q + string) → option (Q + string))
    (h : store) (df : loc) (f : DataFrame) (m : Metrics) (n : nat)
    (region : Series) :
  argsort_permutes argsort → argsort_ascends argsort →
  h !! df = Some f → valid_batch f m n →
  f !! "Region" = Some region → Series_len region = n →
  (count_true (Series_eq region (selectbox (unique (Series_cells region)))) ≤ 1)%nat →
  ∃ d h' g i bs,
    main argsort selectbox df h = (Ok d, h') ∧ returns h df g ∧
    Series_cell region i = Some (best_region d) ∧
    best_score d = inl bs ∧
    cell g "Solar_Site_Suitability_Score" i = Some bs ∧
    ∀ j s, cell g "Solar_Site_Suitability_Score" j = Some s → s <= bs.
Proof.
  intros Hperm Hasc Hdf Hv Hregion Lregion Hfew.
  destruct (main_run argsort selectbox Hperm h df f m n region Hdf Hv Hregion Lregion)
    as [_ Hrun].
  destruct (Hrun Hfew) as (indexer & t & ranked & tbl & br & bs & Hix & Hp & Hrank
                           & Hscore & Lranked & Lreg & Hrowsof & _ & _ & Hbr & Hbs & Hmain).
  pose proof Hv as (_ & _ & Hn).
  assert (length indexer = n) as Li by (by rewrite Hp, length_seq).
  destruct (lookup_lt_is_Some_2 indexer 0) as [i Hi]; [lia|].
  destruct (Hrowsof 0%nat i Hi) as [Hreg Hsc].
  eexists _, _, (scored f m), i, bs.
  split; [exact Hmain|]. split; [by eapply returns_scored|].
  split; [simpl; by rewrite <- Hreg, Series_cell_cells|].
  split; [done|].
  unfold cell. rewrite scored_score.
  split; [congruence|].
  intros j s Hj.
  assert (j ∈ indexer) as Hin.
  { rewrite Hp. apply elem_of_seq. apply lookup_lt_Some in Hj.
    destruct (normalized_metrics_rows m n (proj1 (proj2 Hv))) as (? & ? & ? & ? & ? & ?).
    rewrite (score_length (normalized_metrics m) n) in Hj by done. lia. }
  apply list_elem_of_lookup_1 in Hin as [q Hq].
  apply (nargsort_descending_descends argsort Hperm Hasc _ indexer 0%nat q i j bs s
           Hix); [lia | done | done | congruence | done].
Qed.

Lemma best_region_has_a_highest_score_witness :
  ∃ d h' g i bs,
    main stable_argsort first_option 0%nat [scenario] = (Ok d, h') ∧
    returns [scenario] 0%nat g ∧
    Series_cell (Object ["A"; "B"; "C"]) i = Some (best_region d) ∧
    best_score d = inl bs ∧
    cell g "Solar_Site_Suitability_Score" i = Some bs ∧
    ∀ j s, cell g "Solar_Site_Suitability_Score" j = Some s → s <= bs.
Proof.
  apply (best_region_has_a_highest_score stable_argsort first_option
           [scenario] 0%nat scenario scenario_metrics 3%nat (Object ["A"; "B"; "C"])).
  - exact stable_argsort_permutes.
  - exact stable_argsort_ascends.
  - reflexivity.
  - valid_batch_by_computation.
  - vm_compute. reflexivity.
  - reflexivity.
  - vm_compute. lia.
Defined.

(** X12. On a valid batch of [n] regions the top-ten table has
    [min 10 n] rows, which are the first rows of the ranked list, and no
    region left out of it has a higher score than a region in it. *)
Theorem top_ten_are_the_highest_ranked
    (argsort : Series → list nat)
    (selectbox : list (Q + string) → option (Q + string))
    (h : store) (df : loc) (f : DataFrame) (m : Metrics) (n : nat)
    (region : Series) :
  argsort_permutes argsort → argsort_ascends argsort →
  h !! df = Some f → valid_batch f m n →
  f !! "Region" = Some region → Series_len region = n →
  (count_true (Series_eq region (selectbox (unique (Series_cells region)))) ≤ 1)%nat →
  ∃ d h' top_regions top_scores ranked_scores,
    main argsort selectbox df h = (Ok d, h') ∧
    top_10 d = (top_regions, Float64 top_scores) ∧
    Score (ranked d) = Float64 ranked_scores ∧
    Series_len top_regions = (10 `min` n)%nat ∧
    length top_scores = (10 `min` n)%nat ∧
    (∀ p, (p < 10)%nat →
       Series_cell top_regions p = Series_cell (Region (ranked d)) p ∧
       top_scores !! p = ranked_scores !! p) ∧
    ∀ p q x y, top_scores !! p = Some x → (10 ≤ q)%nat →
               ranked_scores !! q = Some y → y <= x.
Proof.
  intros Hperm Hasc Hdf Hv Hregion Lregion Hfew.
  destruct (main_run argsort selectbox Hperm h df f m n region Hdf Hv Hregion Lregion)
    as [_ Hrun].
  destruct (Hrun Hfew) as (indexer & t & rs & tbl & br & bs & Hix & Hp & Hrank
                           & Hscore & Lranked & Lreg & Hrowsof & _ & _ & Hbr & Hbs & Hmain).
  eexists _, _, (Series_head 10 (Region t)), (take 10 rs), rs.
  split; [exact Hmain|]. cbn [top_10 ranked].
  split; [by rewrite Hscore|]. split; [done|].
  split; [by rewrite Series_head_len, Lreg|].
  split; [by rewrite length_take, Lranked|].
  split.
  - intros p Hlt. split; [by apply Series_head_cell | by apply lookup_take_lt].
  - intros p q x y Hx Hq Hy.
    apply lookup_take_Some in Hx as [Hx Hlt].
    apply (ranked_scores_descend argsort Hperm Hasc
             (Solar_Site_Suitability_Score (normalized_metrics m)) rs indexer n
             Hix Hp Lranked (λ p i Hpi, proj2 (Hrowsof p i Hpi)) p q x y);
      [lia | done | done].
Qed.

Lemma top_ten_are_the_highest_ranked_witness :
  ∃ d h' top_regions top_scores ranked_scores,
    main stable_argsort first_option 0%nat [scenario] = (Ok d, h') ∧
    top_10 d = (top_regions, Float64 top_scores) ∧
    Score (ranked d) = Float64 ranked_scores ∧
    Series_len top_regions = (10 `min` 3)%nat ∧
    length top_scores = (10 `min` 3)%nat ∧
    (∀ p, (p < 10)%nat →
       Series_cell top_regions p = Series_cell (Region (ranked d)) p ∧
       top_scores !! p = ranked_scores !! p) ∧
    ∀ p q x y, top_scores !! p = Some x → (10 ≤ q)%nat →
               ranked_scores !! q = Some y → y <= x.
Proof.
  apply (top_ten_are_the_highest_ranked stable_argsort first_option
           [scenario] 0%nat scenario scenario_metrics 3%nat (Object ["A"; "B"; "C"])).
  - exact stable_argsort_permutes.
  - exact stable_argsort_ascends.
  - reflexivity.
  - valid_batch_by_computation.
  - vm_compute. reflexivity.
  - reflexivity.
  - vm_compute. lia.
Defined.



(** * Batches the page cannot show *)

(** X14. On a valid batch that has no Region column, [main] ends in
    [KeyError "Region"] when it reads the region names, after the scores
    were computed; the loaded frame is unchanged. *)
Theorem missing_Region_column_raises_KeyError
    (argsort : Series → list nat)
    (selectbox : list (Q + string) → option (Q + string))
    (h : store) (df : loc) (f : DataFrame) (m : Metrics) (n : nat) :
  h !! df = Some f → valid_batch f m n → f !! "Region" = None →
  ∃ h' g, main argsort selectbox df h = (Raise (KeyError "Region"), h') ∧
          returns h df g ∧ h' !! df = Some f.
Proof.
  intros Hdf Hv Hnone.
  exists (h ++ [scored f m]), (scored f m).
  split; [|split; [by eapply returns_scored | by apply store_lookup_old]].
  unfold main.
  rewrite bind_run, (create_run h df f m n Hdf Hv).
  rewrite bind_run, getitem_last_missing; [done|].
  by rewrite scored_region.
Qed.

Lemma missing_Region_column_raises_KeyError_witness :
  ∃ h' g, main stable_argsort first_option 0%nat [delete "Region" scenario]
          = (Raise (KeyError "Region"), h') ∧
          returns [delete "Region" scenario] 0%nat g ∧
          h' !! 0%nat = Some (delete "Region" scenario).
Proof.
  apply (missing_Region_column_raises_KeyError stable_argsort first_option
           [delete "Region" scenario] 0%nat (delete "Region" scenario)
           scenario_metrics 3%nat).
  - reflexivity.
  - valid_batch_by_computation.
  - apply lookup_delete_eq.
Defined.

(** X15. On a batch of zero records [main] ends in the [ValueError] of the
    scorer: nothing is selected, ranked or counted, and the loaded frame
    is unchanged. *)
Theorem main_on_empty_batch_raises_ValueError
    (argsort : Series → list nat)
    (selectbox : list (Q + string) → option (Q + string))
    (h : store) (df : loc) (f : DataFrame) :
  h !! df = Some f → empty_batch f →
  ∃ h', main argsort selectbox df h = (Raise ValueError, h') ∧ h' !! df = Some f.
Proof.
  intros Hdf Hempty.
  destruct (create_run_empty h df f Hdf Hempty) as [g Hrun].
  exists (h ++ [g]). split; [|by apply store_lookup_old].
  unfold main. by rewrite bind_run, Hrun.
Qed.

Lemma main_on_empty_batch_raises_ValueError_witness :
  ∃ h', main stable_argsort first_option 0%nat [no_regions] = (Raise ValueError, h') ∧
        h' !! 0%nat = Some no_regions.
Proof.
  apply (main_on_empty_batch_raises_ValueError stable_argsort first_option
           [no_regions] 0%nat no_regions).
  - reflexivity.
  - exact no_regions_empty.
Defined.

(** * Regions at the ends of the scale *)

Lemma normalized_lookup (x : Q) (xs : list Q) (i : nat) (v y : Q) :
  (x :: xs) !! i = Some v → normalized (x :: xs) !! i = Some y →
  y == (v - MinMaxScaler.data_min x xs)
       / MinMaxScaler.handle_zeros_in_scale
           (MinMaxScaler.data_max x xs - MinMaxScaler.data_min x xs).
Proof.
  intros Hv Hy. unfold normalized, MinMaxScaler.transform in Hy.
  rewrite list_lookup_fmap, Hv in Hy.
  cbn [fmap option_fmap option_map] in Hy. injection Hy as <-.
  apply transform_value.
Qed.

Lemma lowest_is_data_min (x : Q) (xs : list Q) (i : nat) (v : Q) :
  (x :: xs) !! i = Some v → Forall (λ u, v <= u) (x :: xs) →
  v == MinMaxScaler.data_min x xs.
Proof.
  intros Hv Hlow. apply Qle_antisym.
  - pose proof (data_min_elem x xs) as Hex.
    apply Exists_exists in Hex as (u & Hu & Heq).
    rewrite <- Heq. by apply (proj1 (Forall_forall _ _) Hlow).
  - by apply (proj1 (Forall_lookup _ _) (data_min_le x xs) i v).
Qed.

(** A lowest value is normalized to 0, whatever the spread. *)
Lemma normalized_lowest (xs : list Q) (i : nat) (y : Q) :
  lowest xs i → normalized xs !! i = Some y → y == 0.
Proof.
  intros (v & Hv & Hlow) Hy. destruct xs as [|x xs]; [done|].
  rewrite (normalized_lookup x xs i v y Hv Hy).
  rewrite (lowest_is_data_min x xs i v Hv Hlow).
  unfold Qdiv. ring.
Qed.

Lemma highest_rsub (c : Q) (xs : list Q) (i : nat) :
  highest xs i → lowest (map (Qminus c) xs) i.
Proof.
  intros (v & Hv & Hhigh). exists (c - v). split.
  - change (map (Qminus c) xs) with (Qminus c <$> xs).
    by rewrite list_lookup_fmap, Hv.
  - apply Forall_fmap. eapply Forall_impl; [exact Hhigh|].
    intros u Hu. simpl in *. lra.
Qed.

Lemma Terrain_Ruggedness_inverse_rsub (m : Metrics) :
  ∃ top, Terrain_Ruggedness_inverse m = map (Qminus top) (Terrain_Ruggedness_Score m).
Proof.
  unfold Terrain_Ruggedness_inverse.
  destruct (Terrain_Ruggedness_Score m) as [|t ts]; [by exists 0|].
  by eexists.
Qed.

(** X17. In a valid batch a region that has the least favourable value of
    every metric gets the score 0, whether the metrics vary or not. *)
Theorem worst_on_every_metric_scores_zero
    (h : store) (df : loc) (f : DataFrame) (m : Metrics) (n i : nat) :
  h !! df = Some f → valid_batch f m n → worst_on_every_metric m i →
  ∃ g s, returns h df g ∧
         cell g "Solar_Site_Suitability_Score" i = Some s ∧ s == 0.
Proof.
  intros Hdf Hv (B1 & B2 & B3 & B4 & B5 & B6).
  pose proof Hv as (_ & Hrows & _).
  assert (i < n)%nat as Hi.
  { destruct B1 as (v & Hv1 & _). apply lookup_lt_Some in Hv1.
    destruct Hrows as (<- & _). done. }
  destruct (scored_row f m n i Hrows Hi) as (r & Hr & _ & Hscore).
  exists (scored f m), (weighted_sum r).
  split; [by eapply returns_scored|]. split; [done|].
  destruct (norm_row_cells _ _ _ Hr) as (C1 & C2 & C3 & C4 & C5 & C6).
  destruct (scored_norm_cells f m i) as (N1 & N2 & N3 & N4 & N5 & N6).
  rewrite C1 in N1. rewrite C2 in N2. rewrite C3 in N3.
  rewrite C4 in N4. rewrite C5 in N5. rewrite C6 in N6.
  destruct (Terrain_Ruggedness_inverse_rsub m) as [top Htop].
  rewrite Htop in N6. unfold Grid_Access_inverse in N2.
  pose proof (normalized_lowest _ i _ B1 (eq_sym N1)) as E1.
  pose proof (normalized_lowest _ i _ (highest_rsub 100 _ i B2) (eq_sym N2)) as E2.
  pose proof (normalized_lowest _ i _ B3 (eq_sym N3)) as E3.
  pose proof (normalized_lowest _ i _ B4 (eq_sym N4)) as E4.
  pose proof (normalized_lowest _ i _ B5 (eq_sym N5)) as E5.
  pose proof (normalized_lowest _ i _ (highest_rsub top _ i B6) (eq_sym N6)) as E6.
  unfold weighted_sum. rewrite E1, E2, E3, E4, E5, E6. reflexivity.
Qed.

Lemma worst_on_every_metric_scores_zero_witness :
  ∃ g s, returns [graded] 0%nat g ∧
         cell g "Solar_Site_Suitability_Score" 0 = Some s ∧ s == 0.
Proof.
  apply (worst_on_every_metric_scores_zero [graded] 0%nat graded graded_metrics
           3%nat 0%nat).
  - reflexivity.
  - valid_batch_by_computation.
  - unfold worst_on_every_metric, highest, lowest.
    repeat apply conj; eexists; (split; [reflexivity|]);
      repeat constructor; by vm_compute.
Defined.

(** * The normalized columns in [float64] arithmetic *)

Section Rounded_columns.

Variable rnd : Q → Q.
Hypothesis Hrnd : rounding rnd.

Lemma IEEE_scored_feature (f : DataFrame) (m : Metrics) (n : nat) (dst src : string) :
  has_metrics f m → metrics_rows m n → (dst, src) ∈ features →
  ∃ xs, IEEE.scored rnd f m !! src = Some (Float64 xs) ∧ length xs = n ∧
        IEEE.scored rnd f m !! dst = Some (Float64 (IEEE.normalized rnd xs)).
Proof.
  intros (Hsolar & Hgrid & Hinfra & Hcost & Hpop & Hterr).
  intros (Ls & Lg & Li & Lc & Lp & Lt) Hin.
  unfold features in Hin.
  repeat (apply elem_of_cons in Hin as [Hin|Hin];
          [injection Hin as -> ->|]); [..|by apply elem_of_nil in Hin].
  - exists (Solar_Irradiance_kWh_m2_day m). unfold IEEE.scored. by simplify_map_eq.
  - exists (Infrastructure_Index m). unfold IEEE.scored. by simplify_map_eq.
  - exists (Electricity_Cost_USD_per_kWh m). unfold IEEE.scored. by simplify_map_eq.
  - exists (IEEE.Grid_Access_inverse rnd m). unfold IEEE.scored.
    split; [by simplify_map_eq|]. split; [|by simplify_map_eq].
    unfold IEEE.Grid_Access_inverse. by rewrite length_map.
  - exists (Rural_Pop_Density_per_km2 m). unfold IEEE.scored. by simplify_map_eq.
  - exists (IEEE.Terrain_Ruggedness_inverse rnd m). unfold IEEE.scored.
    split; [by simplify_map_eq|]. split; [|by simplify_map_eq].
    by rewrite IEEE_Terrain_Ruggedness_inverse_length.
Qed.

Lemma IEEE_normalized_lookup (x : Q) (xs : list Q) (i : nat) (v y : Q) :
  (x :: xs) !! i = Some v → IEEE.normalized rnd (x :: xs) !! i = Some y →
  y = rnd (rnd (v * MinMaxScaler.scale_ (IEEE.fit rnd x xs))
           + MinMaxScaler.min_ (IEEE.fit rnd x xs)).
Proof.
  intros Hv Hy. unfold IEEE.normalized, IEEE.transform in Hy.
  rewrite list_lookup_fmap, Hv in Hy.
  cbn [fmap option_fmap option_map] in Hy. by injection Hy as <-.
Qed.

(** Normalization keeps the order of the values of a column. *)
Lemma IEEE_normalized_monotone (xs : list Q) (i j : nat) (a b ya yb : Q) :
  xs !! i = Some a → xs !! j = Some b → a <= b →
  IEEE.normalized rnd xs !! i = Some ya → IEEE.normalized rnd xs !! j = Some yb →
  ya <= yb.
Proof.
  destruct xs as [|x xs]; [done|].
  intros Ha Hb Hab Hya Hyb.
  rewrite (IEEE_normalized_lookup x xs i a ya Ha Hya).
  rewrite (IEEE_normalized_lookup x xs j b yb Hb Hyb).
  pose proof (IEEE_scale_nonneg rnd Hrnd x xs) as Hs.
  apply (rounding_monotone rnd Hrnd), Qplus_le_l, (rounding_monotone rnd Hrnd).
  by apply Qmult_le_compat_r.
Qed.

(** A lowest value of a column is normalized to 0. *)
Lemma IEEE_normalized_lowest (xs : list Q) (i : nat) (v y : Q) :
  xs !! i = Some v → Forall (λ u, v <= u) xs →
  IEEE.normalized rnd xs !! i = Some y → y == 0.
Proof.
  destruct xs as [|x xs]; [done|].
  intros Hv Hlow Hy.
  rewrite (IEEE_normalized_lookup x xs i v y Hv Hy).
  pose proof (lowest_is_data_min x xs i v Hv Hlow) as Hmin.
  set (s := MinMaxScaler.scale_ (IEEE.fit rnd x xs)).
  change (MinMaxScaler.min_ (IEEE.fit rnd x xs))
    with (rnd (0 - rnd (MinMaxScaler.data_min x xs * s))).
  rewrite <- (rounding_zero rnd Hrnd) at 2.
  apply (rounding_proper rnd Hrnd).
  assert (rnd (0 - rnd (MinMaxScaler.data_min x xs * s))
          == - rnd (MinMaxScaler.data_min x xs * s)) as ->.
  { transitivity (rnd (- rnd (MinMaxScaler.data_min x xs * s)));
      [apply (rounding_proper rnd Hrnd); ring|].
    by rewrite (rounding_opp rnd Hrnd), (rounding_idempotent rnd Hrnd). }
  assert (rnd (v * s) == rnd (MinMaxScaler.data_min x xs * s)) as ->.
  { apply (rounding_proper rnd Hrnd). by rewrite Hmin. }
  ring.
Qed.

End Rounded_columns.

(** X4. In the frame the scorer returns for a valid batch, computed in
    [float64] arithmetic, every normalized column has one value for each
    region; no value is negative; a region with a lowest value of the
    source column has exactly 0, and some region has; and the normalized
    values are in the order of the source values. *)
Theorem normalized_column_keeps_order
    (rnd : Q → Q) (h : store) (df : loc) (f : DataFrame) (m : Metrics) (n : nat) :
  rounding rnd → h !! df = Some f → valid_batch f m n →
  ∃ g, IEEE.returns rnd h df g ∧
    ∀ dst src, (dst, src) ∈ features →
      ∃ xs ys,
        g !! src = Some (Float64 xs) ∧ g !! dst = Some (Float64 ys) ∧
        length xs = n ∧ length ys = n ∧
        Forall (λ y, 0 <= y) ys ∧ Exists (λ y, y == 0) ys ∧
        (∀ i v y, xs !! i = Some v → Forall (λ u, v <= u) xs →
                  ys !! i = Some y → y == 0) ∧
        (∀ i j a b ya yb, xs !! i = Some a → xs !! j = Some b → a <= b →
                          ys !! i = Some ya → ys !! j = Some yb → ya <= yb).
Proof.
  intros Hrnd Hdf Hv. exists (IEEE.scored rnd f m).
  split; [by eapply IEEE_returns_scored|].
  intros dst src Hin. pose proof Hv as (Hm & Hrows & Hn).
  destruct (IEEE_scored_feature rnd f m n dst src Hm Hrows Hin) as (xs & Hsrc & Lxs & Hdst).
  exists xs, (IEEE.normalized rnd xs).
  do 3 (split; [done|]).
  split; [by rewrite IEEE_normalized_length|].
  split; [by apply IEEE_normalized_nonneg|].
  split; [|split].
  - destruct xs as [|x xs]; [simpl in Lxs; lia|].
    pose proof (data_min_elem x xs) as Hex.
    apply Exists_exists in Hex as (v & Hin' & Hvmin).
    apply list_elem_of_lookup_1 in Hin' as [i Hi].
    destruct (lookup_lt_is_Some_2 (IEEE.normalized rnd (x :: xs)) i) as [y Hy].
    { rewrite IEEE_normalized_length. by eapply lookup_lt_Some. }
    apply Exists_exists. exists y.
    split; [by eapply list_elem_of_lookup_2|].
    apply (IEEE_normalized_lowest rnd Hrnd (x :: xs) i v y Hi); [|done].
    eapply Forall_impl; [apply data_min_le|].
    intros u Hu. simpl in Hu. by rewrite Hvmin.
  - intros i v y. by apply IEEE_normalized_lowest.
  - intros i j a b ya yb. by apply IEEE_normalized_monotone.
Qed.

Lemma normalized_column_keeps_order_witness :
  ∃ g, IEEE.returns Binary64.round [absorbed] 0%nat g ∧
    ∀ dst src, (dst, src) ∈ features →
      ∃ xs ys,
        g !! src = Some (Float64 xs) ∧ g !! dst = Some (Float64 ys) ∧
        length xs = 3%nat ∧ length ys = 3%nat ∧
        Forall (λ y, 0 <= y) ys ∧ Exists (λ y, y == 0) ys ∧
        (∀ i v y, xs !! i = Some v → Forall (λ u, v <= u) xs →
                  ys !! i = Some y → y == 0) ∧
        (∀ i j a b ya yb, xs !! i = Some a → xs !! j = Some b → a <= b →
                          ys !! i = Some ya → ys !! j = Some yb → ya <= yb).
Proof.
  apply (normalized_column_keeps_order Binary64.round
           [absorbed] 0%nat absorbed absorbed_metrics 3%nat).
  - exact Binary64_rounding.
  - reflexivity.
  - valid_batch_by_computation.
Defined.
